(** * MiniGit: a shallow embedding of [MiniGit.cpp] and its verification

    The repository state of MiniGit lives entirely on the file system, below
    the [.minigit] directory, plus one in-memory table (the staging area) that
    is mirrored into [.minigit/index].  The embedding keeps that shape: the
    disk is one finite map from path names to file contents, every command is
    a state transformer over the disk, the staging area and standard output,
    and a C++ exception is an explicit [Throw] result that leaves the writes
    performed so far in place. *)

From Stdlib Require Import String Ascii List Arith Lia.
From stdpp Require Import base option list gmap sets strings sorting.

Open Scope string_scope.

(** ** Strings as the code uses them *)

(** The line feed that [cout << "\n"] prints and [getline] splits on. *)
Definition LF : ascii := ascii_of_nat 10.
Definition nl : string := String LF EmptyString.

(** [std::string::empty]. *)
Definition str_empty (s : string) : bool :=
  match s with EmptyString => true | String _ _ => false end.

(** [s.substr(0, 7)]: at most the first seven characters. *)
Definition short_hash (s : string) : string := substring 0 7 s.

(** [s.substr(n)] for [n] within the string. *)
Fixpoint drop_chars (n : nat) (s : string) : string :=
  match n, s with
  | S n', String _ s' => drop_chars n' s'
  | _, _ => s
  end.

(** [s.rfind(p, 0) == 0]: [s] starts with [p]. *)
Definition starts_with (p s : string) : bool := String.prefix p s.

(** [while (getline(ss, line)) lines.push_back(line)]: the text is cut at
    every line feed; characters after the last line feed form a last line,
    and nothing is produced for an empty remainder. *)
Fixpoint getlines_from (line : string) (s : string) : list string :=
  match s with
  | EmptyString => if str_empty line then [] else [line]
  | String c s' =>
      if Ascii.eqb c LF then line :: getlines_from EmptyString s'
      else getlines_from (line +:+ String c EmptyString) s'
  end.

Definition getlines (s : string) : list string := getlines_from EmptyString s.

(** [line.find(' ')]: index of the first blank, if any. *)
Fixpoint find_space (s : string) : option nat :=
  match s with
  | EmptyString => None
  | String c s' => if Ascii.eqb c " "%char then Some 0 else S <$> find_space s'
  end.

(** Whether the character [c] occurs in [s]. *)
Fixpoint has_char (c : ascii) (s : string) : bool :=
  match s with
  | EmptyString => false
  | String c' s' => Ascii.eqb c' c || has_char c s'
  end.

(** *** Trimming the commit message

    [trim] of the command line front end, applied to the message of
    [commit -m].  A character of the set [" \t"] is a blank or a tab. *)
Definition is_blank (c : ascii) : bool :=
  Ascii.eqb c " "%char || Ascii.eqb c "009"%char.

(** [str.find_first_not_of(" \t")]; [None] is [npos]. *)
Fixpoint find_first_not_of_blank (s : string) : option nat :=
  match s with
  | EmptyString => None
  | String c s' => if is_blank c then S <$> find_first_not_of_blank s' else Some 0
  end.

(** [str.find_last_not_of(" \t")]. *)
Fixpoint find_last_not_of_blank (s : string) : option nat :=
  match s with
  | EmptyString => None
  | String c s' =>
      match find_last_not_of_blank s' with
      | Some i => Some (S i)
      | None => if is_blank c then None else Some 0
      end
  end.

(** The second search finds a character whenever the first one does; the
    branch for [npos] there is never taken. *)
Definition trim (str : string) : string :=
  match find_first_not_of_blank str with
  | None => ""
  | Some first =>
      match find_last_not_of_blank str with
      | Some last => substring first (last - first + 1) str
      | None => ""
      end
  end.

(** A text of blanks and tabs only. *)
Fixpoint all_blank (s : string) : bool :=
  match s with
  | EmptyString => true
  | String c s' => is_blank c && all_blank s'
  end.

(** What [trim] keeps of a text behind a first character that is kept: the
    text up to its last character that is neither blank nor tab. *)
Definition trim_right (s : string) : string :=
  match find_last_not_of_blank s with
  | Some last => substring 0 (S last) s
  | None => ""
  end.

(** ** Repository layout constants *)

Definition MINIGIT_DIR : string := ".minigit".
Definition OBJECTS_DIR : string := MINIGIT_DIR +:+ "/objects".
Definition REFS_DIR : string := MINIGIT_DIR +:+ "/refs".
Definition HEAD_FILE : string := REFS_DIR +:+ "/HEAD".
Definition HEADS_DIR : string := REFS_DIR +:+ "/heads".
Definition INDEX_FILE : string := MINIGIT_DIR +:+ "/index".

(** The path of the object stored under digest [h], and of the reference of
    branch [b], as the code spells them at each use. *)
Definition object_path (h : string) : string := OBJECTS_DIR +:+ "/" +:+ h.
Definition branch_path (b : string) : string := HEADS_DIR +:+ "/" +:+ b.

(** ** Commit records *)

(** Modelled from the spec: [CommitNode] is declared in [Commit.h], which is
    not part of the sources at hand.  The record carries the fields the data
    model lists, under the names of the accessors [MiniGit.cpp] calls. *)
Record CommitNode := mkCommitNode {
  getMessage : string;
  getTimestamp : string;
  getParentHashes : list string;
  getFileBlobs : gmap string string;
  getHash : string
}.

(** [CommitNode()]: the synthetic ancestor without parents and files. *)
Definition CommitNode_default : CommitNode := mkCommitNode "" "" [] ∅ "".

(** ** Program state and the exception monad *)

Record Repo := mkRepo {
  disk : gmap string string;
  stagingArea : gmap string string;
  cout : string
}.

Inductive exn :=
| runtime_error (what : string)
| corrupt_object.

Inductive res (A : Type) :=
| Ok (a : A)
| Throw (e : exn).
Arguments Ok {A} a.
Arguments Throw {A} e.

Definition M (A : Type) : Type := Repo → Repo * res A.

Definition ret {A} (a : A) : M A := λ st, (st, Ok a).
Definition throw {A} (e : exn) : M A := λ st, (st, Throw e).
Definition bind {A B} (m : M A) (k : A → M B) : M B :=
  λ st, match m st with
        | (st', Ok a) => k a st'
        | (st', Throw e) => (st', Throw e)
        end.
(** [try { m } catch (...) { h }]. *)
Definition try_catch {A} (m : M A) (h : M A) : M A :=
  λ st, match m st with
        | (st', Ok a) => (st', Ok a)
        | (st', Throw _) => h st'
        end.

Global Instance M_ret : MRet M := @ret.
Global Instance M_bind : MBind M := λ A B k m, bind m k.

Definition get_disk : M (gmap string string) := λ st, (st, Ok (disk st)).
Definition get_staging : M (gmap string string) := λ st, (st, Ok (stagingArea st)).
Definition set_staging (s : gmap string string) : M unit :=
  λ st, (mkRepo (disk st) s (cout st), Ok tt).
Definition print (s : string) : M unit :=
  λ st, (mkRepo (disk st) (stagingArea st) (cout st +:+ s), Ok tt).


(** A loop [for (const auto& x : xs) body(x)] whose body may throw. *)
Fixpoint for_each {A} (xs : list A) (body : A → M unit) : M unit :=
  match xs with
  | [] => mret tt
  | x :: xs' => body x;; for_each xs' body
  end.

(** The same loop threading the local variables [acc] the body updates. *)
Fixpoint for_fold {A B} (xs : list A) (body : A → B → M B) (acc : B) : M B :=
  match xs with
  | [] => mret acc
  | x :: xs' => acc' ← body x acc; for_fold xs' body acc'
  end.

(** Iteration order of [std::set<string>]: ascending, byte by byte. *)
Definition set_in_order (s : gset string) : list string :=
  merge_sort String.le (elements s).

(** ** The three-way table as the specification words it

    A path is classified from the blob digests it has in the ancestor, the
    current and the target snapshot, the empty digest standing for an absent
    path.  The rows are those of the merge table.  An absent target differs
    from every ancestor blob, so the two rows on a path the target deleted are
    tried before the two rows on a target that differs from the ancestor:
    they are the rows the table means for such a path (its delete
    semantics). *)
Inductive MergeAction :=
| TakeTarget
| ContentConflict
| DeleteFile
| DeleteModifyConflict
| KeepCurrent.

Definition classify (ancestorBlob currentBlob targetBlob : string) : MergeAction :=
  if bool_decide (ancestorBlob = "" ∧ currentBlob = "" ∧ targetBlob ≠ "") then
    TakeTarget
  else if bool_decide (ancestorBlob ≠ "" ∧ currentBlob ≠ "" ∧ targetBlob = ""
                       ∧ ancestorBlob = currentBlob) then
    DeleteFile
  else if bool_decide (ancestorBlob ≠ "" ∧ currentBlob ≠ "" ∧ targetBlob = ""
                       ∧ ancestorBlob ≠ currentBlob) then
    DeleteModifyConflict
  else if bool_decide (ancestorBlob ≠ "" ∧ currentBlob = ancestorBlob
                       ∧ targetBlob ≠ ancestorBlob) then
    TakeTarget
  else if bool_decide (ancestorBlob ≠ "" ∧ currentBlob ≠ ancestorBlob
                       ∧ targetBlob ≠ ancestorBlob ∧ currentBlob ≠ targetBlob) then
    ContentConflict
  else KeepCurrent.

Definition is_conflict (a : MergeAction) : bool :=
  match a with
  | ContentConflict | DeleteModifyConflict => true
  | _ => false
  end.

(** The blob digest of a path in a snapshot, with the absent sentinel. *)
Definition blob_of (files : gmap string string) (path : string) : string :=
  default "" (files !! path).

(** The text of a conflicted working file. *)
Definition conflict_text (currentContent targetContent targetLabel : string) : string :=
  "<<<<<<< HEAD" +:+ nl +:+ currentContent +:+
  "=======" +:+ nl +:+ targetContent +:+
  ">>>>>>> " +:+ targetLabel +:+ nl.

(** ** The line diff as the specification words it

    A tagged line is a context line, a removed line or an added line.  The
    walk over the cursors [i] (old) and [j] (new) is given by its rules: equal
    lines in range give a context line and advance both cursors; otherwise a
    removed line is given for the old cursor if it is in range and then an
    added line for the new cursor if it is in range; the walk ends when both
    cursors are exhausted. *)
Inductive DiffLine :=
| ContextLine (l : string)
| RemovedLine (l : string)
| AddedLine (l : string).

Inductive greedy_walk (oldLines newLines : list string)
  : nat → nat → list DiffLine → Prop :=
| walk_end i j :
    oldLines !! i = None → newLines !! j = None →
    greedy_walk oldLines newLines i j []
| walk_context i j l ls :
    oldLines !! i = Some l → newLines !! j = Some l →
    greedy_walk oldLines newLines (S i) (S j) ls →
    greedy_walk oldLines newLines i j (ContextLine l :: ls)
| walk_both i j o n ls :
    oldLines !! i = Some o → newLines !! j = Some n → o ≠ n →
    greedy_walk oldLines newLines (S i) (S j) ls →
    greedy_walk oldLines newLines i j (RemovedLine o :: AddedLine n :: ls)
| walk_removed i j o ls :
    oldLines !! i = Some o → newLines !! j = None →
    greedy_walk oldLines newLines (S i) j ls →
    greedy_walk oldLines newLines i j (RemovedLine o :: ls)
| walk_added i j n ls :
    oldLines !! i = None → newLines !! j = Some n →
    greedy_walk oldLines newLines i (S j) ls →
    greedy_walk oldLines newLines i j (AddedLine n :: ls).

Definition render_line (t : DiffLine) : string :=
  match t with
  | ContextLine l => "  " +:+ l +:+ nl
  | RemovedLine l => "- " +:+ l +:+ nl
  | AddedLine l => "+ " +:+ l +:+ nl
  end.

Definition render (ls : list DiffLine) : string :=
  foldr (λ t rest, render_line t +:+ rest) "" ls.

(** The two-line header labelling the old and the new side. *)
Definition diff_header (filename : string) : string :=
  "--- a/" +:+ filename +:+ nl +:+ "+++ b/" +:+ filename +:+ nl.

(** The outcome of [merge]: the C++ function returns [void] from three places,
    and the value records which one was reached. *)
Inductive MergeResult :=
| AlreadyUpToDate
| Conflicted
| Merged (digest : string).

(** ** A sample repository

    A small repository on which the statements below are exercised.  Digests
    are readable stand-ins: a blob with content [c] is stored under ["h" c],
    a commit with message [m] under ["c-" m], and a commit is serialised as
    its message.  The history is [base] with the children [ours], [theirs]
    and [gone], and [top] above [ours]. *)
Definition sample_hash (content : string) : string := "h" +:+ content.

Definition sample_digest (message now : string) (parents : list string)
    (files : gmap string string) : string := "c-" +:+ message.

Definition sample_serialize (c : CommitNode) : string := getMessage c.

Definition sample_commit (message : string) (parents : list string)
    (files : gmap string string) : CommitNode :=
  mkCommitNode message "t0" parents files ("c-" +:+ message).

Definition sample_base : CommitNode := sample_commit "base" [] {["f.txt" := "hX"]}.
Definition sample_ours : CommitNode := sample_commit "ours" ["c-base"] {["f.txt" := "hY"]}.
Definition sample_theirs : CommitNode := sample_commit "theirs" ["c-base"] {["f.txt" := "hZ"]}.
Definition sample_gone : CommitNode := sample_commit "gone" ["c-base"] ∅.
Definition sample_top : CommitNode := sample_commit "top" ["c-ours"] {["f.txt" := "hY"]}.

Definition sample_deserialize (content : string) : option CommitNode :=
  if decide (content = "base") then Some sample_base
  else if decide (content = "ours") then Some sample_ours
  else if decide (content = "theirs") then Some sample_theirs
  else if decide (content = "gone") then Some sample_gone
  else if decide (content = "top") then Some sample_top
  else None.

Definition sample_writable (path : string) : bool := true.

(** The staging table of the sample yields its entries last to first, as
    the finite map lists them. *)
Definition sample_iteration (st : Repo) : list (string * string) :=
  reverse (map_to_list (stagingArea st)).

(** The disk, by the content of HEAD and of the index file.  The branches
    are [master] at [ours], [dev] at [base], [feature] at [theirs], [cleanup]
    at [gone] and [release] at [top]. *)
Definition sample_disk (head index : string) : gmap string string :=
  list_to_map
    [ (".minigit/refs/HEAD", head);
      (".minigit/index", index);
      (".minigit/refs/heads/master", "c-ours");
      (".minigit/refs/heads/dev", "c-base");
      (".minigit/refs/heads/feature", "c-theirs");
      (".minigit/refs/heads/cleanup", "c-gone");
      (".minigit/refs/heads/release", "c-top");
      (".minigit/objects/c-base", "base");
      (".minigit/objects/c-ours", "ours");
      (".minigit/objects/c-theirs", "theirs");
      (".minigit/objects/c-gone", "gone");
      (".minigit/objects/c-top", "top");
      (".minigit/objects/hX", "X");
      (".minigit/objects/hY", "Y");
      (".minigit/objects/hZ", "Z");
      ("f.txt", "Y");
      ("g.txt", "W") ].

Definition on_master : string := "ref: refs/heads/master".
Definition on_dev : string := "ref: refs/heads/dev".

Definition sample_repo (head : string) : Repo :=
  mkRepo (sample_disk head "") ∅ "".

(** The same repository with [f.txt] staged, in memory and in the index. *)
Definition sample_staged : Repo :=
  mkRepo (sample_disk on_master ("f.txt hY" +:+ nl)) {["f.txt" := "hY"]} "".

Section MiniGit.

Set Default Proof Using "Type".

(** [Hashing::calculateHash], from [Hashing.h]. *)
Variable calculateHash : string → string.
(** How the [CommitNode] constructor derives the digest from message,
    timestamp, parents and files; [serialize] and [deserialize] are the
    members of [CommitNode] with these names ([None]: the text is not a
    commit record and [deserialize] throws). *)
Variable commit_digest : string → string → list string → gmap string string → string.
Variable serialize : CommitNode → string.
Variable deserialize : string → option CommitNode.
(** The clock reading the constructor stamps a new commit with. *)
Variable now : string.
(** The paths at which [FileUtils::writeToFile] succeeds. *)
Variable writable : string → bool.
(** The order in which a range-based [for] yields the entries of the
    [std::unordered_map] holding the staging area.  The language leaves it
    unspecified and it depends on how the table was filled, which the state
    does not record: it is an enumeration of the entries that may differ
    from one state to the next. *)
Variable iteration_order : Repo → list (string * string).
Hypothesis iteration_order_entries :
  ∀ st, iteration_order st ≡ₚ map_to_list (stagingArea st).

(** [CommitNode(message, parents, files)]. *)
Definition CommitNode_new (message : string) (parents : list string)
    (files : gmap string string) : CommitNode :=
  mkCommitNode message now parents files (commit_digest message now parents files).

(** *** File primitives *)

(** Modelled from the spec: [FileUtils::fileExists] is declared in
    [FileUtils.h], which is not part of the sources at hand.  It is the
    storage capability [exists]. *)
Definition fileExists (path : string) : M bool :=
  d ← get_disk; mret (bool_decide (is_Some (d !! path))).

(** Modelled from the spec: [FileUtils::readFromFile], missing with
    [FileUtils.h], is the storage capability [read]: it fails when there is
    no such file ([None] stands for the result [false], the output argument
    being left as it was) and gives the content otherwise. *)
Definition readFromFile (path : string) : M (option string) :=
  d ← get_disk; mret (d !! path).

(** Modelled from the spec: [FileUtils::writeToFile], missing with
    [FileUtils.h], is the storage capability [write], which may fail: it
    replaces the content of the file and returns [true], or returns [false]
    and changes nothing. *)
Definition writeToFile (path content : string) : M bool :=
  λ st, if writable path
        then (mkRepo (<[path:=content]> (disk st)) (stagingArea st) (cout st), Ok true)
        else (st, Ok false).

(** [std::filesystem::remove]. *)
Definition fs_remove (path : string) : M unit :=
  λ st, (mkRepo (delete path (disk st)) (stagingArea st) (cout st), Ok tt).

(** *** Helper methods *)

Definition getHeadCommitHash : M string :=
  r ← readFromFile HEAD_FILE;
  match r with
  | None => mret ""
  | Some headContent =>
      if starts_with "ref: " headContent then
        let refPath := drop_chars 5 headContent in
        let refFilePath := MINIGIT_DIR +:+ "/" +:+ refPath in
        r ← readFromFile refFilePath;
        mret (default "" r)
      else mret headContent
  end.

Definition updateHead (commitHash : string) (isBranch : bool) (branchName : string) : M unit :=
  if isBranch then
    let branchPath := HEADS_DIR +:+ "/" +:+ branchName in
    ok ← writeToFile branchPath commitHash;
    if negb ok then throw (runtime_error "Failed to update branch") else
    ok ← writeToFile HEAD_FILE ("ref: refs/heads/" +:+ branchName);
    if negb ok then throw (runtime_error "Failed to update HEAD") else mret tt
  else
    ok ← writeToFile HEAD_FILE commitHash;
    if negb ok then throw (runtime_error "Failed to update HEAD") else mret tt.

(** [loadCommit] only reads; [lookup_commit] is its result on a given disk. *)
Definition lookup_commit (d : gmap string string) (commitHash : string) : res CommitNode :=
  match d !! (OBJECTS_DIR +:+ "/" +:+ commitHash) with
  | None => Throw (runtime_error ("Commit not found: " +:+ commitHash))
  | Some content =>
      match deserialize content with
      | Some c => Ok c
      | None => Throw corrupt_object
      end
  end.

Definition loadCommit (commitHash : string) : M CommitNode :=
  λ st, (st, lookup_commit (disk st) commitHash).

Definition getBlobContent (blobHash : string) : M string :=
  r ← readFromFile (OBJECTS_DIR +:+ "/" +:+ blobHash);
  match r with
  | None => throw (runtime_error ("Blob not found: " +:+ blobHash))
  | Some content => mret content
  end.

(** The text [saveIndex] assembles: one line [file hash] per staged path,
    in the order the loop over [stagingArea] meets them. *)
Definition index_text (entries : list (string * string)) : string :=
  foldr (λ '(file, hash) rest, file +:+ " " +:+ hash +:+ nl +:+ rest) "" entries.

(** [for (const auto& pair : stagingArea)]: the entries as the loop yields
    them. *)
Definition iterate_staging : M (list (string * string)) :=
  λ st, (st, Ok (iteration_order st)).

Definition saveIndex : M unit :=
  entries ← iterate_staging;
  ok ← writeToFile INDEX_FILE (index_text entries);
  if negb ok then throw (runtime_error "Failed to save index") else mret tt.

Definition parse_index_line (s : gmap string string) (line : string) : gmap string string :=
  match find_space line with
  | Some space => <[substring 0 space line := drop_chars (S space) line]> s
  | None => s
  end.

Definition loadIndex : M unit :=
  set_staging ∅;;
  r ← readFromFile INDEX_FILE;
  match r with
  | Some content => set_staging (foldl parse_index_line ∅ (getlines content))
  | None => mret tt
  end.

(** A new invocation of the program: the constructor starts from an empty
    table and calls [loadIndex] when the repository directory exists.
    Without that directory there is no index file and [loadIndex] leaves the
    table empty, so the guard is not modelled. *)
Definition MiniGit_new (d : gmap string string) : Repo :=
  (loadIndex (mkRepo d ∅ "")).1.

(** *** Core commands *)

Definition add (filename : string) : M unit :=
  ex ← fileExists filename;
  if negb ex then throw (runtime_error ("File not found: " +:+ filename)) else
  r ← readFromFile filename;
  match r with
  | None => throw (runtime_error ("Failed to read file: " +:+ filename))
  | Some content =>
      let hash := calculateHash content in
      let blobPath := OBJECTS_DIR +:+ "/" +:+ hash in
      ex ← fileExists blobPath;
      (if negb ex then
         ok ← writeToFile blobPath content;
         if negb ok then throw (runtime_error "Failed to store blob") else mret tt
       else mret tt);;
      s ← get_staging;
      set_staging (<[filename:=hash]> s);;
      saveIndex;;
      print ("Added " +:+ filename +:+ " to staging area" +:+ nl)
  end.

Definition commit (message : string) : M unit :=
  s ← get_staging;
  if bool_decide (s = ∅) then print ("Nothing to commit" +:+ nl) else
  parentHash ← getHeadCommitHash;
  let parents := if str_empty parentHash then [] else [parentHash] in
  let c := CommitNode_new message parents s in
  let commitPath := OBJECTS_DIR +:+ "/" +:+ getHash c in
  ok ← writeToFile commitPath (serialize c);
  if negb ok then throw (runtime_error "Failed to store commit") else
  updateHead (getHash c) true "master";;
  set_staging ∅;;
  saveIndex;;
  print ("Committed " +:+ short_hash (getHash c) +:+ ": " +:+ message +:+ nl).

Definition branch (branchName : string) : M unit :=
  currentHash ← getHeadCommitHash;
  if str_empty currentHash then throw (runtime_error "No commits exist yet") else
  let branchPath := HEADS_DIR +:+ "/" +:+ branchName in
  ex ← fileExists branchPath;
  if (ex : bool) then print ("Branch already exists: " +:+ branchName +:+ nl) else
  ok ← writeToFile branchPath currentHash;
  if negb ok then throw (runtime_error "Failed to create branch") else
  print ("Created branch " +:+ branchName +:+ nl).

(** The first half of [checkout]: the commit the target names, and whether
    the target is a branch. *)
Definition resolve_target (target : string) : M (string * bool) :=
  let branchPath := HEADS_DIR +:+ "/" +:+ target in
  ex ← fileExists branchPath;
  if (ex : bool) then
    r ← readFromFile branchPath;
    match r with
    | None => throw (runtime_error "Failed to read branch")
    | Some h => mret (h, true)
    end
  else
    try_catch (loadCommit target;; mret (target, false))
              (throw (runtime_error ("Invalid branch or commit: " +:+ target))).

Definition restore_file (entry : string * string) : M unit :=
  content ← getBlobContent entry.2;
  writeToFile entry.1 content;; mret tt.

Definition checkout (target : string) : M unit :=
  th ← resolve_target target;
  let targetHash := (th : string * bool).1 in
  let isBranch := (th : string * bool).2 in
  c ← loadCommit targetHash;
  for_each (map_to_list (getFileBlobs c)) restore_file;;
  updateHead targetHash isBranch (if isBranch then target else "");;
  set_staging ∅;;
  print ("Switched to " +:+
         (if isBranch then "branch " +:+ target
          else "commit " +:+ short_hash targetHash) +:+ nl).

(** *** Common ancestor search *)

(** The body of the inner [for] loop over the parents of a loaded commit:
    an unseen parent is recorded one level deeper and queued. *)
Definition push_parent (depth : nat) (vq : gmap string nat * list (string * nat))
    (parent : string) : gmap string nat * list (string * nat) :=
  if bool_decide (is_Some (vq.1 !! parent)) then vq
  else (<[parent := S depth]> vq.1, (vq.2 ++ [(parent, S depth)])%list).

(** One of the two blocks in the body of the [while] loop; the blocks are
    the same text with the roles of the two sides exchanged.  The block
    pops the front of its own queue, returns it if the other side has seen
    it, and otherwise expands it; [catch (...) {}] makes a commit that does
    not load contribute nothing. *)
Definition side_step (d : gmap string string)
    (mine other : gmap string nat) (q : list (string * nat))
    : string + (gmap string nat * list (string * nat)) :=
  match q with
  | [] => inr (mine, q)
  | (current, depth) :: q' =>
      if bool_decide (is_Some (other !! current)) then inl current
      else match lookup_commit d current with
           | Ok c => inr (foldl (push_parent depth) (mine, q') (getParentHashes c))
           | Throw _ => inr (mine, q')
           end
  end.

(** The [while] loop, with a bound on the number of iterations ([None]: the
    bound was reached). *)
Fixpoint findLCA_loop (fuel : nat) (d : gmap string string)
    (visited1 visited2 : gmap string nat) (q1 q2 : list (string * nat))
    : option string :=
  match q1, q2 with
  | [], [] => Some ""
  | _, _ =>
      match fuel with
      | 0 => None
      | S fuel' =>
          match side_step d visited1 visited2 q1 with
          | inl found => Some found
          | inr (visited1', q1') =>
              match side_step d visited2 visited1' q2 with
              | inl found => Some found
              | inr (visited2', q2') =>
                  findLCA_loop fuel' d visited1' visited2' q1' q2'
              end
          end
      end
  end.

Definition findLCA_fuel (fuel : nat) (d : gmap string string)
    (commitHash1 commitHash2 : string) : option string :=
  findLCA_loop fuel d {[commitHash1 := 0]} {[commitHash2 := 0]}
               [(commitHash1, 0)] [(commitHash2, 0)].

(** Every digest that can enter a queue is a start digest or a parent
    recorded in some stored commit, and it enters each queue once. *)
Definition stored_parents (d : gmap string string) : list string :=
  map_to_list d ≫= (λ kv : string * string,
                       match deserialize kv.2 with
                       | Some c => getParentHashes c
                       | None => []
                       end).

Definition lca_bound (d : gmap string string) : nat :=
  2 * (2 + length (stored_parents d)).

Definition findLCA_on (d : gmap string string) (commitHash1 commitHash2 : string) : string :=
  default "" (findLCA_fuel (lca_bound d) d commitHash1 commitHash2).

Definition findLCA (commitHash1 commitHash2 : string) : M string :=
  d ← get_disk; mret (findLCA_on d commitHash1 commitHash2).

(** The parent relation of the stored commit graph, and reachability
    along it. *)
Definition parent_of (d : gmap string string) (h p : string) : Prop :=
  ∃ c, lookup_commit d h = Ok c ∧ p ∈ getParentHashes c.

Definition reaches (d : gmap string string) : string → string → Prop :=
  rtc (parent_of d).

(** The digests the search can meet, and the quantity each block of the
    loop body decreases when its queue is not empty. *)
Definition lca_universe (d : gmap string string) (a b : string) : gset string :=
  {[a]} ∪ {[b]} ∪ list_to_set (stored_parents d).

Definition side_measure (U : gset string) (visited : gmap string nat)
    (q : list (string * nat)) : nat :=
  size (U ∖ dom visited) + length q.

(** **** The search as the specification words it

    Each side keeps the digests it has seen, with their depth, and a
    frontier.  The sides move in strict alternation, one popped node per
    turn; a side with an empty frontier passes.  A popped node the other
    side has seen is returned at once; otherwise its unseen parents are
    recorded one level deeper and appended to the frontier.  The search ends
    without an ancestor when both frontiers are exhausted.  [turns] bounds
    the number of turns ([None]: the bound was reached). *)
Record Side := mkSide {
  seen : gmap string nat;
  frontier : list (string * nat)
}.

Definition enqueue_unseen (depth : nat) (side : Side) (parent : string) : Side :=
  if decide (parent ∈ dom (seen side)) then side
  else mkSide (<[parent := S depth]> (seen side))
              (frontier side ++ [(parent, S depth)])%list.

Definition expand (d : gmap string string) (side : Side)
    (current : string) (depth : nat) (rest : list (string * nat)) : Side :=
  match lookup_commit d current with
  | Ok c => foldl (enqueue_unseen depth) (mkSide (seen side) rest) (getParentHashes c)
  | Throw _ => mkSide (seen side) rest
  end.

Fixpoint alternate (turns : nat) (d : gmap string string) (me other : Side)
    : option (option string) :=
  match frontier me, frontier other with
  | [], [] => Some None
  | _, _ =>
      match turns with
      | 0 => None
      | S turns' =>
          match frontier me with
          | [] => alternate turns' d other me
          | (current, depth) :: rest =>
              if decide (current ∈ dom (seen other)) then Some (Some current)
              else alternate turns' d other (expand d me current depth rest)
          end
      end
  end.

Definition findCommonAncestor_spec (turns : nat) (d : gmap string string)
    (a b : string) : option (option string) :=
  alternate turns d (mkSide {[a := 0]} [(a, 0)]) (mkSide {[b := 0]} [(b, 0)]).

(** The ancestor snapshot [merge] works from: the synthetic empty commit
    when the search finds nothing, the commit found otherwise. *)
Definition lookup_merge_base (d : gmap string string)
    (currentHash targetHash : string) : res CommitNode :=
  let lcaHash := findLCA_on d currentHash targetHash in
  if str_empty lcaHash then Ok CommitNode_default else lookup_commit d lcaHash.

(** *** Merge *)

(** The body of the loop over [allFiles].  The local variables it updates
    are [conflictsExist] and [mergedFiles]; both are dropped when the body
    throws. *)
Definition merge_file (branchName : string)
    (lcaFiles targetFiles : gmap string string) (file : string)
    (acc : bool * gmap string string) : M (bool * gmap string string) :=
  let conflictsExist := acc.1 in
  let mergedFiles := acc.2 in
  let lcaBlob := default "" (lcaFiles !! file) in
  let currentBlob := default "" (mergedFiles !! file) in
  let targetBlob := default "" (targetFiles !! file) in
  if str_empty lcaBlob && str_empty currentBlob then
    print ("Taking new file from branch '" +:+ branchName +:+ "': " +:+ file +:+ nl);;
    content ← getBlobContent targetBlob;
    writeToFile file content;;
    mret (conflictsExist, <[file:=targetBlob]> mergedFiles)
  else if negb (str_empty lcaBlob) && bool_decide (currentBlob = lcaBlob)
          && negb (bool_decide (targetBlob = lcaBlob)) then
    print ("Taking changes from branch '" +:+ branchName +:+ "' for: " +:+ file +:+ nl);;
    content ← getBlobContent targetBlob;
    writeToFile file content;;
    mret (conflictsExist, <[file:=targetBlob]> mergedFiles)
  else if negb (str_empty lcaBlob) && negb (bool_decide (currentBlob = lcaBlob))
          && negb (bool_decide (targetBlob = lcaBlob))
          && negb (bool_decide (currentBlob = targetBlob)) then
    print ("CONFLICT (content): " +:+ file +:+ " modified in both branches" +:+ nl);;
    currentContent ← getBlobContent currentBlob;
    targetContent ← getBlobContent targetBlob;
    let conflictContent :=
      "<<<<<<< HEAD" +:+ nl +:+ currentContent +:+
      "=======" +:+ nl +:+ targetContent +:+
      ">>>>>>> " +:+ branchName +:+ nl in
    writeToFile file conflictContent;;
    mret (true, mergedFiles)
  else if negb (str_empty lcaBlob) && negb (str_empty currentBlob)
          && str_empty targetBlob then
    if bool_decide (lcaBlob = currentBlob) then
      print ("Removing file deleted in branch '" +:+ branchName +:+ "': " +:+ file +:+ nl);;
      fs_remove file;;
      mret (conflictsExist, delete file mergedFiles)
    else
      print ("CONFLICT (delete/modify): " +:+ file +:+ " was deleted in branch '" +:+
             branchName +:+ "' but modified in current branch" +:+ nl);;
      mret (true, mergedFiles)
  else mret (conflictsExist, mergedFiles).

(** The set [allFiles] of the three commits, in iteration order. *)
Definition allFiles (currentFiles targetFiles lcaFiles : gmap string string) : list string :=
  set_in_order (dom currentFiles ∪ dom targetFiles ∪ dom lcaFiles).

(** The last part of [merge], reached when no conflict was flagged. *)
Definition merge_commit (branchName currentHash targetHash : string)
    (mergedFiles : gmap string string) : M MergeResult :=
  let parents := [currentHash; targetHash] in
  let mergeCommit :=
    CommitNode_new ("Merge branch '" +:+ branchName +:+ "'") parents mergedFiles in
  let commitPath := OBJECTS_DIR +:+ "/" +:+ getHash mergeCommit in
  ok ← writeToFile commitPath (serialize mergeCommit);
  if negb ok then throw (runtime_error "Failed to create merge commit") else
  updateHead (getHash mergeCommit) true "master";;
  print ("Merge successful. New commit: " +:+ short_hash (getHash mergeCommit) +:+ nl);;
  mret (Merged (getHash mergeCommit)).

(** The part of [merge] after the three commits are loaded. *)
Definition merge_commits (branchName currentHash targetHash : string)
    (currentCommit targetCommit lcaCommit : CommitNode) : M MergeResult :=
  let lcaFiles := getFileBlobs lcaCommit in
  let targetFiles := getFileBlobs targetCommit in
  acc ← for_fold (allFiles (getFileBlobs currentCommit) targetFiles lcaFiles)
                 (merge_file branchName lcaFiles targetFiles)
                 (false, getFileBlobs currentCommit);
  if (acc : bool * gmap string string).1 then
    print ("Merge conflicts detected. Resolve them and commit the result." +:+ nl);;
    mret Conflicted
  else merge_commit branchName currentHash targetHash acc.2.

Definition merge (branchName : string) : M MergeResult :=
  currentHash ← getHeadCommitHash;
  if str_empty currentHash then throw (runtime_error "No commits to merge from") else
  let branchPath := HEADS_DIR +:+ "/" +:+ branchName in
  r ← readFromFile branchPath;
  match r with
  | None => throw (runtime_error ("Branch not found: " +:+ branchName))
  | Some targetHash =>
      if bool_decide (currentHash = targetHash) then
        print ("Already up to date" +:+ nl);; mret AlreadyUpToDate
      else
        lcaHash ← findLCA currentHash targetHash;
        print ("Merging branch '" +:+ branchName +:+ "' (" +:+ short_hash targetHash +:+
               ") into current branch (" +:+ short_hash currentHash +:+ ")" +:+ nl);;
        currentCommit ← loadCommit currentHash;
        targetCommit ← loadCommit targetHash;
        lcaCommit ← (if str_empty lcaHash then mret CommitNode_default
                     else loadCommit lcaHash);
        merge_commits branchName currentHash targetHash
                      currentCommit targetCommit lcaCommit
  end.

(** *** Diff printing *)

(** [v[i]] for an index the loop has checked to be in range. *)
Definition line_at (v : list string) (i : nat) : string := default "" (v !! i).

(** [i < v.size()]. *)
Definition in_range (v : list string) (i : nat) : bool := Nat.ltb i (length v).

(** The [while] loop of [printDiff] over the two cursors, appending to the
    text printed so far; [fuel] bounds the number of iterations. *)
Fixpoint printDiff_loop (fuel : nat) (oldLines newLines : list string)
    (i j : nat) (out : string) : option string :=
  if negb (in_range oldLines i || in_range newLines j) then Some out else
  match fuel with
  | 0 => None
  | S fuel' =>
      if in_range oldLines i && in_range newLines j
         && bool_decide (line_at oldLines i = line_at newLines j) then
        printDiff_loop fuel' oldLines newLines (S i) (S j)
                       (out +:+ "  " +:+ line_at oldLines i +:+ nl)
      else
        let out1 := if in_range oldLines i
                    then out +:+ "- " +:+ line_at oldLines i +:+ nl else out in
        let i1 := if in_range oldLines i then S i else i in
        let out2 := if in_range newLines j
                    then out1 +:+ "+ " +:+ line_at newLines j +:+ nl else out1 in
        let j1 := if in_range newLines j then S j else j in
        printDiff_loop fuel' oldLines newLines i1 j1 out2
  end.

(** Everything [printDiff] sends to [cout].  Each iteration advances a
    cursor, so the number of lines bounds the number of iterations. *)
Definition printDiff_text (oldContent newContent filename : string) : option string :=
  let oldLines := getlines oldContent in
  let newLines := getlines newContent in
  let header := if negb (str_empty filename)
                then "--- a/" +:+ filename +:+ nl +:+ "+++ b/" +:+ filename +:+ nl
                else "" in
  out ← printDiff_loop (length oldLines + length newLines) oldLines newLines 0 0 header;
  Some (out +:+ nl).

Definition printDiff (oldContent newContent filename : string) : M unit :=
  print (default "" (printDiff_text oldContent newContent filename)).


(** *** History listing *)

(** What [log] prints for one commit. *)
Definition log_entry (c : CommitNode) : string :=
  "commit " +:+ getHash c +:+ nl +:+
  "Date: " +:+ getTimestamp c +:+ nl +:+
  nl +:+ "    " +:+ getMessage c +:+ nl +:+ nl.

(** The [while] loop of [log], with a bound on the number of iterations; the
    result is [false] when the bound was reached before the loop ended. *)
Fixpoint log_loop (fuel : nat) (currentHash : string) : M bool :=
  if str_empty currentHash then mret true else
  match fuel with
  | 0 => mret false
  | S fuel' =>
      c ← loadCommit currentHash;
      print (log_entry c);;
      match getParentHashes c with
      | [] => mret true
      | parent :: _ => log_loop fuel' parent
      end
  end.

Definition log (fuel : nat) : M bool :=
  currentHash ← getHeadCommitHash;
  if str_empty currentHash then print ("No commits yet" +:+ nl);; mret true
  else log_loop fuel currentHash.

(** *** Diff of two snapshots *)

Definition getWorkingDirectoryFileContent (filename : string) : M string :=
  r ← readFromFile filename; mret (default "" r).

(** The map [files2] that [diff] builds from the working directory: every
    file whose relative path does not begin with the name of the repository
    directory, with the digest of its content.  The files the directory
    iterator yields are the paths of the disk. *)
Definition working_snapshot (d : gmap string string) : gmap string string :=
  calculateHash <$> filter (λ kv : string * string, starts_with MINIGIT_DIR kv.1 = false) d.

(** The body of the loop of [diff] over [allFiles]. *)
Definition diff_file (compareWD : bool) (files1 files2 : gmap string string)
    (file : string) : M unit :=
  match files1 !! file, files2 !! file with
  | None, Some blob2 =>
      print ("+++ Added: " +:+ file +:+ nl);;
      content ← (if compareWD then getWorkingDirectoryFileContent file
                 else getBlobContent blob2);
      printDiff "" content file
  | Some blob1, None =>
      print ("--- Removed: " +:+ file +:+ nl);;
      content ← getBlobContent blob1;
      printDiff content "" file
  | Some blob1, Some blob2 =>
      if bool_decide (blob1 = blob2) then mret tt else
      print ("*** Modified: " +:+ file +:+ nl);;
      oldContent ← getBlobContent blob1;
      newContent ← (if compareWD then getWorkingDirectoryFileContent file
                    else getBlobContent blob2);
      printDiff oldContent newContent file
  | None, None => mret tt
  end.

Definition diff (commit1_hash commit2_hash : string) : M unit :=
  let compareWD := str_empty commit2_hash in
  hash1 ← (if str_empty commit1_hash then getHeadCommitHash else mret commit1_hash);
  if str_empty hash1 then print ("No commits to compare" +:+ nl) else
  commit1 ← loadCommit hash1;
  let files1 := getFileBlobs commit1 in
  files2 ← (if compareWD then
              d ← get_disk;
              print ("Comparing working directory against commit " +:+
                     short_hash hash1 +:+ ":" +:+ nl);;
              mret (working_snapshot d)
            else
              commit2 ← loadCommit commit2_hash;
              print ("Comparing commit " +:+ short_hash hash1 +:+ " with " +:+
                     short_hash commit2_hash +:+ ":" +:+ nl);;
              mret (getFileBlobs commit2));
  for_each (set_in_order (dom files1 ∪ dom files2)) (diff_file compareWD files1 files2).

(** The commits along the first parents from a digest, newest first, as far
    as [log] follows them: it stops at a commit without parents and at an
    empty digest. *)
Inductive first_parent_chain (d : gmap string string) : string → list CommitNode → Prop :=
| chain_end : first_parent_chain d "" []
| chain_root h c :
    h ≠ "" → lookup_commit d h = Ok c → getParentHashes c = [] →
    first_parent_chain d h [c]
| chain_step h c parent others cs :
    h ≠ "" → lookup_commit d h = Ok c → getParentHashes c = parent :: others →
    first_parent_chain d parent cs →
    first_parent_chain d h (c :: cs).

(** The text of a sequence of printed pieces. *)
Definition concat_text (pieces : list string) : string :=
  foldr String.append "" pieces.

(** *** Further definitions used in the statements *)

(** The line of the index file for one staged entry. *)
Definition index_line (entry : string * string) : string :=
  entry.1 +:+ " " +:+ entry.2.

(** Names that survive the index file: a path without blank and line feed,
    a digest without line feed. *)
Definition index_safe (s : gmap string string) : Prop :=
  ∀ file hash, s !! file = Some hash →
    has_char " " file = false ∧ has_char LF file = false ∧ has_char LF hash = false.

(** The digest HEAD resolves to, as a function of the disk. *)
Definition head_hash (d : gmap string string) : string :=
  match d !! HEAD_FILE with
  | None => ""
  | Some headContent =>
      if starts_with "ref: " headContent
      then default "" (d !! (MINIGIT_DIR +:+ "/" +:+ drop_chars 5 headContent))
      else headContent
  end.

(** The two tests of the loop of [merge] under which it takes the blob of
    the target for a path, on the digests of the path in the three
    snapshots. *)
Definition takes_target (lcaBlob currentBlob targetBlob : string) : bool :=
  str_empty lcaBlob && str_empty currentBlob
  || negb (str_empty lcaBlob) && bool_decide (currentBlob = lcaBlob)
     && negb (bool_decide (targetBlob = lcaBlob)).

(** Two facts the loop of [findLCA] keeps true.  A digest a side has seen
    is still in its queue, or its commit has been expanded: the parents of
    the commit, if it loads, have been seen by this side.  And a digest both
    sides have seen is still in one of the queues. *)
Definition pending_or_expanded (d : gmap string string)
    (visited : gmap string nat) (q : list (string * nat)) : Prop :=
  ∀ k, k ∈ dom visited →
       k ∈ q.*1 ∨ ∀ c p, lookup_commit d k = Ok c → p ∈ getParentHashes c →
                         p ∈ dom visited.

Definition common_pending (visited1 visited2 : gmap string nat)
    (q1 q2 : list (string * nat)) : Prop :=
  ∀ k, k ∈ dom visited1 → k ∈ dom visited2 → k ∈ q1.*1 ∨ k ∈ q2.*1.

(** The lines of a text, each ended by a line feed. *)
Definition unlines (lines : list string) : string :=
  foldr (λ line rest, line +:+ nl +:+ rest) "" lines.

(** The line diff in closed form: the lines at equal positions are compared
    pairwise, and the lines of the longer text beyond the length of the
    shorter one follow, removed or added. *)
Definition positional_diff (oldLines newLines : list string) : list DiffLine :=
  (zip oldLines newLines ≫=
     λ on : string * string,
       if bool_decide (on.1 = on.2) then [ContextLine on.1]
       else [RemovedLine on.1; AddedLine on.2])
  ++ (RemovedLine <$> drop (length newLines) oldLines)
  ++ (AddedLine <$> drop (length oldLines) newLines).

(** ** Properties *)

(** Drops the parameters of the section a statement does not mention. *)
Ltac drop_vars :=
  try clear calculateHash; try clear commit_digest; try clear serialize;
  try clear deserialize; try clear now; try clear writable;
  try clear iteration_order_entries; try clear iteration_order.
Ltac drop_order :=
  try clear iteration_order_entries; try clear iteration_order.

(** *** Strings *)

Lemma append_nil_r (s : string) : s +:+ "" = s.
Proof. induction s as [|c s IH]; [done|]. change (String c (s +:+ "") = String c s). by rewrite IH. Qed.

Lemma append_assoc (s t u : string) : (s +:+ t) +:+ u = s +:+ t +:+ u.
Proof.
  induction s as [|c s IH]; [done|].
  change (String c ((s +:+ t) +:+ u) = String c (s +:+ t +:+ u)). by rewrite IH.
Qed.

(** *** Paths of the repository layout *)

Ltac path_neq := let H := fresh in intros H; cbv in H; discriminate H.

Lemma object_path_ne_index h : object_path h ≠ INDEX_FILE.
Proof. path_neq. Qed.
Lemma object_path_ne_head h : object_path h ≠ HEAD_FILE.
Proof. path_neq. Qed.
Lemma object_path_ne_branch h b : object_path h ≠ branch_path b.
Proof. path_neq. Qed.
Lemma branch_path_ne_index b : branch_path b ≠ INDEX_FILE.
Proof. path_neq. Qed.
Lemma branch_path_ne_head b : branch_path b ≠ HEAD_FILE.
Proof. path_neq. Qed.
Lemma head_ne_index : HEAD_FILE ≠ INDEX_FILE.
Proof. path_neq. Qed.
Lemma branch_path_inj b b' : branch_path b = branch_path b' → b = b'.
Proof. intros H. cbv in H. by simplify_eq. Qed.
Lemma object_path_inj h h' : object_path h = object_path h' → h = h'.
Proof. intros H. cbv in H. by simplify_eq. Qed.

(** *** The diff walk *)

Lemma in_range_lookup (v : list string) (i : nat) :
  in_range v i = true ↔ is_Some (v !! i).
Proof.
  unfold in_range. rewrite Nat.ltb_lt. symmetry. apply lookup_lt_is_Some.
Qed.

Lemma in_range_Some (v : list string) i l : v !! i = Some l → in_range v i = true.
Proof. intros H. apply in_range_lookup. eauto. Qed.

Lemma in_range_None (v : list string) i : v !! i = None → in_range v i = false.
Proof.
  intros H. destruct (in_range v i) eqn:E; [|done].
  apply in_range_lookup in E as [x Hx]. congruence.
Qed.

Lemma line_at_Some (v : list string) i l : v !! i = Some l → line_at v i = l.
Proof. unfold line_at. by intros ->. Qed.

Lemma greedy_walk_det oldLines newLines i j ls1 ls2 :
  greedy_walk oldLines newLines i j ls1 →
  greedy_walk oldLines newLines i j ls2 → ls1 = ls2.
Proof.
  intros Hw1. revert ls2.
  induction Hw1; intros ls2 Hw2; inversion Hw2; subst; simplify_eq;
    try done; f_equal; eauto; f_equal; eauto.
Qed.

(** The loop prints the rendering of the walk from its cursors, whenever
    the bound covers the lines that remain. *)
Lemma printDiff_loop_walk oldLines newLines fuel : ∀ i j out,
  ((length oldLines - i) + (length newLines - j) ≤ fuel)%nat →
  ∃ ls, greedy_walk oldLines newLines i j ls ∧
        printDiff_loop fuel oldLines newLines i j out = Some (out +:+ render ls).
Proof.
  induction fuel as [|fuel IH]; intros i j out Hfuel.
  - exists []. split.
    + constructor; apply lookup_ge_None; lia.
    + simpl. rewrite !in_range_None by (apply lookup_ge_None; lia).
      simpl. by rewrite append_nil_r.
  - destruct (oldLines !! i) as [o|] eqn:Ho; destruct (newLines !! j) as [n|] eqn:Hn.
    + pose proof (lookup_lt_Some _ _ _ Ho). pose proof (lookup_lt_Some _ _ _ Hn).
      simpl. rewrite (in_range_Some _ _ _ Ho), (in_range_Some _ _ _ Hn).
      rewrite (line_at_Some _ _ _ Ho), (line_at_Some _ _ _ Hn). simpl.
      case_bool_decide as Heq.
      * subst n. destruct (IH (S i) (S j) (out +:+ "  " +:+ o +:+ nl)) as (ls & Hw & ->); [lia|].
        exists (ContextLine o :: ls). split; [by econstructor|].
        simpl. unfold render_line. by rewrite !append_assoc.
      * destruct (IH (S i) (S j) ((out +:+ "- " +:+ o +:+ nl) +:+ "+ " +:+ n +:+ nl))
          as (ls & Hw & ->); [lia|].
        exists (RemovedLine o :: AddedLine n :: ls). split; [by econstructor|].
        simpl. unfold render_line. by rewrite !append_assoc.
    + pose proof (lookup_lt_Some _ _ _ Ho).
      simpl. rewrite (in_range_Some _ _ _ Ho), (in_range_None _ _ Hn).
      rewrite (line_at_Some _ _ _ Ho). simpl.
      destruct (IH (S i) j (out +:+ "- " +:+ o +:+ nl)) as (ls & Hw & ->); [lia|].
      exists (RemovedLine o :: ls). split; [by econstructor|].
      simpl. unfold render_line. by rewrite !append_assoc.
    + pose proof (lookup_lt_Some _ _ _ Hn).
      simpl. rewrite (in_range_None _ _ Ho), (in_range_Some _ _ _ Hn).
      rewrite (line_at_Some _ _ _ Hn). simpl.
      destruct (IH i (S j) (out +:+ "+ " +:+ n +:+ nl)) as (ls & Hw & ->); [lia|].
      exists (AddedLine n :: ls). split; [by econstructor|].
      simpl. unfold render_line. by rewrite !append_assoc.
    + exists []. split; [by constructor|].
      simpl. rewrite (in_range_None _ _ Ho), (in_range_None _ _ Hn).
      simpl. by rewrite append_nil_r.
Qed.

(** C5.  For all old and new contents, what [printDiff] prints is the
    rendering of the greedy two-cursor walk over the line-split texts:
    a context line when both cursors are in range on equal lines, otherwise
    a removed line for the old cursor and then an added line for the new
    cursor, each if in range, until both cursors are exhausted.  The walk
    is unique, the stream is preceded by the two-line header exactly when a
    file name is supplied, and it is followed by one empty line. *)
Theorem printDiff_is_greedy_walk (oldContent newContent filename : string) (st : Repo) :
  ∃ ls : list DiffLine,
    greedy_walk (getlines oldContent) (getlines newContent) 0 0 ls
    ∧ (∀ ls', greedy_walk (getlines oldContent) (getlines newContent) 0 0 ls' → ls' = ls)
    ∧ printDiff oldContent newContent filename st =
        (mkRepo (disk st) (stagingArea st)
                (cout st +:+ (if str_empty filename then "" else diff_header filename)
                         +:+ render ls +:+ nl),
         Ok tt).
Proof.
  set (oldLines := getlines oldContent). set (newLines := getlines newContent).
  destruct (printDiff_loop_walk oldLines newLines (length oldLines + length newLines) 0 0
              (if str_empty filename then "" else diff_header filename))
    as (ls & Hwalk & Hloop); [lia|].
  exists ls. split; [done|]. split.
  { intros ls' Hls'. eapply greedy_walk_det; eauto. }
  unfold printDiff, printDiff_text, print.
  fold oldLines newLines.
  assert ((if negb (str_empty filename)
           then "--- a/" +:+ filename +:+ nl +:+ "+++ b/" +:+ filename +:+ nl
           else "") = (if str_empty filename then "" else diff_header filename)) as ->.
  { by destruct (str_empty filename). }
  rewrite Hloop. simpl. by rewrite !append_assoc.
Qed.

(** *** Commands that only read *)

Ltac mg_unfold :=
  cbv beta iota zeta delta
    [mbind M_bind bind mret M_ret ret throw try_catch
     get_disk get_staging set_staging iterate_staging print fileExists readFromFile
     fs_remove loadCommit].
Tactic Notation "mg_unfold" "in" hyp(H) :=
  cbv beta iota zeta delta
    [mbind M_bind bind mret M_ret ret throw try_catch
     get_disk get_staging set_staging iterate_staging print fileExists readFromFile
     fs_remove loadCommit] in H.

Lemma getHeadCommitHash_reads (st : Repo) :
  getHeadCommitHash st = (st, (getHeadCommitHash st).2).
Proof.
  unfold getHeadCommitHash. mg_unfold.
  destruct (disk st !! HEAD_FILE) as [headContent|]; [|done].
  by destruct (starts_with "ref: " headContent).
Qed.

Lemma getHeadCommitHash_Ok (st : Repo) : ∃ h, getHeadCommitHash st = (st, Ok h).
Proof.
  unfold getHeadCommitHash. mg_unfold.
  destruct (disk st !! HEAD_FILE) as [headContent|]; [|eauto].
  destruct (starts_with "ref: " headContent); eauto.
Qed.

Lemma str_empty_true (s : string) : str_empty s = true ↔ s = "".
Proof. by destruct s. Qed.

Lemma str_empty_false (s : string) : str_empty s = false ↔ s ≠ "".
Proof. by destruct s. Qed.

(** C10.  In every repository state, [commit] with an empty staging map
    changes nothing: no object is written, HEAD, the branch references and
    the index file keep their contents (the whole disk is the same), and
    the staging map stays as it is.  Only the notice is printed. *)
Theorem commit_nothing_staged_noop (message : string) (st : Repo) :
  stagingArea st = ∅ →
  commit message st =
    (mkRepo (disk st) (stagingArea st) (cout st +:+ "Nothing to commit" +:+ nl), Ok tt).
Proof.
  intros Hempty. unfold commit. mg_unfold.
  by rewrite bool_decide_eq_true_2.
Qed.

(** C6.  When the current tip and the tip of the named branch are the same
    digest, [merge] performs no write: the disk (objects, working files,
    references) and the staging map are unchanged.  For a tip that is a
    commit digest (not the empty text of a branch without commits) it
    reports that the branch is already up to date. *)
Theorem merge_equal_tips_no_writes (branchName tip : string) (st : Repo) :
  (getHeadCommitHash st).2 = Ok tip →
  disk st !! branch_path branchName = Some tip →
  disk (merge branchName st).1 = disk st
  ∧ stagingArea (merge branchName st).1 = stagingArea st
  ∧ (tip ≠ "" →
     merge branchName st =
       (mkRepo (disk st) (stagingArea st) (cout st +:+ "Already up to date" +:+ nl),
        Ok AlreadyUpToDate)).
Proof.
  intros Hhead Hbranch.
  assert (merge branchName st =
          if str_empty tip
          then (st, Throw (runtime_error "No commits to merge from"))
          else (mkRepo (disk st) (stagingArea st)
                       (cout st +:+ "Already up to date" +:+ nl),
                Ok AlreadyUpToDate)) as ->.
  { unfold merge. mg_unfold.
    rewrite getHeadCommitHash_reads, Hhead.
    destruct (str_empty tip); [done|].
    unfold branch_path in Hbranch. rewrite Hbranch.
    by rewrite bool_decide_eq_true_2. }
  destruct (str_empty tip) eqn:Htip; [|done].
  apply str_empty_true in Htip. by repeat split.
Qed.

(** *** The object store under [add] *)

(** What [add] does to a file with content [c], by whether the blob is
    already stored and whether the two writes succeed. *)
Lemma add_unfold (filename c : string) (st : Repo) :
  disk st !! filename = Some c →
  add filename st =
    let hash := calculateHash c in
    let staged := <[filename:=hash]> (stagingArea st) in
    let store (d : gmap string string) :=
      if writable INDEX_FILE
      then (mkRepo (<[INDEX_FILE:=index_text
                                    (iteration_order (mkRepo d staged (cout st)))]> d)
                   staged
                   (cout st +:+ "Added " +:+ filename +:+ " to staging area" +:+ nl),
            Ok tt)
      else (mkRepo d staged (cout st), Throw (runtime_error "Failed to save index")) in
    match disk st !! object_path hash with
    | Some _ => store (disk st)
    | None =>
        if writable (object_path hash)
        then store (<[object_path hash:=c]> (disk st))
        else (st, Throw (runtime_error "Failed to store blob"))
    end.
Proof.
  intros Hfile. unfold add, saveIndex, writeToFile. mg_unfold.
  rewrite Hfile. rewrite bool_decide_eq_true_2 by eauto. simpl.
  rewrite Hfile. fold (object_path (calculateHash c)).
  destruct (disk st !! object_path (calculateHash c)) as [c'|] eqn:Hblob.
  - rewrite bool_decide_eq_true_2 by eauto. simpl.
    by destruct (writable INDEX_FILE).
  - rewrite bool_decide_eq_false_2 by (by intros [? ?]). simpl.
    destruct (writable (object_path (calculateHash c))); [|done]. simpl.
    by destruct (writable INDEX_FILE).
Qed.

(** C7.  For every content [c], a successful [add] of a file holding [c]
    stages the digest [calculateHash c], and reading the object store at
    that digest gives back exactly [c]; adding the same content again
    succeeds with the same digest and leaves every object of the store as
    it was.  The digest function is taken to be free of collisions, and the
    slot of [calculateHash c], if occupied beforehand, to hold an object of
    that digest. *)
Theorem add_content_addressed (filename c : string) (st st' : Repo) :
  (∀ x y, calculateHash x = calculateHash y → x = y) →
  (∀ c', disk st !! object_path (calculateHash c) = Some c' →
         calculateHash c' = calculateHash c) →
  disk st !! filename = Some c →
  add filename st = (st', Ok tt) →
  stagingArea st' !! filename = Some (calculateHash c)
  ∧ getBlobContent (calculateHash c) st' = (st', Ok c)
  ∧ ∀ filename2, disk st' !! filename2 = Some c →
      ∃ st'', add filename2 st' = (st'', Ok tt)
        ∧ stagingArea st'' !! filename2 = Some (calculateHash c)
        ∧ ∀ h, disk st'' !! object_path h = disk st' !! object_path h.
Proof.
  intros Hinj Hslot Hfile Hadd.
  rewrite (add_unfold _ _ _ Hfile) in Hadd. cbv zeta in Hadd.
  assert (writable INDEX_FILE = true
          ∧ stagingArea st' = <[filename:=calculateHash c]> (stagingArea st)
          ∧ disk st' !! object_path (calculateHash c) = Some c) as (Hw & Hstaged & Hblob).
  { destruct (disk st !! object_path (calculateHash c)) as [c'|] eqn:Hold.
    - destruct (writable INDEX_FILE); [|done]. simplify_eq. simpl.
      split_and!; [done..|].
      rewrite lookup_insert_ne by (apply not_eq_sym, object_path_ne_index).
      rewrite Hold. f_equal. apply Hinj. by apply Hslot.
    - destruct (writable (object_path (calculateHash c))); [|done].
      destruct (writable INDEX_FILE); [|done]. simplify_eq. simpl.
      split_and!; [done..|].
      rewrite lookup_insert_ne by (apply not_eq_sym, object_path_ne_index).
      by rewrite lookup_insert_eq. }
  split; [by rewrite Hstaged, lookup_insert_eq|]. split.
  { unfold getBlobContent. mg_unfold. fold (object_path (calculateHash c)).
    by rewrite Hblob. }
  intros filename2 Hfile2.
  rewrite (add_unfold _ _ _ Hfile2). cbv zeta. rewrite Hblob, Hw.
  eexists. split; [done|]. simpl. split; [by rewrite lookup_insert_eq|].
  intros h. by rewrite lookup_insert_ne by (apply not_eq_sym, object_path_ne_index).
Qed.

(** *** The classification loop of [merge] *)

Ltac mg_unfold_all :=
  cbv beta iota zeta delta
    [mbind M_bind bind mret M_ret ret throw try_catch
     get_disk get_staging set_staging iterate_staging print fileExists readFromFile
     fs_remove loadCommit getBlobContent writeToFile fst snd].

(** A path the table classifies as a conflict reaches the third test of
    the loop body, whose guard it satisfies. *)
Lemma conflict_guard (a c t : string) :
  is_conflict (classify a c t) = true →
  str_empty a = false ∧ bool_decide (c = a) = false
  ∧ bool_decide (t = a) = false ∧ bool_decide (c = t) = false.
Proof.
  unfold classify. intros Hc.
  repeat case_bool_decide; simpl in Hc; try discriminate Hc;
    rewrite ?str_empty_false; destruct_and?; split_and?; congruence.
Qed.

(** One iteration writes no path but its own file, keeps the staging map,
    never lowers the conflict flag, raises it on a path the table classifies
    as a conflict, and changes [mergedFiles] at its own file only. *)
Lemma merge_file_step branchName lcaFiles targetFiles file flag mergedFiles st st' r :
  merge_file branchName lcaFiles targetFiles file (flag, mergedFiles) st = (st', r) →
  stagingArea st' = stagingArea st
  ∧ (∀ p, p ≠ file → disk st' !! p = disk st !! p)
  ∧ match r with
    | Ok (flag', mergedFiles') =>
        (flag = true → flag' = true)
        ∧ (is_conflict (classify (blob_of lcaFiles file) (blob_of mergedFiles file)
                                 (blob_of targetFiles file)) = true → flag' = true)
        ∧ (∀ k, k ≠ file → mergedFiles' !! k = mergedFiles !! k)
    | Throw _ => True
    end.
Proof.
  unfold merge_file. cbn [fst snd]. fold (blob_of lcaFiles file).
  fold (blob_of mergedFiles file). fold (blob_of targetFiles file).
  generalize (blob_of lcaFiles file) (blob_of mergedFiles file) (blob_of targetFiles file).
  intros a c t Hstep.
  assert (Hconf := conflict_guard a c t).
  revert Hconf. generalize (is_conflict (classify a c t)). intros conf Hconf.
  destruct (str_empty a && str_empty c) eqn:E1.
  { revert Hstep. mg_unfold_all. intros Hstep.
    apply andb_true_iff in E1 as [E1 _].
    repeat (case_match; simplify_eq/=); split_and!; try done;
      try (intros; by rewrite lookup_insert_ne); intros Hc; apply Hconf in Hc as (? & ? & ? & ?); congruence. }
  destruct (negb (str_empty a) && bool_decide (c = a) && negb (bool_decide (t = a))) eqn:E2.
  { revert Hstep. mg_unfold_all. intros Hstep.
    apply andb_true_iff in E2 as [E2 _]. apply andb_true_iff in E2 as [_ E2].
    repeat (case_match; simplify_eq/=); split_and!; try done;
      try (intros; by rewrite lookup_insert_ne); intros Hc; apply Hconf in Hc as (? & ? & ? & ?); congruence. }
  destruct (negb (str_empty a) && negb (bool_decide (c = a))
            && negb (bool_decide (t = a)) && negb (bool_decide (c = t))) eqn:E3.
  { revert Hstep. mg_unfold_all. intros Hstep.
    repeat (case_match; simplify_eq/=); split_and!; try done;
      try (intros; by rewrite lookup_insert_ne). }
  assert (conf = true → False) as Hno.
  { intros Hc. apply Hconf in Hc as (H1 & H2 & H3 & H4).
    rewrite H1, H2, H3, H4 in E3. done. }
  destruct (negb (str_empty a) && negb (str_empty c) && str_empty t) eqn:E4.
  { revert Hstep. mg_unfold_all. intros Hstep.
    repeat (case_match; simplify_eq/=); split_and!; try done;
      try (intros; by rewrite lookup_delete_ne). }
  revert Hstep. mg_unfold_all. intros Hstep. simplify_eq/=. by split_and!.
Qed.

Lemma for_fold_cons {A B} (x : A) (xs : list A) (body : A → B → M B) (acc : B) (st : Repo) :
  for_fold (x :: xs) body acc st =
    match body x acc st with
    | (st1, Ok acc1) => for_fold xs body acc1 st1
    | (st1, Throw e) => (st1, Throw e)
    end.
Proof. reflexivity. Qed.

(** The whole loop: it writes tracked paths only, keeps the staging map,
    and ends with the flag raised if it was raised before or if one of its
    paths is classified as a conflict. *)
Lemma merge_loop_step branchName lcaFiles targetFiles files :
  ∀ flag mergedFiles st st' r,
  NoDup files →
  for_fold files (merge_file branchName lcaFiles targetFiles) (flag, mergedFiles) st
    = (st', r) →
  stagingArea st' = stagingArea st
  ∧ (∀ p, p ∉ files → disk st' !! p = disk st !! p)
  ∧ match r with
    | Ok (flag', mergedFiles') =>
        (flag = true → flag' = true)
        ∧ (∀ f, f ∈ files →
                is_conflict (classify (blob_of lcaFiles f) (blob_of mergedFiles f)
                                      (blob_of targetFiles f)) = true →
                flag' = true)
        ∧ (∀ k, k ∉ files → mergedFiles' !! k = mergedFiles !! k)
    | Throw _ => True
    end.
Proof.
  induction files as [|file files IH]; intros flag mergedFiles st st' r Hnodup Hloop.
  - cbv in Hloop. simplify_eq. split_and!; try done.
    intros f Hf. by apply elem_of_nil in Hf.
  - apply NoDup_cons in Hnodup as [Hfresh Hnodup].
    rewrite for_fold_cons in Hloop.
    destruct (merge_file branchName lcaFiles targetFiles file (flag, mergedFiles) st)
      as [st1 r1] eqn:Hstep.
    apply merge_file_step in Hstep as (Hstage1 & Hdisk1 & Hr1).
    destruct r1 as [[flag1 merged1]|e].
    + destruct Hr1 as (Hflag1 & Hconf1 & Hmerged1).
      apply IH in Hloop as (Hstage & Hdisk & Hr); [|done].
      split; [congruence|]. split.
      { intros p Hp. apply not_elem_of_cons in Hp as [? ?].
        rewrite Hdisk by done. by apply Hdisk1. }
      destruct r as [[flag' merged']|e]; [|done].
      destruct Hr as (Hflag & Hconf & Hmerged). split_and!.
      * auto.
      * intros f Hf Hc. apply elem_of_cons in Hf as [->|Hf]; [auto|].
        apply (Hconf f Hf). unfold blob_of in *.
        rewrite Hmerged1; [done|]. intros ->. done.
      * intros k Hk. apply not_elem_of_cons in Hk as [? ?].
        rewrite Hmerged by done. by apply Hmerged1.
    + simplify_eq. split; [done|]. split; [|done].
      intros p Hp. apply not_elem_of_cons in Hp as [? ?]. by apply Hdisk1.
Qed.

Lemma allFiles_NoDup currentFiles targetFiles lcaFiles :
  NoDup (allFiles currentFiles targetFiles lcaFiles).
Proof.
  unfold allFiles, set_in_order.
  rewrite merge_sort_Permutation. apply NoDup_elements.
Qed.

Lemma elem_of_allFiles currentFiles targetFiles lcaFiles f :
  f ∈ allFiles currentFiles targetFiles lcaFiles ↔
  f ∈ dom currentFiles ∨ f ∈ dom targetFiles ∨ f ∈ dom lcaFiles.
Proof. drop_vars.
  unfold allFiles, set_in_order.
  rewrite merge_sort_Permutation, elem_of_elements. set_solver.
Qed.

(** On the rows of the table that do not name a deleted target, the loop
    body does what the table says: it takes the target blob and writes the
    file, or writes the conflict text and raises the flag, or leaves
    everything as it is.  A blob that is not in the object store ends the
    merge with [Blob not found]. *)
Lemma merge_file_follows_table branchName lcaFiles targetFiles file flag mergedFiles st :
  blob_of lcaFiles file ≠ "" ∨ blob_of mergedFiles file ≠ ""
    ∨ blob_of targetFiles file ≠ "" →
  match classify (blob_of lcaFiles file) (blob_of mergedFiles file)
                 (blob_of targetFiles file) with
  | TakeTarget =>
      ∃ msg,
        merge_file branchName lcaFiles targetFiles file (flag, mergedFiles) st =
          match disk st !! object_path (blob_of targetFiles file) with
          | None =>
              (mkRepo (disk st) (stagingArea st) (cout st +:+ msg),
               Throw (runtime_error ("Blob not found: " +:+ blob_of targetFiles file)))
          | Some content =>
              (mkRepo (if writable file then <[file:=content]> (disk st) else disk st)
                      (stagingArea st) (cout st +:+ msg),
               Ok (flag, <[file:=blob_of targetFiles file]> mergedFiles))
          end
  | ContentConflict =>
      ∃ msg,
        merge_file branchName lcaFiles targetFiles file (flag, mergedFiles) st =
          match disk st !! object_path (blob_of mergedFiles file),
                disk st !! object_path (blob_of targetFiles file) with
          | Some currentContent, Some targetContent =>
              (mkRepo (if writable file
                       then <[file:=conflict_text currentContent targetContent branchName]>
                              (disk st)
                       else disk st)
                      (stagingArea st) (cout st +:+ msg),
               Ok (true, mergedFiles))
          | None, _ =>
              (mkRepo (disk st) (stagingArea st) (cout st +:+ msg),
               Throw (runtime_error ("Blob not found: " +:+ blob_of mergedFiles file)))
          | Some _, None =>
              (mkRepo (disk st) (stagingArea st) (cout st +:+ msg),
               Throw (runtime_error ("Blob not found: " +:+ blob_of targetFiles file)))
          end
  | KeepCurrent =>
      merge_file branchName lcaFiles targetFiles file (flag, mergedFiles) st
        = (st, Ok (flag, mergedFiles))
  | DeleteFile | DeleteModifyConflict => True
  end.
Proof. drop_vars.
  unfold merge_file, classify, conflict_text. cbn [fst snd].
  fold (blob_of lcaFiles file) (blob_of mergedFiles file) (blob_of targetFiles file).
  generalize (blob_of lcaFiles file) (blob_of mergedFiles file) (blob_of targetFiles file).
  intros a c t Hpresent.
  case_bool_decide as R1.
  { destruct R1 as (-> & -> & Ht). cbn [str_empty andb].
    mg_unfold_all. cbn [disk stagingArea cout]. fold (object_path t).
    eexists. destruct (disk st !! object_path t); [|done].
    by destruct (writable file). }
  case_bool_decide as R4; [done|]. case_bool_decide as R5; [done|].
  case_bool_decide as R2.
  { destruct R2 as (Ha & -> & Hta). apply str_empty_false in Ha as Ea. rewrite Ea.
    rewrite (bool_decide_eq_true_2 (a = a)) by done.
    rewrite (bool_decide_eq_false_2 (t = a)) by done. cbn [andb negb].
    mg_unfold_all. cbn [disk stagingArea cout]. fold (object_path t).
    eexists. destruct (disk st !! object_path t); [|done].
    by destruct (writable file). }
  case_bool_decide as R3.
  { destruct R3 as (Ha & Hca & Hta & Hct). apply str_empty_false in Ha as Ea. rewrite Ea.
    rewrite (bool_decide_eq_false_2 (c = a)) by done.
    rewrite (bool_decide_eq_false_2 (t = a)) by done.
    rewrite (bool_decide_eq_false_2 (c = t)) by done. cbn [andb negb].
    mg_unfold_all. cbn [disk stagingArea cout]. fold (object_path c) (object_path t).
    eexists. destruct (disk st !! object_path c); [|done].
    cbn [disk stagingArea cout].
    destruct (disk st !! object_path t); [|done].
    by destruct (writable file). }
  destruct (str_empty a && str_empty c) eqn:G1.
  { apply andb_true_iff in G1 as [Ea Ec].
    apply str_empty_true in Ea, Ec. exfalso. apply R1. naive_solver. }
  destruct (negb (str_empty a) && bool_decide (c = a) && negb (bool_decide (t = a))) eqn:G2.
  { exfalso. apply R2.
    apply andb_true_iff in G2 as [G2 Hta]. apply andb_true_iff in G2 as [Ha Hca].
    apply negb_true_iff, str_empty_false in Ha.
    apply bool_decide_eq_true_1 in Hca.
    apply negb_true_iff, bool_decide_eq_false_1 in Hta. done. }
  destruct (negb (str_empty a) && negb (bool_decide (c = a))
            && negb (bool_decide (t = a)) && negb (bool_decide (c = t))) eqn:G3.
  { exfalso. apply R3.
    apply andb_true_iff in G3 as [G3 Hct]. apply andb_true_iff in G3 as [G3 Hta].
    apply andb_true_iff in G3 as [Ha Hca].
    apply negb_true_iff, str_empty_false in Ha.
    apply negb_true_iff, bool_decide_eq_false_1 in Hca, Hta, Hct. done. }
  destruct (negb (str_empty a) && negb (str_empty c) && str_empty t) eqn:G4; [|done].
  exfalso.
  apply andb_true_iff in G4 as [G4 Et]. apply andb_true_iff in G4 as [Ha Hc].
  apply negb_true_iff, str_empty_false in Ha, Hc. apply str_empty_true in Et.
  destruct (decide (a = c)); [apply R4|apply R5]; done.
Qed.

(** The guard of the fourth branch of the loop body, the one that holds the
    deletion and the delete/modify conflict, implies the guard of the second
    or of the third branch, which are tested before it: the fourth branch
    never runs. *)
Lemma delete_branch_shadowed (a c t : string) :
  negb (str_empty a) && negb (str_empty c) && str_empty t = true →
  negb (str_empty a) && bool_decide (c = a) && negb (bool_decide (t = a)) = true
  ∨ negb (str_empty a) && negb (bool_decide (c = a))
    && negb (bool_decide (t = a)) && negb (bool_decide (c = t)) = true.
Proof. drop_vars.
  intros G4.
  apply andb_true_iff in G4 as [G4 Et]. apply andb_true_iff in G4 as [Ha Hc].
  rewrite Ha. apply negb_true_iff, str_empty_false in Ha, Hc.
  apply str_empty_true in Et. subst t.
  rewrite (bool_decide_eq_false_2 ("" = a)) by done.
  rewrite (bool_decide_eq_false_2 (c = "")) by done.
  destruct (bool_decide (c = a)); [by left|by right].
Qed.

(** *** Reference updates *)

Lemma updateHead_branch_Ok (commitHash branchName : string) (st st' : Repo) :
  updateHead commitHash true branchName st = (st', Ok tt) →
  st' = mkRepo (<[HEAD_FILE:="ref: refs/heads/" +:+ branchName]>
                  (<[branch_path branchName:=commitHash]> (disk st)))
               (stagingArea st) (cout st).
Proof.
  unfold updateHead. mg_unfold_all. fold (branch_path branchName).
  destruct (writable (branch_path branchName)); simpl; [|done].
  destruct (writable HEAD_FILE); simpl; [|done].
  by intros [= <-].
Qed.

(** The last part of [merge], when it succeeds: the object is stored, then
    the reference named [master] and HEAD are written. *)
Lemma merge_commit_Ok branchName currentHash targetHash mergedFiles st st' r :
  merge_commit branchName currentHash targetHash mergedFiles st = (st', Ok r) →
  let c := CommitNode_new ("Merge branch '" +:+ branchName +:+ "'")
                          [currentHash; targetHash] mergedFiles in
  r = Merged (getHash c)
  ∧ disk st' = <[HEAD_FILE:="ref: refs/heads/master"]>
                 (<[branch_path "master":=getHash c]>
                    (<[object_path (getHash c):=serialize c]> (disk st)))
  ∧ stagingArea st' = stagingArea st.
Proof.
  unfold merge_commit, updateHead. cbv zeta.
  set (c := CommitNode_new _ _ _).
  mg_unfold_all. fold (object_path (getHash c)) (branch_path "master").
  destruct (writable (object_path (getHash c))); cbn [negb]; [|done].
  destruct (writable (branch_path "master")); cbn [negb]; [|done].
  destruct (writable HEAD_FILE); cbn [negb]; [|done].
  by intros [= <- <-].
Qed.

(** [merge] up to the point where the three commits are loaded. *)
Lemma merge_unfold branchName st currentHash targetHash
    currentCommit targetCommit lcaCommit :
  (getHeadCommitHash st).2 = Ok currentHash →
  currentHash ≠ "" →
  disk st !! branch_path branchName = Some targetHash →
  currentHash ≠ targetHash →
  lookup_commit (disk st) currentHash = Ok currentCommit →
  lookup_commit (disk st) targetHash = Ok targetCommit →
  lookup_merge_base (disk st) currentHash targetHash = Ok lcaCommit →
  ∃ out, merge branchName st =
           merge_commits branchName currentHash targetHash
                         currentCommit targetCommit lcaCommit
                         (mkRepo (disk st) (stagingArea st) out).
Proof.
  intros Hhead Hne Hbranch Hdiff Hcur Htgt Hlca.
  unfold merge, findLCA. mg_unfold.
  rewrite getHeadCommitHash_reads, Hhead.
  apply str_empty_false in Hne. rewrite Hne.
  unfold branch_path in Hbranch. rewrite Hbranch.
  rewrite bool_decide_eq_false_2 by done. simpl.
  rewrite Hcur, Htgt. unfold lookup_merge_base in Hlca. cbv zeta in Hlca.
  destruct (str_empty (findLCA_on (disk st) currentHash targetHash)).
  - simplify_eq. eauto.
  - simpl. rewrite Hlca. eauto.
Qed.

(** Conversely, a merge that produced a commit went through all of it. *)
Lemma merge_Merged_inv branchName st st' digest :
  merge branchName st = (st', Ok (Merged digest)) →
  ∃ currentHash targetHash currentCommit targetCommit lcaCommit out,
    lookup_commit (disk st) currentHash = Ok currentCommit
    ∧ lookup_commit (disk st) targetHash = Ok targetCommit
    ∧ lookup_merge_base (disk st) currentHash targetHash = Ok lcaCommit
    ∧ merge_commits branchName currentHash targetHash
                    currentCommit targetCommit lcaCommit
                    (mkRepo (disk st) (stagingArea st) out) = (st', Ok (Merged digest)).
Proof.
  unfold merge, findLCA. mg_unfold.
  rewrite getHeadCommitHash_reads.
  destruct (getHeadCommitHash st).2 as [currentHash|e]; [|done].
  destruct (str_empty currentHash); [done|].
  destruct (disk st !! (HEADS_DIR +:+ "/" +:+ branchName)) as [targetHash|]; [|done].
  case_bool_decide; [done|]. simpl.
  destruct (lookup_commit (disk st) currentHash) as [currentCommit|] eqn:Hcur; [|done].
  destruct (lookup_commit (disk st) targetHash) as [targetCommit|] eqn:Htgt; [|done].
  unfold lookup_merge_base. cbv zeta.
  destruct (str_empty (findLCA_on (disk st) currentHash targetHash)) eqn:Hfound.
  - intros Hm.
    exists currentHash, targetHash, currentCommit, targetCommit, CommitNode_default.
    eexists. split_and!; [done|done|by rewrite Hfound|exact Hm].
  - simpl.
    destruct (lookup_commit (disk st) (findLCA_on (disk st) currentHash targetHash))
      as [lcaCommit|] eqn:Hlca; [|done].
    intros Hm.
    exists currentHash, targetHash, currentCommit, targetCommit, lcaCommit.
    eexists. split_and!; [done|done|by rewrite Hfound|exact Hm].
Qed.

(** C2.  When a path of the three snapshots is classified as a conflict
    (content conflict or delete/modify conflict), [merge] ends after the
    classification loop, reporting the conflict or the exception the loop
    raised: it never reaches the part that writes the merge commit and the
    references.  The staging map is unchanged and the only paths whose
    content may differ afterwards are the tracked paths of the three
    snapshots; the object store, the branch references and HEAD hold what
    they held. *)
Theorem merge_conflict_no_commit branchName st st' r
    currentHash targetHash currentCommit targetCommit lcaCommit f :
  (getHeadCommitHash st).2 = Ok currentHash →
  currentHash ≠ "" →
  disk st !! branch_path branchName = Some targetHash →
  currentHash ≠ targetHash →
  lookup_commit (disk st) currentHash = Ok currentCommit →
  lookup_commit (disk st) targetHash = Ok targetCommit →
  lookup_merge_base (disk st) currentHash targetHash = Ok lcaCommit →
  is_conflict (classify (blob_of (getFileBlobs lcaCommit) f)
                        (blob_of (getFileBlobs currentCommit) f)
                        (blob_of (getFileBlobs targetCommit) f)) = true →
  merge branchName st = (st', r) →
  (r = Ok Conflicted ∨ ∃ e, r = Throw e)
  ∧ stagingArea st' = stagingArea st
  ∧ ∀ p, p ∉ allFiles (getFileBlobs currentCommit) (getFileBlobs targetCommit)
                       (getFileBlobs lcaCommit) →
         disk st' !! p = disk st !! p.
Proof.
  intros Hhead Hne Hbranch Hdiff Hcur Htgt Hlca Hconflict Hmerge.
  destruct (merge_unfold branchName st _ _ _ _ _ Hhead Hne Hbranch Hdiff Hcur Htgt Hlca)
    as [out Heq].
  rewrite Heq in Hmerge. clear Heq.
  unfold merge_commits in Hmerge. cbv zeta in Hmerge.
  unfold mbind at 1, M_bind at 1, bind at 1 in Hmerge.
  destruct (for_fold _ _ _ _) as [st1 r1] eqn:Hloop.
  apply merge_loop_step in Hloop as (Hstage & Hdisk & Hr1);
    [|apply allFiles_NoDup].
  destruct r1 as [[flag merged]|e]; [|simplify_eq; eauto].
  destruct Hr1 as (_ & Hflag & _).
  assert (flag = true) as ->.
  { apply (Hflag f); [|done]. apply elem_of_allFiles. right. right.
    apply conflict_guard in Hconflict as (Hlcablob & _).
    apply elem_of_dom. unfold blob_of in Hlcablob.
    by destruct (getFileBlobs lcaCommit !! f). }
  revert Hmerge. cbn [fst]. mg_unfold. intros [= <- <-]. eauto.
Qed.

(** C3.  A merge that produces a commit writes its digest into the
    reference of the branch named [master] and makes HEAD point at
    [master], whatever branch HEAD pointed at before.  When HEAD pointed at
    another branch [b], the reference of [b] is not advanced: it holds what
    it held (the reference file of [b] being no tracked path of a stored
    commit). *)
Theorem merge_advances_master_not_current b branchName st st' digest :
  disk st !! HEAD_FILE = Some ("ref: refs/heads/" +:+ b) →
  b ≠ "master" →
  (∀ h c, lookup_commit (disk st) h = Ok c → branch_path b ∉ dom (getFileBlobs c)) →
  merge branchName st = (st', Ok (Merged digest)) →
  disk st' !! branch_path "master" = Some digest
  ∧ disk st' !! HEAD_FILE = Some "ref: refs/heads/master"
  ∧ disk st' !! branch_path b = disk st !! branch_path b.
Proof.
  intros _ Hb Huntracked Hmerge.
  apply merge_Merged_inv in Hmerge
    as (currentHash & targetHash & cur & tgt & lca & out & Hcur & Htgt & Hlca & Hmerge).
  unfold merge_commits in Hmerge. cbv zeta in Hmerge.
  unfold mbind at 1, M_bind at 1, bind at 1 in Hmerge.
  destruct (for_fold _ _ _ _) as [st1 r1] eqn:Hloop.
  apply merge_loop_step in Hloop as (Hstage & Hdisk & Hr1);
    [|apply allFiles_NoDup].
  destruct r1 as [[flag merged]|e]; [|done].
  cbn [fst snd] in Hmerge. destruct flag.
  { revert Hmerge. mg_unfold. done. }
  apply merge_commit_Ok in Hmerge as (Hdigest & Hdisk' & _).
  cbv zeta in Hdigest, Hdisk'. injection Hdigest as ->.
  rewrite Hdisk'. split_and!.
  - rewrite lookup_insert_ne by (apply not_eq_sym, branch_path_ne_head).
    by rewrite lookup_insert_eq.
  - by rewrite lookup_insert_eq.
  - rewrite lookup_insert_ne by (apply not_eq_sym, branch_path_ne_head).
    rewrite lookup_insert_ne by (intros Heq; apply branch_path_inj in Heq; done).
    rewrite lookup_insert_ne by apply object_path_ne_branch.
    apply (Hdisk (branch_path b)). rewrite elem_of_allFiles. simpl.
    intros [Hin|[Hin|Hin]].
    + by apply (Huntracked _ _ Hcur).
    + by apply (Huntracked _ _ Htgt).
    + unfold lookup_merge_base in Hlca. cbv zeta in Hlca.
      destruct (str_empty (findLCA_on (disk st) currentHash targetHash)).
      * by simplify_eq.
      * by apply (Huntracked _ _ Hlca).
Qed.

(** The same for [commit]: a successful commit stores the new commit,
    writes its digest into the reference named [master], points HEAD at
    [master], and empties the staging map in memory and on disk. *)
Lemma commit_Ok message st st' parentHash :
  stagingArea st ≠ ∅ →
  (getHeadCommitHash st).2 = Ok parentHash →
  commit message st = (st', Ok tt) →
  let c := CommitNode_new message (if str_empty parentHash then [] else [parentHash])
                          (stagingArea st) in
  let d := <[HEAD_FILE:="ref: refs/heads/master"]>
             (<[branch_path "master":=getHash c]>
                (<[object_path (getHash c):=serialize c]> (disk st))) in
  disk st' = <[INDEX_FILE:=index_text (iteration_order (mkRepo d ∅ (cout st)))]> d
  ∧ stagingArea st' = ∅.
Proof.
  intros Hstaged Hhead. unfold commit, updateHead, saveIndex. mg_unfold_all.
  rewrite bool_decide_eq_false_2 by done.
  rewrite getHeadCommitHash_reads, Hhead. cbv zeta.
  set (c := CommitNode_new _ _ _).
  fold (object_path (getHash c)) (branch_path "master").
  destruct (writable (object_path (getHash c))); cbn [negb]; [|done].
  destruct (writable (branch_path "master")); cbn [negb]; [|done].
  destruct (writable HEAD_FILE); cbn [negb]; [|done].
  destruct (writable INDEX_FILE); cbn [negb]; [|done].
  by intros [= <-].
Qed.

Lemma commit_advances_master_not_current b message st st' parentHash :
  b ≠ "master" →
  stagingArea st ≠ ∅ →
  (getHeadCommitHash st).2 = Ok parentHash →
  commit message st = (st', Ok tt) →
  (∃ digest, disk st' !! branch_path "master" = Some digest
             ∧ is_Some (disk st' !! object_path digest))
  ∧ disk st' !! HEAD_FILE = Some "ref: refs/heads/master"
  ∧ disk st' !! branch_path b = disk st !! branch_path b.
Proof.
  intros Hb Hstaged Hhead Hcommit.
  apply (commit_Ok _ _ _ _ Hstaged Hhead) in Hcommit as [Hdisk _].
  cbv zeta in Hdisk. rewrite Hdisk. split_and!.
  - eexists. split.
    + rewrite lookup_insert_ne by (apply not_eq_sym, branch_path_ne_index).
      rewrite lookup_insert_ne by (apply not_eq_sym, branch_path_ne_head).
      by rewrite lookup_insert_eq.
    + rewrite lookup_insert_ne by (apply not_eq_sym, object_path_ne_index).
      rewrite lookup_insert_ne by (apply not_eq_sym, object_path_ne_head).
      rewrite lookup_insert_ne by (apply not_eq_sym, object_path_ne_branch).
      rewrite lookup_insert_eq. eauto.
  - rewrite lookup_insert_ne by (apply not_eq_sym, head_ne_index).
    by rewrite lookup_insert_eq.
  - rewrite lookup_insert_ne by (apply not_eq_sym, branch_path_ne_index).
    rewrite lookup_insert_ne by (apply not_eq_sym, branch_path_ne_head).
    rewrite lookup_insert_ne by (intros Heq; apply branch_path_inj in Heq; done).
    by rewrite lookup_insert_ne by apply object_path_ne_branch.
Qed.

(** *** The staging map and its index file *)

Lemma MiniGit_new_staging (d : gmap string string) :
  stagingArea (MiniGit_new d) =
    match d !! INDEX_FILE with
    | Some content => foldl parse_index_line ∅ (getlines content)
    | None => ∅
    end.
Proof.
  unfold MiniGit_new, loadIndex. mg_unfold. simpl.
  by destruct (d !! INDEX_FILE).
Qed.

(** Over an empty staging map the loop of [saveIndex] yields nothing. *)
Lemma iteration_order_empty (st : Repo) :
  stagingArea st = ∅ → iteration_order st = [].
Proof using iteration_order_entries.
  intros Hempty. apply Permutation_nil_r.
  by rewrite iteration_order_entries, Hempty, map_to_list_empty.
Qed.

(** A successful commit empties the staging map in memory and on disk, and
    the next invocation loads an empty map. *)
Lemma commit_clears_staging message st st' :
  stagingArea st ≠ ∅ →
  commit message st = (st', Ok tt) →
  stagingArea st' = ∅
  ∧ disk st' !! INDEX_FILE = Some ""
  ∧ stagingArea (MiniGit_new (disk st')) = ∅.
Proof using iteration_order_entries.
  intros Hstaged Hcommit.
  destruct (getHeadCommitHash_Ok st) as [parentHash Hhead].
  assert ((getHeadCommitHash st).2 = Ok parentHash) as Hhead2 by (by rewrite Hhead).
  pose proof (commit_Ok _ _ _ _ Hstaged Hhead2 Hcommit) as Hok.
  cbv zeta in Hok. destruct Hok as [Hdisk Hstage]. split; [done|].
  assert (disk st' !! INDEX_FILE = Some "") as Hindex.
  { rewrite Hdisk, lookup_insert_eq. by rewrite iteration_order_empty. }
  split; [done|]. by rewrite MiniGit_new_staging, Hindex.
Qed.

Lemma resolve_target_reads target st : (resolve_target target st).1 = st.
Proof.
  unfold resolve_target. mg_unfold.
  case_bool_decide; simpl.
  - by destruct (disk st !! (HEADS_DIR +:+ "/" +:+ target)).
  - by destruct (lookup_commit (disk st) target).
Qed.

Lemma restore_files_frame (entries : list (string * string)) :
  ∀ st st' r,
  for_each entries restore_file st = (st', r) →
  stagingArea st' = stagingArea st
  ∧ ∀ p, p ∉ entries.*1 → disk st' !! p = disk st !! p.
Proof.
  induction entries as [|[file hash] entries IH]; intros st st' r Hloop.
  - cbv in Hloop. by simplify_eq.
  - simpl in Hloop. unfold mbind at 1, M_bind at 1, bind at 1 in Hloop.
    destruct (restore_file (file, hash) st) as [st1 r1] eqn:Hfile.
    assert (stagingArea st1 = stagingArea st
            ∧ ∀ p, p ≠ file → disk st1 !! p = disk st !! p) as [Hs1 Hd1].
    { revert Hfile. unfold restore_file. mg_unfold_all.
      repeat (case_match; simplify_eq/=); intros; simplify_eq/=;
        split; try done; intros; by rewrite lookup_insert_ne. }
    destruct r1 as [[]|e].
    + apply IH in Hloop as [Hs Hd]. split; [congruence|].
      intros p Hp. rewrite fmap_cons in Hp. apply not_elem_of_cons in Hp as [? ?].
      rewrite Hd by done. by apply Hd1.
    + simplify_eq. split; [done|].
      intros p Hp. rewrite fmap_cons in Hp. apply not_elem_of_cons in Hp as [? ?].
      by apply Hd1.
Qed.

(** C8.  [checkout] empties the staging map in memory only: it does not
    rewrite the index file, which keeps its content, so the next invocation
    loads from it the staging map that was persisted before the checkout
    (the index file being no tracked path of a stored commit). *)
Theorem checkout_keeps_index_file target st st' :
  (∀ h c, lookup_commit (disk st) h = Ok c → INDEX_FILE ∉ dom (getFileBlobs c)) →
  checkout target st = (st', Ok tt) →
  stagingArea st' = ∅
  ∧ disk st' !! INDEX_FILE = disk st !! INDEX_FILE
  ∧ stagingArea (MiniGit_new (disk st')) = stagingArea (MiniGit_new (disk st)).
Proof.
  intros Huntracked Hcheckout.
  assert (stagingArea st' = ∅ ∧ disk st' !! INDEX_FILE = disk st !! INDEX_FILE)
    as [Hstage Hindex].
  { revert Hcheckout. unfold checkout.
    unfold mbind at 1, M_bind at 1, bind at 1.
    pose proof (resolve_target_reads target st) as Hreads.
    destruct (resolve_target target st) as [st0 [[targetHash isBranch]|e]]; [|done].
    simpl in Hreads. subst st0. cbn [fst snd].
    unfold mbind at 1, M_bind at 1, bind at 1. unfold loadCommit at 1.
    destruct (lookup_commit (disk st) targetHash) as [c|e] eqn:Hc; [|done].
    unfold mbind at 1, M_bind at 1, bind at 1.
    destruct (for_each _ _ _) as [st1 r1] eqn:Hloop.
    apply restore_files_frame in Hloop as [Hs1 Hd1].
    destruct r1 as [[]|e]; [|done].
    assert (disk st1 !! INDEX_FILE = disk st !! INDEX_FILE) as <-.
    { apply Hd1. intros Hin. apply (Huntracked _ _ Hc).
      apply list_elem_of_fmap in Hin as ([file hash] & -> & Hin).
      apply elem_of_map_to_list in Hin. apply elem_of_dom. eauto. }
    unfold updateHead. mg_unfold_all.
    destruct isBranch.
    - fold (branch_path target).
      destruct (writable (branch_path target)); cbn [negb]; [|done].
      destruct (writable HEAD_FILE); cbn [negb]; [|done].
      intros [= <-]. simpl. split; [done|].
      rewrite lookup_insert_ne by apply head_ne_index.
      by rewrite lookup_insert_ne by apply branch_path_ne_index.
    - destruct (writable HEAD_FILE); cbn [negb]; [|done].
      intros [= <-]. simpl. split; [done|].
      by rewrite lookup_insert_ne by apply head_ne_index. }
  split; [done|]. split; [done|].
  by rewrite !MiniGit_new_staging, Hindex.
Qed.

(** *** The deletion rows of the merge table *)

(** C1.  On a path whose blob is the same in the ancestor and in the
    current snapshot and which the target snapshot does not hold, the loop
    body takes its second branch, the one for a change made by the target:
    it looks up the blob of the empty digest, and either raises
    [Blob not found] or writes that content to the file and records the
    empty digest for the path.  The path is not removed from [mergedFiles]
    and the working file is not removed, unlike the deletion row of the
    table asks. *)
Theorem merge_file_deleted_in_target branchName lcaFiles targetFiles file x
    flag mergedFiles st :
  lcaFiles !! file = Some x →
  mergedFiles !! file = Some x →
  x ≠ "" →
  targetFiles !! file = None →
  classify (blob_of lcaFiles file) (blob_of mergedFiles file) (blob_of targetFiles file)
    = DeleteFile
  ∧ merge_file branchName lcaFiles targetFiles file (flag, mergedFiles) st =
      let out := cout st +:+ "Taking changes from branch '" +:+ branchName
                         +:+ "' for: " +:+ file +:+ nl in
      match disk st !! object_path "" with
      | None =>
          (mkRepo (disk st) (stagingArea st) out,
           Throw (runtime_error "Blob not found: "))
      | Some content =>
          (mkRepo (if writable file then <[file:=content]> (disk st) else disk st)
                  (stagingArea st) out,
           Ok (flag, <[file:=""]> mergedFiles))
      end.
Proof. drop_vars.
  intros Hlca Hcur Hx Htgt. unfold classify, blob_of, merge_file. cbn [fst snd].
  rewrite Hlca, Hcur, Htgt. simpl. split.
  - rewrite bool_decide_eq_false_2 by naive_solver.
    by rewrite bool_decide_eq_true_2 by naive_solver.
  - apply str_empty_false in Hx as Hx'. rewrite Hx'. simpl.
    rewrite bool_decide_eq_true_2 by done.
    rewrite bool_decide_eq_false_2 by done. simpl.
    mg_unfold_all. fold (object_path ""). cbn [disk stagingArea cout].
    destruct (disk st !! object_path ""); [|done].
    by destruct (writable file).
Qed.

(** *** The common ancestor search *)

Lemma push_parent_seen depth v q parent :
  push_parent depth (v, q) parent =
    if decide (parent ∈ dom v) then (v, q)
    else (<[parent := S depth]> v, (q ++ [(parent, S depth)])%list).
Proof.
  unfold push_parent. cbn [fst snd].
  destruct (decide (parent ∈ dom v)) as [Hin|Hin].
  - apply elem_of_dom in Hin. by rewrite bool_decide_eq_true_2.
  - rewrite bool_decide_eq_false_2; [done|]. by rewrite <-elem_of_dom.
Qed.

(** The two ways of writing the expansion agree. *)
Lemma push_parents_enqueue depth parents : ∀ v q,
  foldl (push_parent depth) (v, q) parents =
    (seen (foldl (enqueue_unseen depth) (mkSide v q) parents),
     frontier (foldl (enqueue_unseen depth) (mkSide v q) parents)).
Proof.
  induction parents as [|p parents IH]; intros v q; [done|].
  simpl. rewrite push_parent_seen. unfold enqueue_unseen at 2 4. simpl.
  destruct (decide (p ∈ dom v)); apply IH.
Qed.

Lemma side_step_turn d mine other q :
  side_step d mine other q =
    match q with
    | [] => inr (mine, q)
    | (current, depth) :: rest =>
        if decide (current ∈ dom other) then inl current
        else inr (seen (expand d (mkSide mine q) current depth rest),
                  frontier (expand d (mkSide mine q) current depth rest))
    end.
Proof.
  destruct q as [|[current depth] rest]; [done|]. simpl.
  destruct (decide (current ∈ dom other)) as [Hin|Hin].
  - apply elem_of_dom in Hin. by rewrite bool_decide_eq_true_2.
  - rewrite bool_decide_eq_false_2 by (by rewrite <-elem_of_dom).
    unfold expand. destruct (lookup_commit d current); [|done].
    simpl. by rewrite push_parents_enqueue.
Qed.

Lemma Side_eta (s : Side) : mkSide (seen s) (frontier s) = s.
Proof. by destruct s. Qed.

Lemma alternate_exhausted turns d me other :
  frontier me = [] → frontier other = [] → alternate turns d me other = Some None.
Proof. intros Hme Hother. destruct turns; simpl; by rewrite Hme, Hother. Qed.

(** More turns do not change the outcome of a search that has ended. *)
Lemma alternate_mono d turns : ∀ turns' me other res,
  alternate turns d me other = Some res →
  (turns ≤ turns')%nat →
  alternate turns' d me other = Some res.
Proof.
  induction turns as [|turns IH]; intros turns' me other res Hres Hle.
  - cbn [alternate] in Hres.
    destruct (frontier me) eqn:Hme; [|done].
    destruct (frontier other) eqn:Hother; [|done].
    injection Hres as <-. by apply alternate_exhausted.
  - destruct turns' as [|turns']; [lia|].
    cbn [alternate] in *.
    destruct (frontier me) as [|[current depth] rest] eqn:Hme.
    + destruct (frontier other) eqn:Hother; [done|]. apply IH; [done|lia].
    + destruct (decide (current ∈ dom (seen other))); [done|].
      apply IH; [|lia].
      by destruct (frontier other).
Qed.

(** A round of the loop is two turns of the alternation. *)
Lemma findLCA_loop_alternate d fuel : ∀ v1 v2 q1 q2,
  findLCA_loop fuel d v1 v2 q1 q2 =
    default "" <$> alternate (2 * fuel) d (mkSide v1 q1) (mkSide v2 q2).
Proof.
  induction fuel as [|fuel IH]; intros v1 v2 q1 q2.
  - by destruct q1, q2.
  - replace (2 * S fuel)%nat with (S (S (2 * fuel))) by lia.
    cbn [findLCA_loop]. rewrite side_step_turn.
    destruct q1 as [|[c1 d1] q1'].
    + destruct q2 as [|[c2 d2] q2']; [done|].
      rewrite side_step_turn. cbn [alternate frontier seen].
      destruct (decide (c2 ∈ dom v1)); [done|].
      rewrite IH. by rewrite Side_eta.
    + cbn [alternate frontier seen].
      destruct (decide (c1 ∈ dom v2)); [done|].
      set (me := expand d (mkSide v1 ((c1, d1) :: q1')) c1 d1 q1').
      rewrite side_step_turn.
      destruct q2 as [|[c2 d2] q2'].
      * rewrite IH, Side_eta.
        destruct (frontier me) eqn:Hf; [|done].
        by rewrite alternate_exhausted.
      * cbn [alternate frontier seen].
        destruct (decide (c2 ∈ dom (seen me))); [done|].
        by rewrite IH, !Side_eta.
Qed.

Lemma lookup_commit_stored d h c p :
  lookup_commit d h = Ok c → p ∈ getParentHashes c → p ∈ stored_parents d.
Proof.
  unfold lookup_commit, stored_parents. intros Hload Hp.
  destruct (d !! (OBJECTS_DIR +:+ "/" +:+ h)) as [content|] eqn:Hcontent; [|done].
  destruct (deserialize content) as [c'|] eqn:Hdes; [|done]. simplify_eq.
  apply list_elem_of_bind. exists (OBJECTS_DIR +:+ "/" +:+ h, content). split.
  - simpl. by rewrite Hdes.
  - by apply elem_of_map_to_list.
Qed.

Lemma size_list_to_set_le (l : list string) :
  (size (list_to_set l : gset string) ≤ length l)%nat.
Proof. drop_order.
  induction l as [|x l IH].
  - by rewrite list_to_set_nil, size_empty.
  - rewrite list_to_set_cons, size_union_alt, size_singleton. simpl.
    assert (size (list_to_set l ∖ {[x]} : gset string) ≤ size (list_to_set l : gset string))%nat.
    { apply subseteq_size. set_solver. }
    lia.
Qed.

(** An invariant of the keys seen and queued that the parents of a loaded
    commit satisfy is kept by the expansion. *)
Lemma push_parents_inv (P : string → Prop) depth parents : ∀ v q,
  (∀ p, p ∈ parents → P p) →
  (∀ k, k ∈ dom v → P k) →
  (∀ x, x ∈ q → P x.1) →
  (∀ k, k ∈ dom (foldl (push_parent depth) (v, q) parents).1 → P k)
  ∧ (∀ x, x ∈ (foldl (push_parent depth) (v, q) parents).2 → P x.1).
Proof.
  induction parents as [|p parents IH]; intros v q Hps Hv Hq; [done|].
  simpl. rewrite push_parent_seen.
  destruct (decide (p ∈ dom v)).
  - apply IH; [|done..]. intros. apply Hps. by right.
  - apply IH.
    + intros. apply Hps. by right.
    + intros k. rewrite dom_insert_L, elem_of_union, elem_of_singleton.
      intros [->|?]; [|auto]. apply Hps. by left.
    + intros x. rewrite elem_of_app, list_elem_of_singleton.
      intros [?| ->]; [auto|]. simpl. apply Hps. by left.
Qed.

(** What the expansion queues are parents. *)
Lemma push_parents_queued depth parents : ∀ v q x,
  x ∈ (foldl (push_parent depth) (v, q) parents).2 → x ∈ q ∨ x.1 ∈ parents.
Proof.
  induction parents as [|p parents IH]; intros v q x; [by left|].
  simpl. rewrite push_parent_seen.
  destruct (decide (p ∈ dom v)); intros Hx; apply IH in Hx as [Hx|Hx].
  - by left.
  - right. by right.
  - apply elem_of_app in Hx as [?|Hx]; [by left|].
    apply list_elem_of_singleton in Hx as ->. right. by left.
  - right. by right.
Qed.

(** The expansion only adds to the seen set. *)
Lemma push_parents_grows depth parents : ∀ v q,
  dom v ⊆ dom (foldl (push_parent depth) (v, q) parents).1.
Proof. drop_vars.
  induction parents as [|p parents IH]; intros v q; [done|].
  simpl. rewrite push_parent_seen.
  destruct (decide (p ∈ dom v)); [apply IH|].
  etrans; [|apply IH]. rewrite dom_insert_L. set_solver.
Qed.

(** Each queued digest leaves the set of digests not yet seen, so the
    expansion keeps the measure of its side. *)
Lemma push_parents_measure (U : gset string) depth parents : ∀ v q,
  (∀ p, p ∈ parents → p ∈ U) →
  side_measure U (foldl (push_parent depth) (v, q) parents).1
                 (foldl (push_parent depth) (v, q) parents).2
    = side_measure U v q.
Proof. drop_vars.
  induction parents as [|p parents IH]; intros v q Hps; [done|].
  simpl. rewrite push_parent_seen.
  assert (∀ p', p' ∈ parents → p' ∈ U) as Hps' by (intros; apply Hps; by right).
  destruct (decide (p ∈ dom v)) as [Hin|Hin]; [by apply IH|].
  rewrite IH by done. unfold side_measure.
  rewrite dom_insert_L, length_app. simpl.
  assert (U ∖ dom v = {[p]} ∪ U ∖ ({[p]} ∪ dom v)) as ->.
  { assert (p ∈ U) by (apply Hps; by left).
    apply set_eq. intros k. rewrite elem_of_union, !elem_of_difference,
      elem_of_union, elem_of_singleton.
    destruct (decide (k = p)) as [->|]; naive_solver. }
  rewrite (size_union (C:=gset string) {[p]} (U ∖ ({[p]} ∪ dom v))) by set_solver.
  rewrite size_singleton. lia.
Qed.

(** A block that returns a digest returns the front of its queue, which
    the other side has seen. *)
Lemma side_step_found d mine other q found :
  side_step d mine other q = inl found →
  (∃ depth rest, q = (found, depth) :: rest) ∧ found ∈ dom other.
Proof.
  destruct q as [|[current depth] rest]; [done|]. simpl.
  case_bool_decide as Hseen; [|by destruct (lookup_commit d current)].
  intros [= <-]. split; [eauto|]. by apply elem_of_dom.
Qed.

(** A block that goes on keeps every invariant of its side that holds for
    the parents of the popped commit. *)
Lemma side_step_inv (P : string → Prop) d mine other q mine' q' :
  (∀ h c p, P h → lookup_commit d h = Ok c → p ∈ getParentHashes c → P p) →
  (∀ k, k ∈ dom mine → P k) →
  (∀ x, x ∈ q → P x.1) →
  side_step d mine other q = inr (mine', q') →
  (∀ k, k ∈ dom mine' → P k) ∧ (∀ x, x ∈ q' → P x.1).
Proof.
  intros Hclosed Hmine Hq.
  destruct q as [|[current depth] rest]; [by intros [= <- <-]|]. simpl.
  case_bool_decide; [done|].
  assert (∀ x, x ∈ rest → P x.1) by (intros; apply Hq; by right).
  destruct (lookup_commit d current) as [c|e] eqn:Hload.
  - intros [= Hfold].
    destruct (push_parents_inv P depth (getParentHashes c) mine rest) as [Hk Hx];
      [|done..|by rewrite Hfold in Hk, Hx].
    intros p Hp. eapply Hclosed; [|done..]. apply (Hq (current, depth)). by left.
  - by intros [= <- <-].
Qed.

Lemma side_step_grows d mine other q mine' q' :
  side_step d mine other q = inr (mine', q') → dom mine ⊆ dom mine'.
Proof.
  destruct q as [|[current depth] rest]; [by intros [= <- <-]|]. simpl.
  case_bool_decide; [done|].
  destruct (lookup_commit d current) as [c|e].
  - intros [= Hfold].
    pose proof (push_parents_grows depth (getParentHashes c) mine rest) as Hg.
    by rewrite Hfold in Hg.
  - by intros [= <- <-].
Qed.

(** A block with an empty queue changes nothing; a block that pops a node
    and goes on lowers the measure of its side by one. *)
Lemma side_step_measure (U : gset string) d mine other q mine' q' :
  list_to_set (stored_parents d) ⊆ U →
  side_step d mine other q = inr (mine', q') →
  match q with
  | [] => mine' = mine ∧ q' = []
  | _ :: _ => S (side_measure U mine' q') = side_measure U mine q
  end.
Proof.
  intros HU.
  destruct q as [|[current depth] rest]; [by intros [= <- <-]|]. simpl.
  case_bool_decide; [done|].
  destruct (lookup_commit d current) as [c|e] eqn:Hload.
  - intros [= Hfold].
    pose proof (push_parents_measure U depth (getParentHashes c) mine rest) as Hm.
    rewrite Hfold in Hm. simpl in Hm. rewrite Hm.
    + unfold side_measure. simpl. lia.
    + intros p Hp. apply HU, elem_of_list_to_set. by eapply lookup_commit_stored.
  - intros [= <- <-]. unfold side_measure. simpl. lia.
Qed.

Lemma findLCA_loop_round fuel d v1 v2 q1 q2 :
  q1 ≠ [] ∨ q2 ≠ [] →
  findLCA_loop (S fuel) d v1 v2 q1 q2 =
    match side_step d v1 v2 q1 with
    | inl found => Some found
    | inr (v1', q1') =>
        match side_step d v2 v1' q2 with
        | inl found => Some found
        | inr (v2', q2') => findLCA_loop fuel d v1' v2' q1' q2'
        end
    end.
Proof. drop_vars. destruct q1, q2; naive_solver. Qed.

(** The loop returns within as many rounds as the two measures add up to. *)
Lemma findLCA_loop_total (U : gset string) d :
  list_to_set (stored_parents d) ⊆ U →
  ∀ fuel v1 v2 q1 q2,
  (side_measure U v1 q1 + side_measure U v2 q2 ≤ fuel)%nat →
  is_Some (findLCA_loop fuel d v1 v2 q1 q2).
Proof.
  intros HU. induction fuel as [|fuel IH]; intros v1 v2 q1 q2 Hfuel.
  - unfold side_measure in Hfuel.
    destruct q1, q2; simpl in *; eauto; lia.
  - cbn [findLCA_loop].
    destruct (side_step d v1 v2 q1) as [found|[v1' q1']] eqn:H1.
    { destruct q1, q2; eauto. }
    destruct (side_step d v2 v1' q2) as [found|[v2' q2']] eqn:H2.
    { destruct q1, q2; eauto. }
    apply (side_step_measure U) in H1; [|done].
    apply (side_step_measure U) in H2; [|done].
    destruct q1 as [|x1 q1], q2 as [|x2 q2]; [eauto|..];
      apply IH; destruct_and?; simplify_eq; unfold side_measure in *; simpl in *; lia.
Qed.

(** More rounds do not change a result. *)
Lemma findLCA_loop_mono d fuel : ∀ fuel' v1 v2 q1 q2 r,
  findLCA_loop fuel d v1 v2 q1 q2 = Some r →
  (fuel ≤ fuel')%nat →
  findLCA_loop fuel' d v1 v2 q1 q2 = Some r.
Proof.
  induction fuel as [|fuel IH]; intros fuel' v1 v2 q1 q2 r Hr Hle.
  - destruct q1, q2; simplify_eq/=. by destruct fuel'.
  - destruct fuel' as [|fuel']; [lia|].
    revert Hr. cbn [findLCA_loop].
    destruct (side_step d v1 v2 q1) as [found|[v1' q1']]; [done|].
    destruct (side_step d v2 v1' q2) as [found|[v2' q2']]; [done|].
    destruct q1, q2; try done; intros; apply IH; auto with lia.
Qed.

(** What the loop returns is empty or reachable from both start digests. *)
Lemma findLCA_loop_common d a b fuel : ∀ v1 v2 q1 q2 r,
  (∀ k, k ∈ dom v1 → reaches d a k) → (∀ x, x ∈ q1 → reaches d a x.1) →
  (∀ k, k ∈ dom v2 → reaches d b k) → (∀ x, x ∈ q2 → reaches d b x.1) →
  findLCA_loop fuel d v1 v2 q1 q2 = Some r →
  r = "" ∨ (reaches d a r ∧ reaches d b r).
Proof.
  assert (∀ s h c p, reaches d s h → lookup_commit d h = Ok c →
                     p ∈ getParentHashes c → reaches d s p) as Hclosed.
  { intros s h c p Hreach Hload Hp. eapply rtc_r; [done|]. by exists c. }
  induction fuel as [|fuel IH]; intros v1 v2 q1 q2 r Hv1 Hq1 Hv2 Hq2.
  - destruct q1, q2; simpl; intros; simplify_eq; auto.
  - cbn [findLCA_loop].
    destruct (side_step d v1 v2 q1) as [found|[v1' q1']] eqn:H1.
    { apply side_step_found in H1 as [(depth & rest & ->) Hseen].
      intros [= <-]. right. split; [|auto].
      apply (Hq1 (found, depth)). by left. }
    apply (side_step_inv (reaches d a)) in H1 as [Hv1' Hq1']; [|by eauto..].
    destruct (side_step d v2 v1' q2) as [found|[v2' q2']] eqn:H2.
    { apply side_step_found in H2 as [(depth & rest & ->) Hseen].
      destruct q1; intros [= <-]; right; (split; [auto|]);
        apply (Hq2 (found, depth)); by left. }
    apply (side_step_inv (reaches d b)) in H2 as [Hv2' Hq2']; [|by eauto..].
    destruct q1, q2; try (intros; simplify_eq; by auto); by apply IH.
Qed.

Lemma lca_bound_enough d a b :
  (side_measure (lca_universe d a b) {[a := 0]} [(a, 0)]
   + side_measure (lca_universe d a b) {[b := 0]} [(b, 0)] ≤ lca_bound d)%nat.
Proof. drop_vars.
  unfold side_measure, lca_bound. rewrite !dom_singleton_L. simpl.
  set (U := lca_universe d a b).
  assert (size U ≤ 2 + length (stored_parents d))%nat as HU.
  { unfold U, lca_universe. rewrite !size_union_alt, !size_singleton.
    pose proof (size_list_to_set_le (stored_parents d)).
    assert (size ({[b]} ∖ {[a]} : gset string) ≤ 1)%nat.
    { rewrite <-(size_singleton (C:=gset string) b). apply subseteq_size. set_solver. }
    assert (size (list_to_set (stored_parents d) ∖ ({[a]} ∪ {[b]}) : gset string)
            ≤ size (list_to_set (stored_parents d) : gset string))%nat.
    { apply subseteq_size. set_solver. }
    lia. }
  assert (∀ x, x ∈ U → S (size (U ∖ {[x]})) = size U) as Hdrop.
  { intros x Hx. rewrite size_difference by set_solver.
    rewrite size_singleton.
    assert (1 ≤ size U)%nat; [|lia].
    rewrite <-(size_singleton (C:=gset string) x). apply subseteq_size. set_solver. }
  assert (a ∈ U) as Ha by (unfold U, lca_universe; set_solver).
  assert (b ∈ U) as Hb by (unfold U, lca_universe; set_solver).
  apply Hdrop in Ha, Hb. lia.
Qed.

(** With the bound [findLCA] uses, the loop returns. *)
Lemma findLCA_on_fuel d a b :
  ∃ r, findLCA_on d a b = r
       ∧ ∀ fuel, (lca_bound d ≤ fuel)%nat → findLCA_fuel fuel d a b = Some r.
Proof. drop_vars.
  destruct (findLCA_loop_total (lca_universe d a b) d) with
    (fuel := lca_bound d) (v1 := ({[a := 0]} : gmap string nat))
    (v2 := ({[b := 0]} : gmap string nat)) (q1 := [(a, 0)]) (q2 := [(b, 0)])
    as [r Hr].
  { unfold lca_universe. set_solver. }
  { apply lca_bound_enough. }
  exists r. split.
  - unfold findLCA_on, findLCA_fuel. by rewrite Hr.
  - intros fuel Hfuel. by eapply findLCA_loop_mono.
Qed.

Lemma findLCA_on_from_fuel d a b fuel r :
  findLCA_fuel fuel d a b = Some r → findLCA_on d a b = r.
Proof.
  intros Hr. destruct (findLCA_on_fuel d a b) as (r' & <- & Hr').
  specialize (Hr' (max fuel (lca_bound d))). unfold findLCA_fuel in *.
  rewrite (findLCA_loop_mono _ _ (max fuel (lca_bound d)) _ _ _ _ _ Hr) in Hr' by lia.
  symmetry. apply (inj Some). apply Hr'. lia.
Qed.

(** C9.  For all start digests and every disk, whatever commits are
    missing or unreadable, [findLCA] returns normally: the loop ends within
    the bound, a node whose commit does not load is dropped from its queue
    without adding anything, and the result is the empty digest or a
    digest reachable from both start digests along the parent links of the
    commits that load. *)
Theorem findLCA_never_throws (commitHash1 commitHash2 : string) (st : Repo) :
  ∃ r,
    findLCA commitHash1 commitHash2 st = (st, Ok r)
    ∧ (∀ fuel, (lca_bound (disk st) ≤ fuel)%nat →
               findLCA_fuel fuel (disk st) commitHash1 commitHash2 = Some r)
    ∧ (r = "" ∨ (reaches (disk st) commitHash1 r ∧ reaches (disk st) commitHash2 r))
    ∧ (∀ mine other current depth rest e,
         lookup_commit (disk st) current = Throw e →
         other !! current = None →
         side_step (disk st) mine other ((current, depth) :: rest) = inr (mine, rest)).
Proof.
  destruct (findLCA_on_fuel (disk st) commitHash1 commitHash2) as (r & Hon & Hfuel).
  exists r. split_and!.
  - unfold findLCA. mg_unfold. by rewrite Hon.
  - done.
  - eapply (findLCA_loop_common _ commitHash1 commitHash2);
      [..|apply (Hfuel (lca_bound (disk st))); lia].
    + intros k. rewrite dom_singleton_L, elem_of_singleton. by intros ->.
    + intros x. rewrite list_elem_of_singleton. by intros ->.
    + intros k. rewrite dom_singleton_L, elem_of_singleton. by intros ->.
    + intros x. rewrite list_elem_of_singleton. by intros ->.
  - intros mine other current depth rest e Hload Hunseen. simpl.
    rewrite Hunseen, Hload. rewrite bool_decide_eq_false_2; [done|].
    by intros [? ?].
Qed.

(** C4.  [findLCA] is the alternating search: one node popped per side and
    turn, starting from the two start digests at depth 0, and the first
    popped node that the other side has seen is the result.  For all start
    digests and every state the search, given enough turns, ends with one
    outcome, and [findLCA] returns it, the empty digest standing for no
    ancestor.  On a linear chain, where [C] has the single parent [B] and
    [B] the single parent [A] (and the parents of [A] are further commits),
    the search from [C] and [A] returns [A]; and the search from a digest
    and itself returns that digest. *)
Theorem findLCA_first_common_node (st : Repo) (A B C : string) (cA cB cC : CommitNode) :
  A ≠ B → A ≠ C → B ≠ C →
  lookup_commit (disk st) C = Ok cC → getParentHashes cC = [B] →
  lookup_commit (disk st) B = Ok cB → getParentHashes cB = [A] →
  lookup_commit (disk st) A = Ok cA →
  (∀ p, p ∈ getParentHashes cA → p ≠ A ∧ p ≠ B ∧ p ≠ C) →
  (∀ fuel d a b,
     findLCA_fuel fuel d a b = default "" <$> findCommonAncestor_spec (2 * fuel) d a b)
  ∧ (∀ a b st0, ∃ res,
       (∀ turns, (2 * lca_bound (disk st0) ≤ turns)%nat →
                 findCommonAncestor_spec turns (disk st0) a b = Some res)
       ∧ findLCA a b st0 = (st0, Ok (default "" res)))
  ∧ findLCA C A st = (st, Ok A)
  ∧ ∀ x, findLCA x x st = (st, Ok x).
Proof. drop_vars.
  intros HAB HAC HBC HC HpC HB HpB HA HpA. split_and!.
  - intros fuel d a b. apply findLCA_loop_alternate.
  - intros a b st0.
    destruct (findLCA_on_fuel (disk st0) a b) as (r & Hon & Hfuel).
    specialize (Hfuel (lca_bound (disk st0)) ltac:(lia)).
    unfold findLCA_fuel in Hfuel. rewrite findLCA_loop_alternate in Hfuel.
    destruct (alternate (2 * lca_bound (disk st0)) (disk st0)
                        (mkSide {[a := 0]} [(a, 0)]) (mkSide {[b := 0]} [(b, 0)]))
      as [res|] eqn:Hres; [|done].
    injection Hfuel as <-. exists res. split.
    + intros turns Hturns. by apply (alternate_mono _ _ _ _ _ _ Hres).
    + unfold findLCA. mg_unfold. by rewrite Hon.
  - unfold findLCA. mg_unfold. do 2 f_equal.
    apply (findLCA_on_from_fuel _ _ _ 3). unfold findLCA_fuel.
    set (d := disk st) in *.
    (* first round: [C] is expanded to [B], then [A] to its parents *)
    assert (side_step d {[C := 0]} {[A := 0]} [(C, 0)]
            = inr (<[B := 1]> {[C := 0]}, [(B, 1)])) as S1.
    { cbn [side_step]. rewrite lookup_singleton_ne by done.
      rewrite bool_decide_eq_false_2 by (by intros [? ?]).
      rewrite HC, HpC. cbn [foldl]. rewrite push_parent_seen.
      by rewrite decide_False by (rewrite dom_singleton_L; set_solver). }
    destruct (foldl (push_parent 0) ({[A := 0]}, []) (getParentHashes cA))
      as [v2 q2] eqn:Hfold.
    assert (side_step d {[A := 0]} (<[B := 1]> {[C := 0]}) [(A, 0)] = inr (v2, q2)) as S2.
    { cbn [side_step]. rewrite lookup_insert_ne, lookup_singleton_ne by done.
      rewrite bool_decide_eq_false_2 by (by intros [? ?]).
      by rewrite HA, Hfold. }
    assert (A ∈ dom v2) as HAv2.
    { pose proof (push_parents_grows 0 (getParentHashes cA) {[A := 0]} []) as Hg.
      rewrite Hfold in Hg. apply Hg. rewrite dom_singleton_L. set_solver. }
    assert (∀ k, k ∈ dom v2 → k ≠ B ∧ k ≠ C) as Hv2.
    { destruct (push_parents_inv (λ k, k ≠ B ∧ k ≠ C) 0 (getParentHashes cA)
                  {[A := 0]} []) as [Hk _].
      - intros p Hp. by apply HpA in Hp as (? & ? & ?).
      - intros k. rewrite dom_singleton_L, elem_of_singleton. by intros ->.
      - intros x Hx. by apply elem_of_nil in Hx.
      - by rewrite Hfold in Hk. }
    assert (∀ x, x ∈ q2 → x.1 ≠ A ∧ x.1 ≠ B ∧ x.1 ≠ C) as Hq2.
    { intros x Hx.
      pose proof (push_parents_queued 0 (getParentHashes cA) {[A := 0]} [] x) as Hpq.
      rewrite Hfold in Hpq. destruct (Hpq Hx) as [Hnil|Hp]; [|by apply HpA].
      by apply elem_of_nil in Hnil. }
    (* second round: [B] is expanded to [A]; the other side goes on *)
    assert (side_step d (<[B := 1]> {[C := 0]}) v2 [(B, 1)]
            = inr (<[A := 2]> (<[B := 1]> {[C := 0]}), [(A, 2)])) as S3.
    { cbn [side_step].
      rewrite bool_decide_eq_false_2
        by (rewrite <-elem_of_dom; intros Hin; by apply Hv2 in Hin as [? ?]).
      rewrite HB, HpB. cbn [foldl]. rewrite push_parent_seen.
      by rewrite decide_False by (rewrite dom_insert_L, dom_singleton_L; set_solver). }
    destruct (side_step d v2 (<[A := 2]> (<[B := 1]> {[C := 0]})) q2)
      as [found|[v2' q2']] eqn:S4.
    { apply side_step_found in S4 as [(depth & rest & ->) Hseen].
      destruct (Hq2 (found, depth)) as (? & ? & ?); [by left|].
      rewrite !dom_insert_L, dom_singleton_L in Hseen. set_solver. }
    (* third round: [A] is popped, and the other side has seen it *)
    assert (side_step d (<[A := 2]> (<[B := 1]> {[C := 0]})) v2' [(A, 2)] = inl A) as S5.
    { cbn [side_step]. rewrite bool_decide_eq_true_2; [done|].
      apply elem_of_dom. by apply (side_step_grows _ _ _ _ _ _ S4). }
    rewrite findLCA_loop_round, S1, S2 by (by left).
    rewrite findLCA_loop_round, S3, S4 by (by left).
    by rewrite findLCA_loop_round, S5 by (by left).
  - intros x. unfold findLCA. mg_unfold. do 2 f_equal.
    apply (findLCA_on_from_fuel _ _ _ 1). unfold findLCA_fuel.
    rewrite findLCA_loop_round by (by left).
    cbn [side_step]. rewrite lookup_singleton_eq.
    by rewrite bool_decide_eq_true_2 by eauto.
Qed.

(** *** Lines and the index file *)

Lemma append_cons (c : ascii) (s t : string) : String c s +:+ t = String c (s +:+ t).
Proof. reflexivity. Qed.

(** A first line without line feed, ended by a line feed, is split off. *)
Lemma getlines_from_line (l rest acc : string) :
  has_char LF l = false →
  getlines_from acc (l +:+ nl +:+ rest) = (acc +:+ l) :: getlines_from "" rest.
Proof. drop_vars.
  revert acc. induction l as [|c l IH]; intros acc Hl.
  - by rewrite append_nil_r.
  - simpl in Hl. apply orb_false_iff in Hl as [Hc Hl].
    rewrite append_cons. cbn [getlines_from]. rewrite Hc, IH by done.
    by rewrite append_assoc.
Qed.

Lemma has_char_app (c : ascii) (s t : string) :
  has_char c (s +:+ t) = has_char c s || has_char c t.
Proof. drop_vars.
  induction s as [|c' s IH]; [done|].
  rewrite append_cons. simpl. by rewrite IH, orb_assoc.
Qed.

Lemma find_space_entry (file rest : string) :
  has_char " " file = false →
  find_space (file +:+ " " +:+ rest) = Some (String.length file).
Proof. drop_vars.
  induction file as [|c file IH]; intros Hfile; [done|].
  simpl in Hfile. apply orb_false_iff in Hfile as [Hc Hfile].
  rewrite append_cons. cbn [find_space]. rewrite Hc, IH by done. done.
Qed.

Lemma substring_entry (file rest : string) :
  substring 0 (String.length file) (file +:+ rest) = file.
Proof. drop_vars.
  induction file as [|c file IH]; [by destruct rest|].
  rewrite append_cons. simpl. by rewrite IH.
Qed.

Lemma drop_chars_entry (file rest : string) :
  drop_chars (S (String.length file)) (file +:+ " " +:+ rest) = rest.
Proof. drop_vars. induction file as [|c file IH]; [done|]. by rewrite append_cons. Qed.

(** A line of the index whose path holds no blank is read back as the entry
    it was written from. *)
Lemma parse_index_line_entry (m : gmap string string) (file hash : string) :
  has_char " " file = false →
  parse_index_line m (file +:+ " " +:+ hash) = <[file:=hash]> m.
Proof. drop_vars.
  intros Hfile. unfold parse_index_line.
  by rewrite find_space_entry, substring_entry, drop_chars_entry.
Qed.


Lemma index_text_lines (entries : list (string * string)) :
  foldr (λ '(file, hash) rest, file +:+ " " +:+ hash +:+ nl +:+ rest) "" entries
  = foldr (λ entry rest, index_line entry +:+ nl +:+ rest) "" entries.
Proof. drop_vars.
  induction entries as [|[file hash] entries IH]; [done|].
  simpl. rewrite IH. unfold index_line. simpl. by rewrite !append_assoc.
Qed.

Lemma getlines_index_lines (entries : list (string * string)) :
  (∀ entry, entry ∈ entries → has_char LF (index_line entry) = false) →
  getlines (foldr (λ entry rest, index_line entry +:+ nl +:+ rest) "" entries)
  = index_line <$> entries.
Proof. drop_vars.
  unfold getlines. induction entries as [|entry entries IH]; intros Hsafe; [done|].
  simpl. rewrite getlines_from_line by (apply Hsafe; by left).
  rewrite IH; [done|]. intros e He. apply Hsafe. by right.
Qed.

Lemma foldl_parse_index_lines (entries : list (string * string)) : ∀ m,
  (∀ entry, entry ∈ entries → has_char " " entry.1 = false) →
  foldl parse_index_line m (index_line <$> entries)
  = foldl (λ m entry, <[entry.1:=entry.2]> m) m entries.
Proof. drop_vars.
  induction entries as [|[file hash] entries IH]; intros m Hsafe; [done|].
  simpl. unfold index_line at 1. simpl.
  rewrite parse_index_line_entry by (apply (Hsafe (file, hash)); by left).
  apply IH. intros e He. apply Hsafe. by right.
Qed.

Lemma foldl_insert_lookup (entries : list (string * string)) : ∀ (m : gmap string string) k,
  NoDup entries.*1 →
  foldl (λ (m : gmap string string) entry, <[entry.1:=entry.2]> m) m entries !! k
  = match (list_to_map entries : gmap string string) !! k with
    | Some v => Some v
    | None => m !! k
    end.
Proof. drop_vars.
  induction entries as [|[k0 v0] entries IH]; intros m k Hnodup; [done|].
  apply NoDup_cons in Hnodup as [Hfresh Hnodup].
  simpl. rewrite IH by done.
  destruct (decide (k = k0)) as [->|Hne].
  - rewrite lookup_insert_eq.
    by rewrite (not_elem_of_list_to_map_1 _ _ Hfresh), lookup_insert_eq.
  - rewrite !lookup_insert_ne by done. done.
Qed.

Lemma foldl_insert_entries (entries : list (string * string)) :
  NoDup entries.*1 →
  foldl (λ (m : gmap string string) entry, <[entry.1:=entry.2]> m) ∅ entries
  = list_to_map entries.
Proof. drop_vars.
  intros Hnodup. apply map_eq. intros k. rewrite foldl_insert_lookup by done.
  rewrite lookup_empty. by destruct (_ !! k).
Qed.

(** What a new invocation loads from the index file [saveIndex] wrote,
    whatever the order of its lines. *)
Lemma load_saved_index (s : gmap string string) (entries : list (string * string))
    (d : gmap string string) :
  index_safe s →
  entries ≡ₚ map_to_list s →
  d !! INDEX_FILE = Some (index_text entries) →
  stagingArea (MiniGit_new d) = s.
Proof. drop_vars.
  intros Hsafe Hperm Hindex. rewrite MiniGit_new_staging, Hindex.
  unfold index_text. rewrite index_text_lines.
  assert (∀ entry, entry ∈ entries →
            has_char " " entry.1 = false ∧ has_char LF (index_line entry) = false)
    as Hentries.
  { intros [file hash] Hin. rewrite Hperm in Hin. apply elem_of_map_to_list in Hin.
    destruct (Hsafe _ _ Hin) as (Hb & Hf & Hh). split; [done|].
    unfold index_line. simpl. rewrite !has_char_app, Hf, Hh. done. }
  assert (NoDup entries.*1) as Hnodup.
  { rewrite Hperm. apply NoDup_fst_map_to_list. }
  rewrite getlines_index_lines by (intros e He; by apply Hentries).
  rewrite foldl_parse_index_lines by (intros e He; by apply Hentries).
  rewrite foldl_insert_entries by done.
  rewrite (list_to_map_proper entries (map_to_list s)) by done.
  apply list_to_map_to_list.
Qed.

(** X1.  Index round trip: when no staged path holds a blank or a line feed
    and no staged digest holds a line feed, the staging map a new invocation
    loads from the index file written by [saveIndex] is the staging map that
    was saved, in whatever order [saveIndex] wrote the lines. *)
Theorem saveIndex_loadIndex_round_trip (st st' : Repo) :
  index_safe (stagingArea st) →
  saveIndex st = (st', Ok tt) →
  stagingArea (MiniGit_new (disk st')) = stagingArea st.
Proof using iteration_order_entries.
  intros Hsafe. unfold saveIndex, writeToFile. mg_unfold.
  destruct (writable INDEX_FILE); [|done]. intros [= <-].
  apply (load_saved_index _ (iteration_order st)); [done|done|].
  simpl. by rewrite lookup_insert_eq.
Qed.

(** X2.  A staged path with a blank does not survive the index file: the
    line is cut at its first blank, so the entry comes back under the part of
    the path before the blank, with the rest of the line as its digest. *)
Theorem saveIndex_loadIndex_blank_in_path (x y hash : string) (st st' : Repo) :
  has_char " " x = false → has_char LF x = false →
  has_char LF y = false → has_char LF hash = false →
  stagingArea st = {[x +:+ " " +:+ y := hash]} →
  saveIndex st = (st', Ok tt) →
  stagingArea (MiniGit_new (disk st')) = {[x := y +:+ " " +:+ hash]}.
Proof using iteration_order_entries.
  intros Hx Hxl Hy Hh Hstaged. unfold saveIndex, writeToFile. mg_unfold.
  destruct (writable INDEX_FILE); [|done]. intros [= <-].
  rewrite MiniGit_new_staging. simpl. rewrite lookup_insert_eq.
  assert (iteration_order st = [(x +:+ " " +:+ y, hash)]) as ->.
  { apply Permutation_singleton_r.
    by rewrite iteration_order_entries, Hstaged, map_to_list_singleton. }
  unfold index_text. simpl.
  unfold getlines.
  replace ((x +:+ " " +:+ y) +:+ " " +:+ hash +:+ nl +:+ "")
    with ((x +:+ " " +:+ y +:+ " " +:+ hash) +:+ nl +:+ "")
    by (by rewrite !append_assoc).
  rewrite getlines_from_line by (by rewrite !has_char_app, Hxl, Hy, Hh).
  cbn [getlines_from str_empty foldl].
  change ("" +:+ x +:+ " " +:+ y +:+ " " +:+ hash) with (x +:+ " " +:+ y +:+ " " +:+ hash).
  rewrite parse_index_line_entry by done. apply insert_empty.
Qed.

(** *** HEAD and the branch references *)

Lemma getHeadCommitHash_head_hash (st : Repo) :
  getHeadCommitHash st = (st, Ok (head_hash (disk st))).
Proof. drop_vars.
  unfold getHeadCommitHash, head_hash. mg_unfold.
  destruct (disk st !! HEAD_FILE) as [headContent|]; [|done].
  by destruct (starts_with "ref: " headContent).
Qed.

(** What HEAD resolves to on a disk where it names a branch. *)
Lemma head_resolves_branch (st : Repo) (branchName : string) :
  disk st !! HEAD_FILE = Some ("ref: refs/heads/" +:+ branchName) →
  getHeadCommitHash st = (st, Ok (default "" (disk st !! branch_path branchName))).
Proof. drop_vars.
  intros Hhead. unfold getHeadCommitHash. mg_unfold. rewrite Hhead.
  change (starts_with "ref: " ("ref: refs/heads/" +:+ branchName)) with true.
  cbv iota.
  by change (MINIGIT_DIR +:+ "/" +:+ drop_chars 5 ("ref: refs/heads/" +:+ branchName))
    with (branch_path branchName).
Qed.

(** What HEAD resolves to on a disk where it holds a digest. *)
Lemma head_resolves_detached (st : Repo) (commitHash : string) :
  disk st !! HEAD_FILE = Some commitHash →
  starts_with "ref: " commitHash = false →
  getHeadCommitHash st = (st, Ok commitHash).
Proof. drop_vars.
  intros Hhead Hraw. unfold getHeadCommitHash. mg_unfold. by rewrite Hhead, Hraw.
Qed.

Lemma updateHead_Ok (commitHash branchName : string) (isBranch : bool) (st st' : Repo) :
  updateHead commitHash isBranch branchName st = (st', Ok tt) →
  st' = mkRepo (if isBranch
                then <[HEAD_FILE:="ref: refs/heads/" +:+ branchName]>
                       (<[branch_path branchName:=commitHash]> (disk st))
                else <[HEAD_FILE:=commitHash]> (disk st))
               (stagingArea st) (cout st).
Proof.
  destruct isBranch; [apply updateHead_branch_Ok|].
  unfold updateHead. mg_unfold_all.
  destruct (writable HEAD_FILE); cbn [negb]; [|done]. by intros [= <-].
Qed.

(** X3.  HEAD round trip: after a successful [updateHead], HEAD resolves to
    the digest that was written, through the branch reference when a branch
    is named, and directly when the digest is stored in HEAD (a digest that
    does not itself begin with the marker of a symbolic reference). *)
Theorem updateHead_then_getHeadCommitHash
    (commitHash branchName : string) (isBranch : bool) (st st' : Repo) :
  (isBranch = false → starts_with "ref: " commitHash = false) →
  updateHead commitHash isBranch branchName st = (st', Ok tt) →
  getHeadCommitHash st' = (st', Ok commitHash).
Proof.
  intros Hraw Hupd. apply updateHead_Ok in Hupd. subst st'. destruct isBranch.
  - rewrite (head_resolves_branch _ branchName) by (simpl; by rewrite lookup_insert_eq).
    simpl. rewrite lookup_insert_ne by (apply not_eq_sym, branch_path_ne_head).
    by rewrite lookup_insert_eq.
  - apply head_resolves_detached; [|by apply Hraw].
    simpl. by rewrite lookup_insert_eq.
Qed.

(** *** Staging a file *)

(** X4.  Whatever its outcome, [add] keeps every other staged entry and
    every object of the store, with its content; when it throws, the index
    file is as it was; and a file that does not exist is reported as
    [File not found] with the whole state unchanged. *)
Theorem add_keeps_staged_and_objects (filename : string) (st : Repo) :
  (∀ k, k ≠ filename →
        stagingArea (add filename st).1 !! k = stagingArea st !! k)
  ∧ (∀ h c, disk st !! object_path h = Some c →
            disk (add filename st).1 !! object_path h = Some c)
  ∧ (∀ e, (add filename st).2 = Throw e →
          disk (add filename st).1 !! INDEX_FILE = disk st !! INDEX_FILE)
  ∧ (disk st !! filename = None →
     add filename st = (st, Throw (runtime_error ("File not found: " +:+ filename)))).
Proof.
  destruct (disk st !! filename) as [c|] eqn:Hfile.
  - rewrite (add_unfold _ _ _ Hfile). cbv zeta.
    destruct (disk st !! object_path (calculateHash c)) as [c'|] eqn:Hblob.
    + destruct (writable INDEX_FILE); simpl; split_and!; try done.
      * intros k Hk. by rewrite lookup_insert_ne.
      * intros h x Hx. by rewrite lookup_insert_ne by (apply not_eq_sym, object_path_ne_index).
      * intros k Hk. by rewrite lookup_insert_ne.
    + destruct (writable (object_path (calculateHash c))); [|by split_and!].
      destruct (writable INDEX_FILE); simpl; split_and!; try done.
      * intros k Hk. by rewrite lookup_insert_ne.
      * intros h x Hx.
        rewrite lookup_insert_ne by (apply not_eq_sym, object_path_ne_index).
        rewrite lookup_insert_ne; [done|]. intros Heq. congruence.
      * intros k Hk. by rewrite lookup_insert_ne.
      * intros h x Hx. rewrite lookup_insert_ne; [done|]. intros Heq. congruence.
      * intros e _. by rewrite lookup_insert_ne by apply object_path_ne_index.
  - assert (add filename st
            = (st, Throw (runtime_error ("File not found: " +:+ filename)))) as Hadd.
    { unfold add. mg_unfold. rewrite Hfile.
      by rewrite bool_decide_eq_false_2 by (by intros [? ?]). }
    rewrite Hadd. by split_and!.
Qed.

(** *** Staging a file twice *)

(** X28.  [add] is idempotent up to the order of the lines of the index
    file: staging again a file that was just staged succeeds and leaves the
    staging map and every file other than the index file (the object store
    above all) as the first [add] left them; the index file is written
    again, and a new invocation loads the same staging map from it as
    before.  The file is a working file: neither the index file nor a path
    of the object store; the staged names are those that survive the index
    file. *)
Theorem add_twice (filename : string) (st st1 : Repo) :
  filename ≠ INDEX_FILE →
  (∀ h, filename ≠ object_path h) →
  index_safe (stagingArea st1) →
  add filename st = (st1, Ok tt) →
  ∃ st2, add filename st1 = (st2, Ok tt)
         ∧ stagingArea st2 = stagingArea st1
         ∧ (∀ p, p ≠ INDEX_FILE → disk st2 !! p = disk st1 !! p)
         ∧ stagingArea (MiniGit_new (disk st2)) = stagingArea st1
         ∧ stagingArea (MiniGit_new (disk st1)) = stagingArea st1.
Proof using iteration_order_entries.
  intros Hindex Hobject Hsafe Hadd.
  destruct (disk st !! filename) as [c|] eqn:Hfile; cycle 1.
  { revert Hadd. unfold add. mg_unfold. rewrite Hfile.
    rewrite bool_decide_eq_false_2 by (by intros [? ?]). done. }
  rewrite (add_unfold _ _ _ Hfile) in Hadd. cbv zeta in Hadd.
  set (hash := calculateHash c) in *.
  set (staged := <[filename:=hash]> (stagingArea st)) in *.
  assert (writable INDEX_FILE = true
          ∧ ∃ d, disk st1 = <[INDEX_FILE:=index_text (iteration_order
                                                       (mkRepo d staged (cout st)))]> d
                 ∧ is_Some (d !! object_path hash) ∧ d !! filename = Some c
                 ∧ stagingArea st1 = staged)
    as (Hw & d & Hdisk & Hblob & Hfile1 & Hstaged).
  { destruct (disk st !! object_path hash) as [c'|] eqn:Hold.
    - destruct (writable INDEX_FILE); [|done]. injection Hadd as <-.
      split; [done|]. exists (disk st). by split_and!.
    - destruct (writable (object_path hash)); [|done].
      destruct (writable INDEX_FILE); [|done]. injection Hadd as <-.
      split; [done|]. exists (<[object_path hash:=c]> (disk st)). split_and!; try done.
      + rewrite lookup_insert_eq. eauto.
      + rewrite lookup_insert_ne; [done|]. apply not_eq_sym, Hobject. }
  assert (disk st1 !! filename = Some c) as Hfile'.
  { rewrite Hdisk. by rewrite lookup_insert_ne by (by apply not_eq_sym). }
  rewrite (add_unfold _ _ _ Hfile'). cbv zeta. fold hash.
  assert (is_Some (disk st1 !! object_path hash)) as [c' Hblob'].
  { rewrite Hdisk. by rewrite lookup_insert_ne by (apply not_eq_sym, object_path_ne_index). }
  assert (<[filename:=hash]> (stagingArea st1) = stagingArea st1) as Hsame.
  { rewrite Hstaged. unfold staged. by rewrite insert_insert_eq. }
  rewrite Hblob', Hw, Hsame. eexists. split; [done|]. cbn [disk stagingArea].
  split_and!.
  - done.
  - intros p Hp. by rewrite lookup_insert_ne by (by apply not_eq_sym).
  - eapply load_saved_index; [done| |by rewrite lookup_insert_eq].
    by rewrite iteration_order_entries.
  - eapply load_saved_index; [done| |by rewrite Hdisk, lookup_insert_eq].
    by rewrite iteration_order_entries, Hstaged.
Qed.

(** *** The commit a successful [commit] records *)

(** X5.  A successful [commit] stores a commit whose files are exactly the
    staging map (files of the previous commit that were not staged again are
    not carried over), whose only parent is the commit HEAD resolved to (no
    parent when there was none), and HEAD then resolves to the new commit,
    which loads back; every other object of the store keeps its content.
    The serialisation is taken to read back what it wrote for this commit. *)
Theorem commit_records_staging (message parentHash : string) (c : CommitNode)
    (st st' : Repo) :
  c = CommitNode_new message (if str_empty parentHash then [] else [parentHash])
                     (stagingArea st) →
  deserialize (serialize c) = Some c →
  stagingArea st ≠ ∅ →
  (getHeadCommitHash st).2 = Ok parentHash →
  commit message st = (st', Ok tt) →
  getHeadCommitHash st' = (st', Ok (getHash c))
  ∧ loadCommit (getHash c) st' = (st', Ok c)
  ∧ getMessage c = message
  ∧ getFileBlobs c = stagingArea st
  ∧ getParentHashes c = (if str_empty parentHash then [] else [parentHash])
  ∧ ∀ h content, h ≠ getHash c → disk st !! object_path h = Some content →
                 disk st' !! object_path h = Some content.
Proof.
  intros Hc Hser Hstaged Hhead Hcommit.
  pose proof (commit_Ok _ _ _ _ Hstaged Hhead Hcommit) as Hok. cbv zeta in Hok.
  destruct Hok as [Hdisk _]. rewrite <-Hc in Hdisk.
  split_and!; try (by rewrite Hc).
  - rewrite (head_resolves_branch _ "master").
    + rewrite Hdisk.
      rewrite lookup_insert_ne by (apply not_eq_sym, branch_path_ne_index).
      rewrite lookup_insert_ne by (apply not_eq_sym, branch_path_ne_head).
      by rewrite lookup_insert_eq.
    + rewrite Hdisk. rewrite lookup_insert_ne by (apply not_eq_sym, head_ne_index).
      by rewrite lookup_insert_eq.
  - unfold loadCommit, lookup_commit. fold (object_path (getHash c)). rewrite Hdisk.
    rewrite lookup_insert_ne by (apply not_eq_sym, object_path_ne_index).
    rewrite lookup_insert_ne by (apply not_eq_sym, object_path_ne_head).
    rewrite lookup_insert_ne by (apply not_eq_sym, object_path_ne_branch).
    by rewrite lookup_insert_eq, Hser.
  - intros h content Hne Hobj. rewrite Hdisk.
    rewrite lookup_insert_ne by (apply not_eq_sym, object_path_ne_index).
    rewrite lookup_insert_ne by (apply not_eq_sym, object_path_ne_head).
    rewrite lookup_insert_ne by (apply not_eq_sym, object_path_ne_branch).
    rewrite lookup_insert_ne; [done|]. intros Heq. by apply object_path_inj in Heq.
Qed.

(** *** Creating a branch *)

(** X6.  With a current commit, [branch] succeeds: a new branch reference is
    created holding the digest HEAD resolves to, a branch that already
    exists is left where it is, nothing else on disk changes, and HEAD
    resolves to the same commit as before. *)
Theorem branch_creates_at_head (branchName head : string) (st : Repo) :
  (getHeadCommitHash st).2 = Ok head →
  head ≠ "" →
  writable (branch_path branchName) = true →
  (branch branchName st).2 = Ok tt
  ∧ disk (branch branchName st).1 =
      match disk st !! branch_path branchName with
      | Some _ => disk st
      | None => <[branch_path branchName:=head]> (disk st)
      end
  ∧ stagingArea (branch branchName st).1 = stagingArea st
  ∧ (getHeadCommitHash (branch branchName st).1).2 = Ok head.
Proof.
  intros Hhead Hne Hw.
  assert (branch branchName st =
          match disk st !! branch_path branchName with
          | Some _ => (mkRepo (disk st) (stagingArea st)
                              (cout st +:+ "Branch already exists: " +:+ branchName +:+ nl),
                       Ok tt)
          | None => (mkRepo (<[branch_path branchName:=head]> (disk st)) (stagingArea st)
                            (cout st +:+ "Created branch " +:+ branchName +:+ nl),
                     Ok tt)
          end) as Hbranch.
  { unfold branch, writeToFile. mg_unfold.
    rewrite getHeadCommitHash_reads, Hhead.
    apply str_empty_false in Hne. rewrite Hne. fold (branch_path branchName).
    destruct (disk st !! branch_path branchName) as [old|] eqn:Hold.
    - by rewrite bool_decide_eq_true_2 by eauto.
    - rewrite bool_decide_eq_false_2 by (by intros [? ?]). by rewrite Hw. }
  rewrite Hbranch. rewrite getHeadCommitHash_head_hash in Hhead. simpl in Hhead.
  destruct (disk st !! branch_path branchName) as [old|] eqn:Hold; simpl.
  - split_and!; try done. by rewrite getHeadCommitHash_head_hash.
  - split_and!; try done. rewrite getHeadCommitHash_head_hash. simpl.
    revert Hhead. unfold head_hash.
    rewrite lookup_insert_ne by apply branch_path_ne_head.
    destruct (disk st !! HEAD_FILE) as [headContent|]; [|done].
    destruct (starts_with "ref: " headContent); [|done].
    destruct (decide (branch_path branchName
                      = MINIGIT_DIR +:+ "/" +:+ drop_chars 5 headContent)) as [Heq|Hneq].
    + rewrite <-Heq, Hold. simpl. intros [= <-]. done.
    + by rewrite lookup_insert_ne.
Qed.

(** *** Switching to a branch or a commit *)

(** [checkout] step by step. *)
Lemma checkout_unfold (target : string) (st : Repo) :
  checkout target st =
    match (resolve_target target st).2 with
    | Throw e => (st, Throw e)
    | Ok (targetHash, isBranch) =>
        match lookup_commit (disk st) targetHash with
        | Throw e => (st, Throw e)
        | Ok c =>
            match for_each (map_to_list (getFileBlobs c)) restore_file st with
            | (st1, Throw e) => (st1, Throw e)
            | (st1, Ok _) =>
                match updateHead targetHash isBranch (if isBranch then target else "") st1 with
                | (st2, Throw e) => (st2, Throw e)
                | (st2, Ok _) =>
                    (mkRepo (disk st2) ∅
                            (cout st2 +:+ "Switched to " +:+
                               (if isBranch then "branch " +:+ target
                                else "commit " +:+ short_hash targetHash) +:+ nl),
                     Ok tt)
                end
            end
        end
    end.
Proof.
  unfold checkout. unfold mbind at 1, M_bind at 1, bind at 1.
  pose proof (resolve_target_reads target st) as Hreads.
  destruct (resolve_target target st) as [st0 [[targetHash isBranch]|e]];
    simpl in Hreads; subst st0; [|done].
  cbn [fst snd]. unfold mbind at 1, M_bind at 1, bind at 1. unfold loadCommit at 1.
  destruct (lookup_commit (disk st) targetHash) as [c|e]; [|done].
  unfold mbind at 1, M_bind at 1, bind at 1.
  destruct (for_each _ _ _) as [st1 [[]|e]]; [|done].
  unfold mbind at 1, M_bind at 1, bind at 1.
  destruct (updateHead _ _ _ _) as [st2 [[]|e]]; [|done].
  by mg_unfold.
Qed.

(** Whatever its outcome, [updateHead] writes the branch reference and HEAD
    only, and removes nothing. *)
Lemma updateHead_frame (commitHash branchName : string) (isBranch : bool) (st : Repo) :
  stagingArea (updateHead commitHash isBranch branchName st).1 = stagingArea st
  ∧ (∀ p, p ≠ HEAD_FILE → (isBranch = true → p ≠ branch_path branchName) →
          disk (updateHead commitHash isBranch branchName st).1 !! p = disk st !! p)
  ∧ (∀ p, is_Some (disk st !! p) →
          is_Some (disk (updateHead commitHash isBranch branchName st).1 !! p)).
Proof.
  unfold updateHead. mg_unfold_all. fold (branch_path branchName).
  destruct isBranch.
  - destruct (writable (branch_path branchName)); cbn [negb]; [|done].
    destruct (writable HEAD_FILE); cbn [negb disk stagingArea fst]; split_and!; try done.
    + intros p ? Hb. specialize (Hb eq_refl). by rewrite !lookup_insert_ne.
    + intros p Hp. rewrite !lookup_insert. repeat case_decide; eauto.
    + intros p ? Hb. specialize (Hb eq_refl). by rewrite !lookup_insert_ne.
    + intros p Hp. rewrite !lookup_insert. repeat case_decide; eauto.
  - destruct (writable HEAD_FILE); cbn [negb disk stagingArea fst]; split_and!; try done.
    + intros p ? ?. by rewrite !lookup_insert_ne.
    + intros p Hp. rewrite !lookup_insert. repeat case_decide; eauto.
Qed.

(** The restoring loop removes nothing. *)
Lemma restore_files_keep (entries : list (string * string)) :
  ∀ st p, is_Some (disk st !! p) →
          is_Some (disk (for_each entries restore_file st).1 !! p).
Proof.
  induction entries as [|[file hash] entries IH]; intros st p Hp; [done|].
  simpl. unfold mbind at 1, M_bind at 1, bind at 1.
  destruct (restore_file (file, hash) st) as [st1 r1] eqn:Hfile.
  assert (is_Some (disk st1 !! p)) as Hp1.
  { revert Hfile. unfold restore_file. mg_unfold_all. cbn [fst snd].
    destruct (disk st !! (OBJECTS_DIR +:+ "/" +:+ hash)); [|by intros [= <- _]].
    cbn [disk]. destruct (writable file); intros [= <- _]; [|done].
    simpl. rewrite lookup_insert. case_decide; eauto. }
  destruct r1 as [[]|e]; [by apply IH|done].
Qed.

(** A restoring loop that ends normally has written, for every entry, the
    content of its blob to its path. *)
Lemma restore_files_Ok (entries : list (string * string)) :
  ∀ st st',
  NoDup entries.*1 →
  (∀ file blob, (file, blob) ∈ entries →
                writable file = true ∧ ∀ h, file ≠ object_path h) →
  for_each entries restore_file st = (st', Ok tt) →
  ∀ file blob, (file, blob) ∈ entries →
    ∃ content, disk st !! object_path blob = Some content
               ∧ disk st' !! file = Some content.
Proof.
  induction entries as [|[f b] entries IH]; intros st st' Hnodup Hsafe Hloop file blob Hin.
  { by apply elem_of_nil in Hin. }
  rewrite fmap_cons in Hnodup. apply NoDup_cons in Hnodup as [Hfresh Hnodup].
  simpl in Hloop. unfold mbind at 1, M_bind at 1, bind at 1 in Hloop.
  destruct (Hsafe f b) as [Hw Hnot]; [by left|].
  assert (restore_file (f, b) st =
          match disk st !! object_path b with
          | Some content =>
              (mkRepo (<[f:=content]> (disk st)) (stagingArea st) (cout st), Ok tt)
          | None => (st, Throw (runtime_error ("Blob not found: " +:+ b)))
          end) as Hfile.
  { unfold restore_file. mg_unfold_all. cbn [fst snd]. fold (object_path b).
    destruct (disk st !! object_path b); [|done]. by rewrite Hw. }
  rewrite Hfile in Hloop.
  destruct (disk st !! object_path b) as [content|] eqn:Hb; [|done].
  pose proof (restore_files_frame _ _ _ _ Hloop) as [_ Hframe].
  apply elem_of_cons in Hin as [Heq|Hin]; [injection Heq as -> ->|].
  - exists content. split; [done|]. rewrite Hframe by done. simpl.
    by rewrite lookup_insert_eq.
  - destruct (IH _ _ Hnodup (λ f' b' H', Hsafe f' b' (list_elem_of_further _ _ _ H'))
                Hloop _ _ Hin) as (content' & Hblob & Hfile').
    exists content'. split; [|done].
    simpl in Hblob. rewrite lookup_insert_ne in Hblob; [done|]. apply Hnot.
Qed.

(** X7.  A successful [checkout] has written every file of the target commit
    with the content of its blob, for tracked paths that are writable and are
    neither objects of the store nor the references [checkout] updates. *)
Theorem checkout_restores_files (target targetHash : string) (isBranch : bool)
    (c : CommitNode) (st st' : Repo) :
  (resolve_target target st).2 = Ok (targetHash, isBranch) →
  lookup_commit (disk st) targetHash = Ok c →
  (∀ file, file ∈ dom (getFileBlobs c) →
           writable file = true ∧ file ≠ HEAD_FILE ∧ file ≠ branch_path target
           ∧ ∀ h, file ≠ object_path h) →
  checkout target st = (st', Ok tt) →
  ∀ file blob, getFileBlobs c !! file = Some blob →
    ∃ content, disk st !! object_path blob = Some content
               ∧ disk st' !! file = Some content.
Proof.
  intros Hres Hc Hsafe Hcheckout file blob Hfile.
  rewrite checkout_unfold, Hres, Hc in Hcheckout.
  destruct (for_each _ _ _) as [st1 [[]|e]] eqn:Hloop; [|done].
  destruct (Hsafe file) as (_ & Hhead & Hbranch & _); [apply elem_of_dom; eauto|].
  destruct (restore_files_Ok _ _ _ (NoDup_fst_map_to_list _)
              (λ f b H, let Hd := proj2 (elem_of_dom (getFileBlobs c) f)
                                    (ex_intro _ b (proj1 (elem_of_map_to_list _ f b) H)) in
                        conj (proj1 (Hsafe f Hd)) (proj2 (proj2 (proj2 (Hsafe f Hd)))))
              Hloop file blob) as (content & Hblob & Hwritten).
  { by apply elem_of_map_to_list. }
  exists content. split; [done|].
  pose proof (updateHead_frame targetHash (if isBranch then target else "") isBranch st1)
    as (_ & Hframe & _).
  destruct (updateHead _ _ _ _) as [st2 [[]|e]] eqn:Hupd; [|done].
  injection Hcheckout as <-. simpl. simpl in Hframe.
  rewrite Hframe; [done..|]. by destruct isBranch.
Qed.

(** X8.  Whatever its outcome, [checkout] removes no file, and it leaves as
    it is every path that is neither tracked by the target commit nor HEAD
    nor the reference of the target branch: files of the snapshot that is
    left which the target does not track stay in the working tree. *)
Theorem checkout_touches_tracked_only (target : string) (st : Repo) :
  (∀ p, is_Some (disk st !! p) → is_Some (disk (checkout target st).1 !! p))
  ∧ (∀ p targetHash isBranch c,
       (resolve_target target st).2 = Ok (targetHash, isBranch) →
       lookup_commit (disk st) targetHash = Ok c →
       p ∉ dom (getFileBlobs c) → p ≠ HEAD_FILE → p ≠ branch_path target →
       disk (checkout target st).1 !! p = disk st !! p).
Proof.
  rewrite checkout_unfold.
  destruct (resolve_target target st).2 as [[targetHash isBranch]|e] eqn:Hres; [|by split].
  destruct (lookup_commit (disk st) targetHash) as [c|e] eqn:Hc;
    [|split; [done|]; intros; simplify_eq; congruence].
  pose proof (restore_files_keep (map_to_list (getFileBlobs c)) st) as Hkeep.
  destruct (for_each _ _ _) as [st1 r1] eqn:Hloop.
  apply restore_files_frame in Hloop as [_ Hframe]. simpl in Hkeep.
  assert (∀ p, p ∉ dom (getFileBlobs c) → disk st1 !! p = disk st !! p) as Hframe'.
  { intros p Hp. apply Hframe. intros Hin. apply Hp.
    apply list_elem_of_fmap in Hin as ([f b] & -> & Hin).
    apply elem_of_map_to_list in Hin. apply elem_of_dom. eauto. }
  destruct r1 as [[]|e].
  - pose proof (updateHead_frame targetHash (if isBranch then target else "") isBranch st1)
      as (_ & Hupd & Hupdkeep).
    destruct (updateHead _ _ _ _) as [st2 [[]|e]]; simpl in *.
    + split; [by auto|]. intros p h b c' ? ? Hp Hhead Hbranch. simplify_eq.
      assert (c' = c) as -> by congruence.
      rewrite <-Hframe' by done. apply Hupd; [done|]. by destruct b.
    + split; [by auto|]. intros p h b c' ? ? Hp Hhead Hbranch. simplify_eq.
      assert (c' = c) as -> by congruence.
      rewrite <-Hframe' by done. apply Hupd; [done|]. by destruct b.
  - split; [done|]. intros p h b c' ? ? Hp _ _. simplify_eq.
    assert (c' = c) as -> by congruence. by apply Hframe'.
Qed.

(** What a target names: a branch when its reference file exists, else a
    commit when an object of that name loads. *)
Lemma resolve_target_spec (target : string) (st : Repo) :
  (resolve_target target st).2 =
    match disk st !! branch_path target with
    | Some h => Ok (h, true)
    | None =>
        match lookup_commit (disk st) target with
        | Ok _ => Ok (target, false)
        | Throw _ => Throw (runtime_error ("Invalid branch or commit: " +:+ target))
        end
    end.
Proof.
  unfold resolve_target. mg_unfold. fold (branch_path target).
  destruct (disk st !! branch_path target) as [h|] eqn:Hb.
  - rewrite bool_decide_eq_true_2 by eauto. by rewrite Hb.
  - rewrite bool_decide_eq_false_2 by (rewrite ?Hb; by intros [? ?]).
    by destruct (lookup_commit (disk st) target).
Qed.

(** X9.  A [checkout] whose commit does not load changes nothing: a target
    that is neither a branch nor a loadable commit is reported as
    [Invalid branch or commit], and for a branch whose reference names no
    loadable commit (a branch without commits, a dangling reference) the
    failure of the load is passed on. *)
Theorem checkout_unloadable_target (target : string) (e : exn) (st : Repo) :
  lookup_commit (disk st) (default target (disk st !! branch_path target)) = Throw e →
  checkout target st =
    (st, Throw (match disk st !! branch_path target with
                | Some _ => e
                | None => runtime_error ("Invalid branch or commit: " +:+ target)
                end)).
Proof.
  intros Hload. rewrite checkout_unfold, resolve_target_spec.
  destruct (disk st !! branch_path target) as [h|]; simpl in Hload; by rewrite Hload.
Qed.

(** X10.  After a successful [checkout] HEAD resolves to the target commit:
    HEAD names the branch when the target is a branch, and holds the digest
    itself otherwise (a digest that does not begin with the marker of a
    symbolic reference); the staging map in memory is empty. *)
Theorem checkout_then_head (target targetHash : string) (isBranch : bool) (st st' : Repo) :
  (resolve_target target st).2 = Ok (targetHash, isBranch) →
  (isBranch = false → starts_with "ref: " targetHash = false) →
  checkout target st = (st', Ok tt) →
  getHeadCommitHash st' = (st', Ok targetHash)
  ∧ disk st' !! HEAD_FILE
    = Some (if isBranch then "ref: refs/heads/" +:+ target else targetHash)
  ∧ stagingArea st' = ∅.
Proof.
  intros Hres Hraw Hcheckout. rewrite checkout_unfold, Hres in Hcheckout.
  destruct (lookup_commit (disk st) targetHash) as [c|]; [|done].
  destruct (for_each _ _ _) as [st1 [[]|]]; [|done].
  destruct (updateHead _ _ _ _) as [st2 [[]|]] eqn:Hupd; [|done].
  injection Hcheckout as <-. apply updateHead_Ok in Hupd. subst st2.
  rewrite getHeadCommitHash_head_hash. unfold head_hash.
  destruct isBranch; cbn [disk stagingArea]; rewrite lookup_insert_eq.
  - split_and!; try done.
    change (starts_with "ref: " ("ref: refs/heads/" +:+ target)) with true. cbv iota.
    change (MINIGIT_DIR +:+ "/" +:+ drop_chars 5 ("ref: refs/heads/" +:+ target))
      with (branch_path target).
    rewrite lookup_insert_ne by (apply not_eq_sym, branch_path_ne_head).
    by rewrite lookup_insert_eq.
  - by rewrite Hraw.
Qed.

(** *** Listing the history *)

Lemma Repo_eta (st : Repo) : mkRepo (disk st) (stagingArea st) (cout st) = st.
Proof. by destruct st. Qed.

Lemma log_loop_chain (d : gmap string string) (h : string) (cs : list CommitNode) :
  first_parent_chain d h cs →
  ∀ fuel st, disk st = d → (length cs ≤ fuel)%nat →
  log_loop fuel h st =
    (mkRepo (disk st) (stagingArea st) (cout st +:+ concat_text (log_entry <$> cs)),
     Ok true).
Proof.
  induction 1 as [|h c Hne Hc Hroot|h c parent others cs Hne Hc Hparents Hchain IH];
    intros fuel st Hd Hfuel.
  - destruct fuel; simpl; unfold mret, M_ret, ret;
      by rewrite append_nil_r, Repo_eta.
  - destruct fuel as [|fuel]; [simpl in Hfuel; lia|].
    simpl. apply str_empty_false in Hne. rewrite Hne. mg_unfold.
    rewrite Hd, Hc, Hroot. simpl. by rewrite append_nil_r.
  - destruct fuel as [|fuel]; [simpl in Hfuel; lia|].
    cbn [log_loop]. apply str_empty_false in Hne. rewrite Hne. mg_unfold.
    rewrite Hd, Hc, Hparents.
    rewrite IH; [|by simpl|simpl in *; lia].
    cbn [disk stagingArea cout]. rewrite fmap_cons. cbn [concat_text foldr].
    by rewrite append_assoc.
Qed.

Lemma first_parent_chain_frame (d d' : gmap string string) (h : string)
    (cs : list CommitNode) :
  (∀ h', is_Some (d !! object_path h') → d' !! object_path h' = d !! object_path h') →
  first_parent_chain d h cs → first_parent_chain d' h cs.
Proof.
  intros Hsame. 
  assert (∀ h' c, lookup_commit d h' = Ok c → lookup_commit d' h' = Ok c) as Hlookup.
  { intros h' c. unfold lookup_commit. fold (object_path h').
    destruct (d !! object_path h') as [content|] eqn:Hobj; [|done].
    rewrite Hsame by (rewrite Hobj; eauto). by rewrite Hobj. }
  induction 1; econstructor; eauto.
Qed.

(** X11.  [log] prints the commits along the first parents from the commit
    HEAD resolves to, newest first, each with its digest, date and message,
    and stops at the first commit without parents; second parents of merge
    commits are not visited.  Without a current commit it prints a notice.
    It ends within as many iterations as the chain has commits, and leaves
    the disk and the staging map as they are. *)
Theorem log_lists_first_parents (head : string) (cs : list CommitNode) (fuel : nat)
    (st : Repo) :
  (getHeadCommitHash st).2 = Ok head →
  first_parent_chain (disk st) head cs →
  (length cs ≤ fuel)%nat →
  log fuel st =
    (mkRepo (disk st) (stagingArea st)
            (cout st +:+ (if str_empty head then "No commits yet" +:+ nl
                          else concat_text (log_entry <$> cs))),
     Ok true).
Proof.
  intros Hhead Hchain Hfuel. unfold log.
  unfold mbind at 1, M_bind at 1, bind at 1.
  rewrite getHeadCommitHash_reads, Hhead.
  destruct (str_empty head) eqn:Hempty.
  - by mg_unfold.
  - by apply (log_loop_chain (disk st)).
Qed.

(** X12.  After a successful [commit] on a history that [log] lists as [cs],
    [log] lists the new commit first, followed by [cs].  The new commit is
    stored under a digest that is not empty and was no object before, and the
    serialisation reads back what it wrote for it. *)
Theorem log_after_commit (message parentHash : string) (c : CommitNode)
    (cs : list CommitNode) (fuel : nat) (st st' : Repo) :
  c = CommitNode_new message (if str_empty parentHash then [] else [parentHash])
                     (stagingArea st) →
  deserialize (serialize c) = Some c →
  getHash c ≠ "" →
  disk st !! object_path (getHash c) = None →
  stagingArea st ≠ ∅ →
  (getHeadCommitHash st).2 = Ok parentHash →
  first_parent_chain (disk st) parentHash cs →
  commit message st = (st', Ok tt) →
  (length cs < fuel)%nat →
  log fuel st' =
    (mkRepo (disk st') (stagingArea st')
            (cout st' +:+ log_entry c +:+ concat_text (log_entry <$> cs)),
     Ok true).
Proof.
  intros Hc Hser Hne Hfresh Hstaged Hhead Hchain Hcommit Hfuel.
  pose proof (commit_Ok _ _ _ _ Hstaged Hhead Hcommit) as Hok. cbv zeta in Hok.
  destruct Hok as [Hdisk _]. rewrite <-Hc in Hdisk.
  assert (getHeadCommitHash st' = (st', Ok (getHash c))) as Hhead'.
  { rewrite (head_resolves_branch _ "master").
    - rewrite Hdisk.
      rewrite lookup_insert_ne by (apply not_eq_sym, branch_path_ne_index).
      rewrite lookup_insert_ne by (apply not_eq_sym, branch_path_ne_head).
      by rewrite lookup_insert_eq.
    - rewrite Hdisk. rewrite lookup_insert_ne by (apply not_eq_sym, head_ne_index).
      by rewrite lookup_insert_eq. }
  assert (∀ h, h ≠ getHash c → disk st' !! object_path h = disk st !! object_path h)
    as Hobjects.
  { intros h Hh. rewrite Hdisk.
    rewrite lookup_insert_ne by (apply not_eq_sym, object_path_ne_index).
    rewrite lookup_insert_ne by (apply not_eq_sym, object_path_ne_head).
    rewrite lookup_insert_ne by (apply not_eq_sym, object_path_ne_branch).
    rewrite lookup_insert_ne; [done|]. intros Heq. by apply object_path_inj in Heq. }
  assert (lookup_commit (disk st') (getHash c) = Ok c) as Hload.
  { unfold lookup_commit. fold (object_path (getHash c)). rewrite Hdisk.
    rewrite lookup_insert_ne by (apply not_eq_sym, object_path_ne_index).
    rewrite lookup_insert_ne by (apply not_eq_sym, object_path_ne_head).
    rewrite lookup_insert_ne by (apply not_eq_sym, object_path_ne_branch).
    by rewrite lookup_insert_eq, Hser. }
  assert (first_parent_chain (disk st') parentHash cs) as Hchain'.
  { apply (first_parent_chain_frame (disk st)); [|done].
    intros h [content Hobj]. apply Hobjects. intros ->. congruence. }
  assert (first_parent_chain (disk st') (getHash c) (c :: cs)) as Hnew.
  { destruct (str_empty parentHash) eqn:Hparent.
    - apply str_empty_true in Hparent. subst parentHash.
      inversion Hchain; subst cs; try done.
      apply chain_root; try done. by rewrite Hc.
    - apply (chain_step _ _ _ parentHash []); try done. by rewrite Hc. }
  unfold log. unfold mbind at 1, M_bind at 1, bind at 1. rewrite Hhead'.
  apply str_empty_false in Hne. rewrite Hne.
  rewrite (log_loop_chain _ _ _ Hnew) by (simpl; first [done | lia]).
  by rewrite fmap_cons.
Qed.

Lemma log_loop_frame (fuel : nat) :
  ∀ h st, disk (log_loop fuel h st).1 = disk st
          ∧ stagingArea (log_loop fuel h st).1 = stagingArea st.
Proof.
  induction fuel as [|fuel IH]; intros h st.
  - simpl. by destruct (str_empty h).
  - cbn [log_loop]. destruct (str_empty h); [done|]. mg_unfold.
    destruct (lookup_commit (disk st) h) as [c|e]; [|done].
    destruct (getParentHashes c) as [|parent others]; [done|].
    by destruct (IH parent (mkRepo (disk st) (stagingArea st) (cout st +:+ log_entry c)))
      as [-> ->].
Qed.

(** X13.  [log] is a read-only command whatever the history holds and
    however far it is followed: the disk and the staging map are unchanged
    on every outcome, and a commit of the chain that is not stored ends it
    with the error naming its digest. *)
Theorem log_read_only (fuel : nat) (st : Repo) :
  disk (log fuel st).1 = disk st
  ∧ stagingArea (log fuel st).1 = stagingArea st
  ∧ ∀ head, (getHeadCommitHash st).2 = Ok head → head ≠ "" →
            disk st !! object_path head = None →
            (log (S fuel) st).2 = Throw (runtime_error ("Commit not found: " +:+ head)).
Proof.
  unfold log. mg_unfold. rewrite getHeadCommitHash_reads.
  destruct (getHeadCommitHash st).2 as [head|e] eqn:Hhead; [|done].
  split_and!.
  - destruct (str_empty head); [done|]. apply log_loop_frame.
  - destruct (str_empty head); [done|]. apply log_loop_frame.
  - intros ? [= <-] Hne Hobj. apply str_empty_false in Hne. rewrite Hne.
    cbn [log_loop]. rewrite Hne. mg_unfold. unfold lookup_commit.
    fold (object_path head). by rewrite Hobj.
Qed.

(** *** Comparing snapshots *)

Lemma for_each_invariant {A} (R : Repo → Prop) (body : A → M unit) (xs : list A) :
  (∀ x st, R st → R (body x st).1) →
  ∀ st, R st → R (for_each xs body st).1.
Proof.
  intros Hbody. induction xs as [|x xs IH]; intros st HR; [done|].
  simpl. unfold mbind at 1, M_bind at 1, bind at 1.
  specialize (Hbody x st HR).
  destruct (body x st) as [st1 [[]|e]]; [|done]. by apply IH.
Qed.

Lemma diff_file_frame (compareWD : bool) (files1 files2 : gmap string string)
    (file : string) (st : Repo) :
  disk (diff_file compareWD files1 files2 file st).1 = disk st
  ∧ stagingArea (diff_file compareWD files1 files2 file st).1 = stagingArea st.
Proof.
  unfold diff_file, printDiff, getWorkingDirectoryFileContent, getBlobContent.
  mg_unfold.
  destruct (files1 !! file) as [blob1|], (files2 !! file) as [blob2|]; try done.
  - destruct (bool_decide (blob1 = blob2)); [done|]. cbn [disk].
    destruct (disk st !! (OBJECTS_DIR +:+ "/" +:+ blob1)); [|done].
    destruct compareWD; [done|]. cbn [disk].
    by destruct (disk st !! (OBJECTS_DIR +:+ "/" +:+ blob2)).
  - cbn [disk]. by destruct (disk st !! (OBJECTS_DIR +:+ "/" +:+ blob1)).
  - destruct compareWD; [done|]. cbn [disk].
    by destruct (disk st !! (OBJECTS_DIR +:+ "/" +:+ blob2)).
Qed.

Lemma diff_files_frame (compareWD : bool) (files1 files2 : gmap string string)
    (files : list string) (st : Repo) :
  disk (for_each files (diff_file compareWD files1 files2) st).1 = disk st
  ∧ stagingArea (for_each files (diff_file compareWD files1 files2) st).1
    = stagingArea st.
Proof.
  apply (for_each_invariant
           (λ s, disk s = disk st ∧ stagingArea s = stagingArea st)); [|done].
  intros file s [Hd Hs].
  destruct (diff_file_frame compareWD files1 files2 file s) as [-> ->]. done.
Qed.

Lemma diff_same_files (compareWD : bool) (files : gmap string string)
    (paths : list string) (st : Repo) :
  for_each paths (diff_file compareWD files files) st = (st, Ok tt).
Proof.
  induction paths as [|file paths IH]; [done|].
  simpl. unfold mbind at 1, M_bind at 1, bind at 1.
  assert (diff_file compareWD files files file st = (st, Ok tt)) as ->; [|done].
  unfold diff_file. destruct (files !! file) as [blob|]; [|done].
  by rewrite bool_decide_eq_true_2.
Qed.

(** [diff] step by step, [hash1] being the first commit it settles on. *)
Lemma diff_unfold (commit1_hash commit2_hash hash1 : string) (st : Repo) :
  (if str_empty commit1_hash then (getHeadCommitHash st).2 else Ok commit1_hash)
    = Ok hash1 →
  diff commit1_hash commit2_hash st =
    if str_empty hash1 then
      (mkRepo (disk st) (stagingArea st) (cout st +:+ "No commits to compare" +:+ nl),
       Ok tt)
    else
      match lookup_commit (disk st) hash1 with
      | Throw e => (st, Throw e)
      | Ok commit1 =>
          if str_empty commit2_hash then
            for_each (set_in_order (dom (getFileBlobs commit1)
                                    ∪ dom (working_snapshot (disk st))))
                     (diff_file true (getFileBlobs commit1) (working_snapshot (disk st)))
                     (mkRepo (disk st) (stagingArea st)
                             (cout st +:+ "Comparing working directory against commit " +:+
                                short_hash hash1 +:+ ":" +:+ nl))
          else
            match lookup_commit (disk st) commit2_hash with
            | Throw e => (st, Throw e)
            | Ok commit2 =>
                for_each (set_in_order (dom (getFileBlobs commit1)
                                        ∪ dom (getFileBlobs commit2)))
                         (diff_file false (getFileBlobs commit1) (getFileBlobs commit2))
                         (mkRepo (disk st) (stagingArea st)
                                 (cout st +:+ "Comparing commit " +:+ short_hash hash1 +:+
                                    " with " +:+ short_hash commit2_hash +:+ ":" +:+ nl))
            end
      end.
Proof.
  intros Hhash1. unfold diff. cbv zeta.
  unfold mbind at 1, M_bind at 1, bind at 1.
  assert ((if str_empty commit1_hash then getHeadCommitHash
           else mret commit1_hash) st = (st, Ok hash1)) as ->.
  { destruct (str_empty commit1_hash).
    - by rewrite getHeadCommitHash_reads, Hhash1.
    - by simplify_eq. }
  destruct (str_empty hash1); [done|].
  unfold mbind at 1, M_bind at 1, bind at 1. unfold loadCommit at 1.
  destruct (lookup_commit (disk st) hash1) as [commit1|e]; [|done].
  unfold mbind at 1, M_bind at 1, bind at 1.
  destruct (str_empty commit2_hash).
  - by mg_unfold.
  - mg_unfold. by destruct (lookup_commit (disk st) commit2_hash) as [commit2|e].
Qed.

(** X14.  [diff] is a read-only command: in both modes and on every outcome
    the disk and the staging map are unchanged.  Without a first digest and
    without a current commit it prints a notice and ends, a second digest
    being given or not. *)
Theorem diff_read_only (commit1_hash commit2_hash : string) (st : Repo) :
  disk (diff commit1_hash commit2_hash st).1 = disk st
  ∧ stagingArea (diff commit1_hash commit2_hash st).1 = stagingArea st
  ∧ (commit1_hash = "" → (getHeadCommitHash st).2 = Ok "" →
     diff commit1_hash commit2_hash st =
       (mkRepo (disk st) (stagingArea st) (cout st +:+ "No commits to compare" +:+ nl),
        Ok tt)).
Proof.
  assert (∃ hash1, (if str_empty commit1_hash then (getHeadCommitHash st).2
                    else Ok commit1_hash) = Ok hash1) as [hash1 Hhash1].
  { destruct (str_empty commit1_hash); [|eauto].
    destruct (getHeadCommitHash_Ok st) as [head ->]. eauto. }
  split_and!.
  - rewrite (diff_unfold _ _ _ _ Hhash1).
    destruct (str_empty hash1); [done|].
    destruct (lookup_commit (disk st) hash1) as [commit1|e]; [|done].
    destruct (str_empty commit2_hash).
    + by destruct (diff_files_frame true (getFileBlobs commit1)
                     (working_snapshot (disk st))
                     (set_in_order (dom (getFileBlobs commit1)
                                    ∪ dom (working_snapshot (disk st))))
                     (mkRepo (disk st) (stagingArea st)
                             (cout st +:+ "Comparing working directory against commit " +:+
                                short_hash hash1 +:+ ":" +:+ nl))) as [-> _].
    + destruct (lookup_commit (disk st) commit2_hash) as [commit2|e]; [|done].
      by destruct (diff_files_frame false (getFileBlobs commit1) (getFileBlobs commit2)
                     (set_in_order (dom (getFileBlobs commit1)
                                    ∪ dom (getFileBlobs commit2)))
                     (mkRepo (disk st) (stagingArea st)
                             (cout st +:+ "Comparing commit " +:+ short_hash hash1 +:+
                                " with " +:+ short_hash commit2_hash +:+ ":" +:+ nl)))
        as [-> _].
  - rewrite (diff_unfold _ _ _ _ Hhash1).
    destruct (str_empty hash1); [done|].
    destruct (lookup_commit (disk st) hash1) as [commit1|e]; [|done].
    destruct (str_empty commit2_hash).
    + by destruct (diff_files_frame true (getFileBlobs commit1)
                     (working_snapshot (disk st))
                     (set_in_order (dom (getFileBlobs commit1)
                                    ∪ dom (working_snapshot (disk st))))
                     (mkRepo (disk st) (stagingArea st)
                             (cout st +:+ "Comparing working directory against commit " +:+
                                short_hash hash1 +:+ ":" +:+ nl))) as [_ ->].
    + destruct (lookup_commit (disk st) commit2_hash) as [commit2|e]; [|done].
      by destruct (diff_files_frame false (getFileBlobs commit1) (getFileBlobs commit2)
                     (set_in_order (dom (getFileBlobs commit1)
                                    ∪ dom (getFileBlobs commit2)))
                     (mkRepo (disk st) (stagingArea st)
                             (cout st +:+ "Comparing commit " +:+ short_hash hash1 +:+
                                " with " +:+ short_hash commit2_hash +:+ ":" +:+ nl)))
        as [_ ->].
  - intros -> Hhead. by rewrite (diff_unfold "" commit2_hash "" st Hhead).
Qed.

(** X15.  Comparing two stored commits that record the same files (a commit
    with itself above all) prints the heading and nothing else, and cannot
    fail: no blob is read. *)
Theorem diff_same_snapshot (commit1_hash commit2_hash : string)
    (commit1 commit2 : CommitNode) (st : Repo) :
  commit1_hash ≠ "" → commit2_hash ≠ "" →
  lookup_commit (disk st) commit1_hash = Ok commit1 →
  lookup_commit (disk st) commit2_hash = Ok commit2 →
  getFileBlobs commit1 = getFileBlobs commit2 →
  diff commit1_hash commit2_hash st =
    (mkRepo (disk st) (stagingArea st)
            (cout st +:+ "Comparing commit " +:+ short_hash commit1_hash +:+ " with " +:+
               short_hash commit2_hash +:+ ":" +:+ nl),
     Ok tt).
Proof.
  intros Hne1 Hne2 Hc1 Hc2 Hfiles.
  apply str_empty_false in Hne1, Hne2.
  rewrite (diff_unfold _ _ commit1_hash) by (by rewrite Hne1).
  rewrite Hne1, Hne2, Hc1, Hc2, Hfiles.
  by rewrite diff_same_files.
Qed.



(** *** What a merge records and what it leaves *)

Lemma for_fold_invariant {A B} (R : Repo → Prop) (body : A → B → M B) (xs : list A) :
  (∀ x acc st, R st → R (body x acc st).1) →
  ∀ acc st, R st → R (for_fold xs body acc st).1.
Proof.
  intros Hbody. induction xs as [|x xs IH]; intros acc st HR; [done|].
  rewrite for_fold_cons. specialize (Hbody x acc st HR).
  destruct (body x acc st) as [st1 [acc1|e]]; [|done]. by apply IH.
Qed.

(** The loop body removes no file: the test that guards the removal is tried
    after two tests of which one holds whenever it does. *)
Lemma merge_file_keeps branchName lcaFiles targetFiles file acc st p :
  is_Some (disk st !! p) →
  is_Some (disk (merge_file branchName lcaFiles targetFiles file acc st).1 !! p).
Proof.
  intros Hp. unfold merge_file. cbv zeta.
  generalize (default "" (lcaFiles !! file)) (default "" (acc.2 !! file))
             (default "" (targetFiles !! file)).
  intros a c t.
  assert (∀ blob content,
            is_Some (disk ((getBlobContent blob ≫= λ content : string,
                              writeToFile file content ≫= λ _ : bool,
                                mret (acc.1, <[file:=blob]> acc.2))
                             (mkRepo (disk st) (stagingArea st) content)).1 !! p))
    as Htake.
  { intros blob content. mg_unfold_all. cbn [disk].
    destruct (disk st !! (OBJECTS_DIR +:+ "/" +:+ blob)); [|done].
    destruct (writable file); [|done]. cbn [disk].
    destruct (decide (p = file)) as [->|?].
    - rewrite lookup_insert_eq. eauto.
    - by rewrite lookup_insert_ne. }
  destruct (str_empty a && str_empty c) eqn:E1.
  { unfold mbind at 1, M_bind at 1, bind at 1. unfold print at 1. apply Htake. }
  destruct (negb (str_empty a) && bool_decide (c = a) && negb (bool_decide (t = a))) eqn:E2.
  { unfold mbind at 1, M_bind at 1, bind at 1. unfold print at 1. apply Htake. }
  destruct (negb (str_empty a) && negb (bool_decide (c = a))
            && negb (bool_decide (t = a)) && negb (bool_decide (c = t))) eqn:E3.
  { mg_unfold_all. cbn [disk].
    destruct (disk st !! (OBJECTS_DIR +:+ "/" +:+ c)); [|done]. cbn [disk].
    destruct (disk st !! (OBJECTS_DIR +:+ "/" +:+ t)); [|done].
    destruct (writable file); [|done]. cbn [disk].
    destruct (decide (p = file)) as [->|?].
    - rewrite lookup_insert_eq. eauto.
    - by rewrite lookup_insert_ne. }
  destruct (negb (str_empty a) && negb (str_empty c) && str_empty t) eqn:E4.
  { destruct (delete_branch_shadowed a c t E4); congruence. }
  done.
Qed.

Lemma merge_commits_keeps branchName currentHash targetHash
    currentCommit targetCommit lcaCommit st p :
  is_Some (disk st !! p) →
  is_Some (disk (merge_commits branchName currentHash targetHash
                               currentCommit targetCommit lcaCommit st).1 !! p).
Proof.
  intros Hp. unfold merge_commits. cbv zeta.
  unfold mbind at 1, M_bind at 1, bind at 1.
  pose proof (for_fold_invariant (λ s, is_Some (disk s !! p))
                (merge_file branchName (getFileBlobs lcaCommit) (getFileBlobs targetCommit))
                (allFiles (getFileBlobs currentCommit) (getFileBlobs targetCommit)
                          (getFileBlobs lcaCommit))
                (λ x acc s Hs, merge_file_keeps _ _ _ x acc s p Hs)
                (false, getFileBlobs currentCommit) st Hp) as Hloop.
  destruct (for_fold _ _ _ _) as [st1 [[flag mergedFiles]|e]]; [|done].
  simpl in Hloop. cbn [fst snd]. destruct flag; [by mg_unfold|].
  unfold merge_commit. cbv zeta.
  set (c := CommitNode_new _ _ _).
  unfold mbind at 1, M_bind at 1, bind at 1. unfold writeToFile at 1.
  destruct (writable (OBJECTS_DIR +:+ "/" +:+ getHash c)); cbn [negb]; [|done].
  unfold mbind at 1, M_bind at 1, bind at 1.
  set (st2 := mkRepo _ _ _).
  assert (is_Some (disk st2 !! p)) as Hp2.
  { unfold st2. cbn [disk].
    destruct (decide (p = OBJECTS_DIR +:+ "/" +:+ getHash c)) as [->|?].
    - rewrite lookup_insert_eq. eauto.
    - by rewrite lookup_insert_ne. }
  destruct (updateHead_frame (getHash c) "master" true st2) as (_ & _ & Hkeep).
  specialize (Hkeep p Hp2).
  destruct (updateHead (getHash c) true "master" st2) as [st3 [[]|e]]; [|done].
  by mg_unfold.
Qed.

(** X17.  Whatever its outcome, [merge] removes no file from the disk: a
    path that holds a file before holds one afterwards, also a path the
    merged branch deleted. *)
Theorem merge_never_deletes (branchName : string) (st : Repo) (p : string) :
  is_Some (disk st !! p) → is_Some (disk (merge branchName st).1 !! p).
Proof.
  intros Hp. unfold merge, findLCA. mg_unfold.
  rewrite getHeadCommitHash_reads.
  destruct (getHeadCommitHash st).2 as [currentHash|e]; [|done].
  destruct (str_empty currentHash); [done|].
  destruct (disk st !! (HEADS_DIR +:+ "/" +:+ branchName)) as [targetHash|]; [|done].
  case_bool_decide; [done|]. cbn [disk].
  destruct (lookup_commit (disk st) currentHash) as [currentCommit|]; [|done].
  destruct (lookup_commit (disk st) targetHash) as [targetCommit|]; [|done].
  destruct (str_empty (findLCA_on (disk st) currentHash targetHash)).
  - by apply merge_commits_keeps.
  - cbn [disk].
    destruct (lookup_commit (disk st) (findLCA_on (disk st) currentHash targetHash))
      as [lcaCommit|]; [|done].
    by apply merge_commits_keeps.
Qed.

(** What one iteration that neither throws nor raises the flag leaves in
    [mergedFiles]. *)
Lemma merge_file_merged branchName lcaFiles targetFiles file flag mergedFiles st st'
    mergedFiles' :
  merge_file branchName lcaFiles targetFiles file (flag, mergedFiles) st
    = (st', Ok (false, mergedFiles')) →
  mergedFiles' =
    if takes_target (blob_of lcaFiles file) (blob_of mergedFiles file)
                    (blob_of targetFiles file)
    then <[file:=blob_of targetFiles file]> mergedFiles else mergedFiles.
Proof.
  unfold merge_file, takes_target. cbn [fst snd]. fold (blob_of lcaFiles file).
  fold (blob_of mergedFiles file). fold (blob_of targetFiles file).
  generalize (blob_of lcaFiles file) (blob_of mergedFiles file) (blob_of targetFiles file).
  intros a c t.
  destruct (str_empty a && str_empty c) eqn:E1.
  { mg_unfold_all. cbn [orb disk].
    destruct (disk st !! (OBJECTS_DIR +:+ "/" +:+ t)); [|done].
    destruct (writable file); by intros [= _ _ <-]. }
  destruct (negb (str_empty a) && bool_decide (c = a) && negb (bool_decide (t = a))) eqn:E2.
  { mg_unfold_all. cbn [orb disk].
    destruct (disk st !! (OBJECTS_DIR +:+ "/" +:+ t)); [|done].
    destruct (writable file); by intros [= _ _ <-]. }
  cbn [orb].
  destruct (negb (str_empty a) && negb (bool_decide (c = a))
            && negb (bool_decide (t = a)) && negb (bool_decide (c = t))) eqn:E3.
  { mg_unfold_all. cbn [disk].
    destruct (disk st !! (OBJECTS_DIR +:+ "/" +:+ c)); [|done]. cbn [disk].
    destruct (disk st !! (OBJECTS_DIR +:+ "/" +:+ t)); [|done].
    by destruct (writable file). }
  destruct (negb (str_empty a) && negb (str_empty c) && str_empty t) eqn:E4.
  { destruct (delete_branch_shadowed a c t E4); congruence. }
  mg_unfold. by intros [= _ _ <-].
Qed.

Lemma merge_loop_merged branchName lcaFiles targetFiles files :
  ∀ flag mergedFiles st st' mergedFiles',
  NoDup files →
  for_fold files (merge_file branchName lcaFiles targetFiles) (flag, mergedFiles) st
    = (st', Ok (false, mergedFiles')) →
  ∀ f, mergedFiles' !! f =
         if bool_decide (f ∈ files)
            && takes_target (blob_of lcaFiles f) (blob_of mergedFiles f)
                            (blob_of targetFiles f)
         then Some (blob_of targetFiles f) else mergedFiles !! f.
Proof.
  induction files as [|file files IH];
    intros flag mergedFiles st st' mergedFiles' Hnodup Hloop f.
  - cbv in Hloop. simplify_eq.
    rewrite bool_decide_eq_false_2; [done|]. apply not_elem_of_nil.
  - apply NoDup_cons in Hnodup as [Hfresh Hnodup].
    rewrite for_fold_cons in Hloop.
    destruct (merge_file branchName lcaFiles targetFiles file (flag, mergedFiles) st)
      as [st1 [[flag1 merged1]|e]] eqn:Hstep; [|done].
    pose proof (merge_loop_step _ _ _ _ _ _ _ _ _ Hnodup Hloop) as (_ & _ & Hflag & _ & Hrest).
    destruct flag1; [by specialize (Hflag eq_refl)|].
    apply merge_file_merged in Hstep.
    rewrite (IH _ _ _ _ _ Hnodup Hloop f).
    destruct (decide (f = file)) as [->|Hne].
    + rewrite (bool_decide_eq_false_2 (file ∈ files)) by done.
      rewrite bool_decide_eq_true_2 by (apply elem_of_cons; by left).
      cbn [andb]. rewrite Hstep.
      destruct (takes_target _ _ _); [|done]. by rewrite lookup_insert_eq.
    + assert (merged1 !! f = mergedFiles !! f) as Hsame.
      { rewrite Hstep. destruct (takes_target _ _ _); [|done].
        by rewrite lookup_insert_ne. }
      unfold blob_of at 2 5. rewrite Hsame.
      destruct (decide (f ∈ files)).
      * rewrite !bool_decide_eq_true_2; [done| |done]. apply elem_of_cons. by right.
      * rewrite !bool_decide_eq_false_2; [done| |done].
        intros [?|?]%elem_of_cons; done.
Qed.

(** X18.  A merge that ends with a commit has stored, under the digest it
    reports, the serialisation of a commit named after the merged branch
    whose parents are the current tip and then the tip of the branch, and
    whose files are those of the current commit except on the paths where
    the loop takes the target: there the file is recorded with the digest it
    has in the target, the empty digest for a path the target deleted. *)
Theorem merge_commit_contents (branchName currentHash targetHash digest : string)
    (currentCommit targetCommit lcaCommit : CommitNode) (st st' : Repo) :
  (getHeadCommitHash st).2 = Ok currentHash →
  currentHash ≠ "" →
  disk st !! branch_path branchName = Some targetHash →
  currentHash ≠ targetHash →
  lookup_commit (disk st) currentHash = Ok currentCommit →
  lookup_commit (disk st) targetHash = Ok targetCommit →
  lookup_merge_base (disk st) currentHash targetHash = Ok lcaCommit →
  merge branchName st = (st', Ok (Merged digest)) →
  ∃ mergedFiles,
    digest = getHash (CommitNode_new ("Merge branch '" +:+ branchName +:+ "'")
                                     [currentHash; targetHash] mergedFiles)
    ∧ disk st' !! object_path digest =
        Some (serialize (CommitNode_new ("Merge branch '" +:+ branchName +:+ "'")
                                        [currentHash; targetHash] mergedFiles))
    ∧ ∀ f, mergedFiles !! f =
             if bool_decide (f ∈ dom (getFileBlobs currentCommit)
                               ∪ dom (getFileBlobs targetCommit)
                               ∪ dom (getFileBlobs lcaCommit))
                && takes_target (blob_of (getFileBlobs lcaCommit) f)
                                (blob_of (getFileBlobs currentCommit) f)
                                (blob_of (getFileBlobs targetCommit) f)
             then Some (blob_of (getFileBlobs targetCommit) f)
             else getFileBlobs currentCommit !! f.
Proof. drop_order.
  clear calculateHash.
  intros Hhead Hne Hbranch Hdiff Hcur Htgt Hlca Hmerge.
  destruct (merge_unfold _ _ _ _ _ _ _ Hhead Hne Hbranch Hdiff Hcur Htgt Hlca)
    as [out Hunfold].
  rewrite Hunfold in Hmerge. clear Hunfold.
  revert Hmerge. unfold merge_commits. cbv zeta.
  unfold mbind at 1, M_bind at 1, bind at 1.
  destruct (for_fold _ _ _ _) as [st1 [[flag mergedFiles]|e]] eqn:Hloop; [|done].
  cbn [fst snd]. destruct flag; [by mg_unfold|].
  intros Hcommit. exists mergedFiles.
  pose proof (merge_commit_Ok _ _ _ _ _ _ _ Hcommit) as Hok. cbv zeta in Hok.
  destruct Hok as ([= ->] & Hdisk & _).
  split_and!.
  - done.
  - rewrite Hdisk.
    rewrite lookup_insert_ne by (apply not_eq_sym, object_path_ne_head).
    rewrite lookup_insert_ne by (apply not_eq_sym, object_path_ne_branch).
    by rewrite lookup_insert_eq.
  - intros f.
    rewrite (merge_loop_merged _ _ _ _ _ _ _ _ _ (allFiles_NoDup _ _ _) Hloop f).
    destruct (decide (f ∈ dom (getFileBlobs currentCommit)
                        ∪ dom (getFileBlobs targetCommit)
                        ∪ dom (getFileBlobs lcaCommit))) as [Hin|Hout].
    + rewrite !bool_decide_eq_true_2; [done|done|].
      apply elem_of_allFiles. set_solver.
    + rewrite !bool_decide_eq_false_2; [done|done|].
      rewrite elem_of_allFiles. set_solver.
Qed.

(** *** What a merge leaves in the working directory *)

Lemma merge_file_written branchName lcaFiles targetFiles file flag mergedFiles st st1 acc :
  writable file = true →
  merge_file branchName lcaFiles targetFiles file (flag, mergedFiles) st = (st1, Ok acc) →
  takes_target (blob_of lcaFiles file) (blob_of mergedFiles file)
               (blob_of targetFiles file) = true →
  ∃ content, disk st !! object_path (blob_of targetFiles file) = Some content
             ∧ disk st1 !! file = Some content.
Proof.
  intros Hw. unfold merge_file, takes_target. cbn [fst snd]. fold (blob_of lcaFiles file).
  fold (blob_of mergedFiles file). fold (blob_of targetFiles file).
  generalize (blob_of lcaFiles file) (blob_of mergedFiles file) (blob_of targetFiles file).
  intros a c t.
  destruct (str_empty a && str_empty c) eqn:E1.
  { mg_unfold_all. cbn [disk]. fold (object_path t).
    destruct (disk st !! object_path t) as [content|]; [|done].
    rewrite Hw. intros [= <- _] _. exists content. split; [done|].
    cbn [disk]. by rewrite lookup_insert_eq. }
  destruct (negb (str_empty a) && bool_decide (c = a) && negb (bool_decide (t = a))) eqn:E2.
  { mg_unfold_all. cbn [disk]. fold (object_path t).
    destruct (disk st !! object_path t) as [content|]; [|done].
    rewrite Hw. intros [= <- _] _. exists content. split; [done|].
    cbn [disk]. by rewrite lookup_insert_eq. }
  done.
Qed.

Lemma merge_loop_written branchName lcaFiles targetFiles files :
  ∀ flag mergedFiles st st1 acc,
  NoDup files →
  (∀ f, f ∈ files → writable f = true ∧ ∀ h, f ≠ object_path h) →
  for_fold files (merge_file branchName lcaFiles targetFiles) (flag, mergedFiles) st
    = (st1, Ok acc) →
  ∀ f, f ∈ files →
       takes_target (blob_of lcaFiles f) (blob_of mergedFiles f)
                    (blob_of targetFiles f) = true →
       ∃ content, disk st !! object_path (blob_of targetFiles f) = Some content
                  ∧ disk st1 !! f = Some content.
Proof.
  induction files as [|file files IH];
    intros flag mergedFiles st st1 acc Hnodup Hpaths Hloop f Hf Htakes.
  { by apply elem_of_nil in Hf. }
  apply NoDup_cons in Hnodup as [Hfresh Hnodup].
  rewrite for_fold_cons in Hloop.
  destruct (merge_file branchName lcaFiles targetFiles file (flag, mergedFiles) st)
    as [st2 [[flag2 merged2]|e]] eqn:Hstep; [|done].
  pose proof (merge_file_step _ _ _ _ _ _ _ _ _ Hstep) as (_ & Hdisk2 & _ & _ & Hmerged2).
  pose proof (merge_loop_step _ _ _ _ _ _ _ _ _ Hnodup Hloop) as (_ & Hdisk1 & _).
  apply elem_of_cons in Hf as [->|Hf].
  - destruct (merge_file_written _ _ _ _ _ _ _ _ _
                (proj1 (Hpaths file ltac:(apply elem_of_cons; by left))) Hstep Htakes)
      as (content & Hobj & Hfile).
    exists content. split; [done|]. by rewrite Hdisk1.
  - assert (f ≠ file) as Hne by (by intros ->).
    assert (∀ f', f' ∈ files → writable f' = true ∧ ∀ h, f' ≠ object_path h) as Hpaths'.
    { intros f' Hf'. apply Hpaths. apply elem_of_cons. by right. }
    assert (takes_target (blob_of lcaFiles f) (blob_of merged2 f)
                         (blob_of targetFiles f) = true) as Htakes'.
    { unfold blob_of at 2. rewrite Hmerged2 by done. done. }
    destruct (IH flag2 merged2 st2 st1 acc Hnodup Hpaths' Hloop f Hf Htakes')
      as (content & Hobj & Hfile).
    + exists content. split; [|done]. rewrite <-Hobj. symmetry. apply Hdisk2.
      intros Heq. by apply (proj2 (Hpaths file ltac:(apply elem_of_cons; by left))
                              (blob_of targetFiles f)).
Qed.

(** X27.  A merge that runs to its end, whether it ends with a commit or
    with conflicts, has written into the working directory the content of
    the target blob for every path on which the loop takes the target
    (tracked paths being writable working paths, not repository metadata).
    After a merge that ended with conflicts these files stay as written,
    although no commit records them. *)
Theorem merge_writes_taken_files (branchName currentHash targetHash : string)
    (currentCommit targetCommit lcaCommit : CommitNode) (r : MergeResult)
    (st st' : Repo) :
  (getHeadCommitHash st).2 = Ok currentHash →
  currentHash ≠ "" →
  disk st !! branch_path branchName = Some targetHash →
  currentHash ≠ targetHash →
  lookup_commit (disk st) currentHash = Ok currentCommit →
  lookup_commit (disk st) targetHash = Ok targetCommit →
  lookup_merge_base (disk st) currentHash targetHash = Ok lcaCommit →
  (∀ f, f ∈ dom (getFileBlobs currentCommit) ∪ dom (getFileBlobs targetCommit)
            ∪ dom (getFileBlobs lcaCommit) →
        writable f = true ∧ f ≠ HEAD_FILE ∧ f ≠ branch_path "master"
        ∧ ∀ h, f ≠ object_path h) →
  merge branchName st = (st', Ok r) →
  ∀ f, f ∈ dom (getFileBlobs currentCommit) ∪ dom (getFileBlobs targetCommit)
           ∪ dom (getFileBlobs lcaCommit) →
       takes_target (blob_of (getFileBlobs lcaCommit) f)
                    (blob_of (getFileBlobs currentCommit) f)
                    (blob_of (getFileBlobs targetCommit) f) = true →
       ∃ content,
         disk st !! object_path (blob_of (getFileBlobs targetCommit) f) = Some content
         ∧ disk st' !! f = Some content.
Proof. drop_order.
  clear calculateHash.
  intros Hhead Hne Hbranch Hdiff Hcur Htgt Hlca Hpaths Hmerge f Hf Htakes.
  destruct (merge_unfold _ _ _ _ _ _ _ Hhead Hne Hbranch Hdiff Hcur Htgt Hlca)
    as [out Hunfold].
  rewrite Hunfold in Hmerge. clear Hunfold.
  revert Hmerge. unfold merge_commits. cbv zeta.
  unfold mbind at 1, M_bind at 1, bind at 1.
  destruct (for_fold _ _ _ _) as [st1 [[flag mergedFiles]|e]] eqn:Hloop; [|done].
  assert (∀ f', f' ∈ allFiles (getFileBlobs currentCommit) (getFileBlobs targetCommit)
                             (getFileBlobs lcaCommit) →
               writable f' = true ∧ ∀ h, f' ≠ object_path h) as Hpaths'.
  { intros f' Hf'. apply elem_of_allFiles in Hf'.
    destruct (Hpaths f') as (? & _ & _ & ?); [set_solver|done]. }
  assert (f ∈ allFiles (getFileBlobs currentCommit) (getFileBlobs targetCommit)
                       (getFileBlobs lcaCommit)) as Hf'.
  { apply elem_of_allFiles. set_solver. }
  destruct (merge_loop_written _ _ _ _ _ _ _ _ _ (allFiles_NoDup _ _ _) Hpaths' Hloop
              f Hf' Htakes) as (content & Hobj & Hfile).
  cbn [disk] in Hobj. exists content. split; [done|].
  revert Hmerge. cbn [fst snd]. destruct flag.
  { mg_unfold. by intros [= <- _]. }
  intros Hcommit.
  pose proof (merge_commit_Ok _ _ _ _ _ _ _ Hcommit) as Hok. cbv zeta in Hok.
  destruct Hok as (_ & Hdisk & _). rewrite Hdisk.
  destruct (Hpaths f Hf) as (_ & Hhead' & Hmaster & Hobjects).
  rewrite !lookup_insert_ne; [done|..]; by apply not_eq_sym.
Qed.

(** *** The ancestor search finds a common ancestor when there is one *)

Lemma push_parents_spec depth parents : ∀ v q,
  (∀ p, p ∈ parents → p ∈ dom (foldl (push_parent depth) (v, q) parents).1)
  ∧ (∀ k, k ∈ dom (foldl (push_parent depth) (v, q) parents).1 →
          k ∈ dom v ∨ k ∈ (foldl (push_parent depth) (v, q) parents).2.*1)
  ∧ (∀ k, k ∈ q.*1 → k ∈ (foldl (push_parent depth) (v, q) parents).2.*1).
Proof. drop_vars.
  induction parents as [|p parents IH]; intros v q.
  { split_and!; [by intros p ?%elem_of_nil|by left|done]. }
  simpl. rewrite push_parent_seen.
  destruct (decide (p ∈ dom v)) as [Hin|Hin].
  - destruct (IH v q) as (Hall & Hnew & Hold). split_and!; [|done..].
    intros p' [->|?]%elem_of_cons; [|by apply Hall].
    by apply (push_parents_grows depth parents v q).
  - destruct (IH (<[p:=S depth]> v) (q ++ [(p, S depth)])%list) as (Hall & Hnew & Hold).
    split_and!.
    + intros p' [->|?]%elem_of_cons; [|by apply Hall].
      apply (push_parents_grows depth parents (<[p:=S depth]> v)).
      rewrite dom_insert_L. set_solver.
    + intros k Hk. apply Hnew in Hk as [Hk|Hk]; [|by right].
      rewrite dom_insert_L, elem_of_union, elem_of_singleton in Hk.
      destruct Hk as [->|Hk]; [|by left].
      right. apply Hold. rewrite fmap_app, elem_of_app. right.
      simpl. apply elem_of_cons. by left.
    + intros k Hk. apply Hold. rewrite fmap_app, elem_of_app. by left.
Qed.

Lemma side_step_expanded d mine other q mine' q' :
  pending_or_expanded d mine q →
  side_step d mine other q = inr (mine', q') →
  pending_or_expanded d mine' q'.
Proof.
  intros Hinv.
  destruct q as [|[current depth] rest]; [by intros [= <- <-]|]. simpl.
  case_bool_decide; [done|].
  destruct (lookup_commit d current) as [c|e] eqn:Hload.
  - intros [= Hfold].
    destruct (push_parents_spec depth (getParentHashes c) mine rest)
      as (Hall & Hnew & Hold).
    pose proof (push_parents_grows depth (getParentHashes c) mine rest) as Hgrows.
    rewrite Hfold in Hall, Hnew, Hold, Hgrows. simpl in *.
    intros k Hk. apply Hnew in Hk as [Hk|Hk]; [|by left].
    destruct (Hinv k Hk) as [Hq|Hexp].
    + rewrite fmap_cons in Hq. apply elem_of_cons in Hq as [->|Hq]; [|left; auto].
      right. intros c' p Hc' Hp. simpl in Hc'. rewrite Hload in Hc'.
      simplify_eq. auto.
    + right. intros c' p Hc' Hp. apply Hgrows. eauto.
  - intros [= <- <-]. intros k Hk.
    destruct (Hinv k Hk) as [Hq|Hexp]; [|by right].
    rewrite fmap_cons in Hq. apply elem_of_cons in Hq as [->|Hq]; [|by left].
    right. intros c' p Hc'. simpl in Hc'. congruence.
Qed.

Lemma side_step_common d mine other q qo mine' q' :
  common_pending mine other q qo →
  side_step d mine other q = inr (mine', q') →
  common_pending mine' other q' qo.
Proof.
  intros Hinv.
  destruct q as [|[current depth] rest]; [by intros [= <- <-]|]. simpl.
  case_bool_decide as Hseen; [done|].
  assert (∀ k, k ∈ dom mine → k ∈ dom other → k ∈ rest.*1 ∨ k ∈ qo.*1) as Hrest.
  { intros k Hk Hko. destruct (Hinv k Hk Hko) as [Hq|?]; [|by right].
    rewrite fmap_cons in Hq. apply elem_of_cons in Hq as [->|Hq]; [|by left].
    simpl in Hseen. destruct Hseen. by apply elem_of_dom. }
  destruct (lookup_commit d current) as [c|e] eqn:Hload.
  - intros [= Hfold].
    destruct (push_parents_spec depth (getParentHashes c) mine rest)
      as (Hall & Hnew & Hold).
    rewrite Hfold in Hall, Hnew, Hold. simpl in *.
    intros k Hk Hko. apply Hnew in Hk as [Hk|Hk]; [|by left].
    destruct (Hrest k Hk Hko); auto.
  - intros [= <- <-]. done.
Qed.

Lemma common_pending_sym v1 v2 q1 q2 :
  common_pending v1 v2 q1 q2 → common_pending v2 v1 q2 q1.
Proof. drop_vars. intros H k H2 H1. destruct (H k H1 H2); auto. Qed.

Lemma expanded_closed d v a x :
  pending_or_expanded d v [] → a ∈ dom v → reaches d a x → x ∈ dom v.
Proof.
  intros Hinv Ha Hreach. induction Hreach as [|a y x [c [Hload Hp]] _ IH]; [done|].
  apply IH. destruct (Hinv a Ha) as [Hq|Hexp]; [by apply elem_of_nil in Hq|].
  eauto.
Qed.

Lemma findLCA_loop_complete d a b x fuel : ∀ v1 v2 q1 q2 r,
  reaches d a x → reaches d b x →
  a ∈ dom v1 → b ∈ dom v2 →
  pending_or_expanded d v1 q1 → pending_or_expanded d v2 q2 →
  common_pending v1 v2 q1 q2 →
  (∀ k, k ∈ dom v1 → reaches d a k) → (∀ y, y ∈ q1 → reaches d a y.1) →
  (∀ k, k ∈ dom v2 → reaches d b k) → (∀ y, y ∈ q2 → reaches d b y.1) →
  findLCA_loop fuel d v1 v2 q1 q2 = Some r →
  reaches d a r ∧ reaches d b r.
Proof. drop_vars.
  assert (∀ s h c p, reaches d s h → lookup_commit d h = Ok c →
                     p ∈ getParentHashes c → reaches d s p) as Hclosed.
  { intros s h c p Hreach Hload Hp. eapply rtc_r; [done|]. by exists c. }
  assert (∀ v1 v2, a ∈ dom v1 → b ∈ dom v2 →
            pending_or_expanded d v1 [] → pending_or_expanded d v2 [] →
            common_pending v1 v2 [] [] → reaches d a x → reaches d b x → False)
    as Hboth.
  { intros v1 v2 Ha Hb He1 He2 Hc Hax Hbx.
    destruct (Hc x) as [Hq|Hq];
      [by eapply expanded_closed..|by apply elem_of_nil in Hq|by apply elem_of_nil in Hq]. }
  induction fuel as [|fuel IH];
    intros v1 v2 q1 q2 r Hax Hbx Ha Hb He1 He2 Hc Hv1 Hq1 Hv2 Hq2.
  - destruct q1, q2; simpl; intros; simplify_eq. by destruct (Hboth v1 v2).
  - destruct (decide (q1 = [] ∧ q2 = [])) as [[-> ->]|Hne].
    { simpl. intros. by destruct (Hboth v1 v2). }
    rewrite findLCA_loop_round
      by (destruct q1; [destruct q2; [by destruct Hne|by right]|by left]).
    destruct (side_step d v1 v2 q1) as [found|[v1' q1']] eqn:H1.
    { apply side_step_found in H1 as [(depth & rest & ->) Hseen].
      intros [= <-]. split; [|auto]. apply (Hq1 (found, depth)). by left. }
    pose proof (side_step_grows _ _ _ _ _ _ H1) as Hg1.
    pose proof (side_step_expanded _ _ _ _ _ _ He1 H1) as He1'.
    pose proof (side_step_common _ _ _ _ _ _ _ Hc H1) as Hc'.
    apply (side_step_inv (reaches d a)) in H1 as [Hv1' Hq1']; [|by eauto..].
    destruct (side_step d v2 v1' q2) as [found|[v2' q2']] eqn:H2.
    { apply side_step_found in H2 as [(depth & rest & ->) Hseen].
      intros [= <-]. split; [auto|]. apply (Hq2 (found, depth)). by left. }
    pose proof (side_step_grows _ _ _ _ _ _ H2) as Hg2.
    pose proof (side_step_expanded _ _ _ _ _ _ He2 H2) as He2'.
    pose proof (side_step_common _ _ _ _ _ _ _ (common_pending_sym _ _ _ _ Hc') H2) as Hc''.
    apply (side_step_inv (reaches d b)) in H2 as [Hv2' Hq2']; [|by eauto..].
    apply IH; [done|done|by apply Hg1|by apply Hg2|done|done|
              by apply common_pending_sym|done..].
Qed.

(** X19.  When the two start digests have a common ancestor along the parent
    links of the commits that load, [findLCA] returns one: its result is
    then reachable from both start digests, and is not the empty digest that
    stands for no ancestor unless that digest itself is one. *)
Theorem findLCA_finds_common_ancestor (commitHash1 commitHash2 x : string) (st : Repo) :
  reaches (disk st) commitHash1 x →
  reaches (disk st) commitHash2 x →
  ∃ r, findLCA commitHash1 commitHash2 st = (st, Ok r)
       ∧ reaches (disk st) commitHash1 r ∧ reaches (disk st) commitHash2 r.
Proof. drop_vars.
  intros H1 H2.
  destruct (findLCA_on_fuel (disk st) commitHash1 commitHash2) as (r & Hon & Hfuel).
  exists r. split.
  { unfold findLCA. mg_unfold. by rewrite Hon. }
  eapply (findLCA_loop_complete _ commitHash1 commitHash2 x);
    [done|done|..|apply (Hfuel (lca_bound (disk st))); lia].
  - rewrite dom_singleton_L. set_solver.
  - rewrite dom_singleton_L. set_solver.
  - intros k. rewrite dom_singleton_L, elem_of_singleton. intros ->. left.
    simpl. apply elem_of_cons. by left.
  - intros k. rewrite dom_singleton_L, elem_of_singleton. intros ->. left.
    simpl. apply elem_of_cons. by left.
  - intros k. rewrite !dom_singleton_L, !elem_of_singleton. intros -> _. left.
    simpl. apply elem_of_cons. by left.
  - intros k. rewrite dom_singleton_L, elem_of_singleton. by intros ->.
  - intros y. rewrite list_elem_of_singleton. by intros ->.
  - intros k. rewrite dom_singleton_L, elem_of_singleton. by intros ->.
  - intros y. rewrite list_elem_of_singleton. by intros ->.
Qed.

(** *** The line diff compares positions *)

Lemma positional_diff_cons (o n : string) (oldLines newLines : list string) :
  positional_diff (o :: oldLines) (n :: newLines) =
    ((if bool_decide (o = n) then [ContextLine o] else [RemovedLine o; AddedLine n])
     ++ positional_diff oldLines newLines)%list.
Proof. drop_vars. unfold positional_diff. simpl. by rewrite <-app_assoc. Qed.

Lemma positional_diff_nil_r (oldLines : list string) :
  positional_diff oldLines [] = RemovedLine <$> oldLines.
Proof. drop_vars.
  unfold positional_diff. rewrite drop_nil. cbn [length]. rewrite drop_0.
  rewrite fmap_nil, app_nil_r. by destruct oldLines.
Qed.

Lemma positional_diff_nil_l (newLines : list string) :
  positional_diff [] newLines = AddedLine <$> newLines.
Proof. drop_vars. unfold positional_diff. by rewrite drop_nil. Qed.

Lemma positional_diff_same (lines : list string) :
  positional_diff lines lines = ContextLine <$> lines.
Proof. drop_vars.
  induction lines as [|l lines IH]; [done|].
  rewrite positional_diff_cons, IH. by rewrite bool_decide_eq_true_2.
Qed.

Lemma greedy_walk_positional (oldLines newLines : list string) (n : nat) :
  ∀ i j, ((length oldLines - i) + (length newLines - j) ≤ n)%nat →
  greedy_walk oldLines newLines i j
              (positional_diff (drop i oldLines) (drop j newLines)).
Proof. drop_vars.
  induction n as [|n IH]; intros i j Hn.
  - rewrite !drop_ge by lia. constructor; apply lookup_ge_None; lia.
  - destruct (oldLines !! i) as [o|] eqn:Ho; destruct (newLines !! j) as [l|] eqn:Hl.
    + pose proof (lookup_lt_Some _ _ _ Ho). pose proof (lookup_lt_Some _ _ _ Hl).
      rewrite (drop_S _ _ _ Ho), (drop_S _ _ _ Hl), positional_diff_cons.
      case_bool_decide as Heq.
      * subst l. apply walk_context; [done..|]. apply IH. lia.
      * apply walk_both; [done..|]. apply IH. lia.
    + pose proof (lookup_lt_Some _ _ _ Ho). apply lookup_ge_None in Hl as Hj.
      rewrite (drop_S _ _ _ Ho), (drop_ge newLines j) by done.
      rewrite positional_diff_nil_r, fmap_cons.
      apply walk_removed; [done..|].
      specialize (IH (S i) j). rewrite (drop_ge newLines j) in IH by done.
      rewrite positional_diff_nil_r in IH. apply IH. lia.
    + pose proof (lookup_lt_Some _ _ _ Hl). apply lookup_ge_None in Ho as Hi.
      rewrite (drop_S _ _ _ Hl), (drop_ge oldLines i) by done.
      rewrite positional_diff_nil_l, fmap_cons.
      apply walk_added; [done..|].
      specialize (IH i (S j)). rewrite (drop_ge oldLines i) in IH by done.
      rewrite positional_diff_nil_l in IH. apply IH. lia.
    + apply lookup_ge_None in Ho, Hl. rewrite !drop_ge by done.
      constructor; by apply lookup_ge_None.
Qed.

Lemma printDiff_text_positional (oldContent newContent filename : string) :
  printDiff_text oldContent newContent filename =
    Some ((if str_empty filename then "" else diff_header filename)
          +:+ render (positional_diff (getlines oldContent) (getlines newContent))
          +:+ nl).
Proof. drop_vars.
  set (oldLines := getlines oldContent). set (newLines := getlines newContent).
  destruct (printDiff_loop_walk oldLines newLines (length oldLines + length newLines) 0 0
              (if str_empty filename then "" else diff_header filename))
    as (ls & Hwalk & Hloop); [lia|].
  pose proof (greedy_walk_positional oldLines newLines
                (length oldLines + length newLines) 0 0) as Hpos.
  rewrite !drop_0 in Hpos.
  rewrite (greedy_walk_det _ _ _ _ _ _ Hwalk (Hpos ltac:(lia))) in Hloop.
  unfold printDiff_text. fold oldLines newLines.
  assert ((if negb (str_empty filename)
           then "--- a/" +:+ filename +:+ nl +:+ "+++ b/" +:+ filename +:+ nl
           else "") = (if str_empty filename then "" else diff_header filename)) as ->.
  { by destruct (str_empty filename). }
  rewrite Hloop. simpl. by rewrite !append_assoc.
Qed.

(** X20.  The line diff is positional: [printDiff] compares line [k] of the
    old text with line [k] of the new text only.  Equal lines are printed
    once as context, different lines as a removed and an added line, and
    the lines of the longer text beyond the shorter one are printed as
    removed or as added.  A line inserted at the top of a text therefore
    changes the report for every line below it. *)
Theorem printDiff_positional (oldContent newContent filename : string) (st : Repo) :
  printDiff oldContent newContent filename st =
    (mkRepo (disk st) (stagingArea st)
            (cout st +:+ (if str_empty filename then "" else diff_header filename)
                     +:+ render (positional_diff (getlines oldContent)
                                                 (getlines newContent)) +:+ nl),
     Ok tt).
Proof. drop_vars.
  unfold printDiff, print. rewrite printDiff_text_positional. cbn [default].
  by rewrite ?append_assoc.
Qed.

(** *** Splitting a text into lines *)

Lemma getlines_from_unlines (lines : list string) (l : string) :
  Forall (λ line, has_char LF line = false) lines →
  has_char LF l = false →
  getlines (unlines lines +:+ l) = (lines ++ (if str_empty l then [] else [l]))%list.
Proof. drop_vars.
  intros Hlines Hl. unfold getlines.
  induction Hlines as [|line lines Hline _ IH].
  - change (unlines [] +:+ l) with l. simpl.
    assert (∀ acc, getlines_from acc l
                   = if str_empty (acc +:+ l) then [] else [acc +:+ l]) as Hlast.
    { clear -Hl. induction l as [|c l IH]; intros acc.
      - by rewrite append_nil_r.
      - simpl in Hl. apply orb_false_iff in Hl as [Hc Hl].
        cbn [getlines_from]. rewrite Hc, IH by done.
        by rewrite append_assoc. }
    apply (Hlast "").
  - cbn [unlines foldr]. fold (unlines lines). rewrite !append_assoc.
    by rewrite getlines_from_line, IH.
Qed.

(** X21.  The lines of a text are cut at the line feeds, and a last line is
    a line with or without a line feed after it: a text of lines each ended
    by a line feed splits into these lines, and so does the text without its
    final line feed.  No line is produced after a final line feed. *)
Theorem getlines_unlines (lines : list string) (l : string) :
  Forall (λ line, has_char LF line = false) lines →
  has_char LF l = false →
  getlines (unlines lines +:+ l) = (lines ++ (if str_empty l then [] else [l]))%list
  ∧ getlines (unlines lines +:+ l +:+ nl) = (lines ++ [l])%list.
Proof. drop_vars.
  intros Hlines Hl. split; [by apply getlines_from_unlines|].
  assert (unlines lines +:+ l +:+ nl = unlines (lines ++ [l]) +:+ "") as ->.
  { rewrite append_nil_r. clear. unfold unlines.
    induction lines as [|line lines IH]; [done|].
    simpl. by rewrite <-IH, !append_assoc. }
  rewrite getlines_from_unlines; [by rewrite app_nil_r| |done].
  apply Forall_app. split; [done|]. by apply Forall_singleton.
Qed.

(** X22.  [printDiff] reports no changed line between a text and itself,
    nor between a text whose last line has no line feed and the same text
    with the line feed added: every line is printed as context. *)
Theorem printDiff_blind_to_final_line_feed (lines : list string) (l filename : string)
    (st : Repo) :
  Forall (λ line, has_char LF line = false) lines →
  has_char LF l = false → l ≠ "" →
  printDiff (unlines lines +:+ l) (unlines lines +:+ l +:+ nl) filename st =
    (mkRepo (disk st) (stagingArea st)
            (cout st +:+ (if str_empty filename then "" else diff_header filename)
                     +:+ render (ContextLine <$> (lines ++ [l])%list) +:+ nl),
     Ok tt)
  ∧ ∀ content,
      printDiff content content filename st =
        (mkRepo (disk st) (stagingArea st)
                (cout st +:+ (if str_empty filename then "" else diff_header filename)
                         +:+ render (ContextLine <$> getlines content) +:+ nl),
         Ok tt).
Proof. drop_vars.
  intros Hlines Hl Hne. split.
  - unfold printDiff, print. rewrite printDiff_text_positional. cbn [default].
    rewrite ?append_assoc.
    assert (unlines lines +:+ l +:+ nl = unlines (lines ++ [l]) +:+ "") as ->.
    { rewrite append_nil_r. clear. unfold unlines.
      induction lines as [|line lines IH]; [done|].
      simpl. by rewrite <-IH, !append_assoc. }
    rewrite !getlines_from_unlines; try done.
    + apply str_empty_false in Hne. rewrite Hne. simpl. rewrite app_nil_r.
      by rewrite positional_diff_same.
    + apply Forall_app. split; [done|]. by apply Forall_singleton.
  - intros content. unfold printDiff, print. rewrite printDiff_text_positional.
    cbn [default]. by rewrite positional_diff_same, ?append_assoc.
Qed.

(** *** Trimming *)

Lemma trim_blank (c : ascii) (s : string) :
  is_blank c = true → trim (String c s) = trim s.
Proof. drop_vars.
  intros Hc. unfold trim. simpl. rewrite Hc.
  destruct (find_first_not_of_blank s) as [first|]; simpl; [|done].
  destruct (find_last_not_of_blank s) as [last|]; simpl; done.
Qed.

Lemma trim_not_blank (c : ascii) (s : string) :
  is_blank c = false → trim (String c s) = String c (trim_right s).
Proof. drop_vars.
  intros Hc. unfold trim, trim_right. simpl. rewrite Hc.
  destruct (find_last_not_of_blank s) as [last|].
  - rewrite Nat.add_1_r. done.
  - simpl. by destruct s.
Qed.

Lemma trim_right_cons (c : ascii) (s : string) :
  trim_right (String c s) =
    match find_last_not_of_blank s with
    | Some _ => String c (trim_right s)
    | None => if is_blank c then "" else String c ""
    end.
Proof. drop_vars.
  unfold trim_right. simpl.
  destruct (find_last_not_of_blank s) as [last|]; [done|].
  destruct (is_blank c); [done|]. by destruct s.
Qed.

Lemma append_eq_singleton (t : string) (c a : ascii) (s : string) :
  String a s = t +:+ String c "" →
  (t = "" ∧ s = "" ∧ c = a) ∨ ∃ t', t = String a t' ∧ s = t' +:+ String c "".
Proof. drop_vars.
  destruct t as [|a' t']; simpl.
  - intros [= -> ->]. by left.
  - rewrite append_cons. intros [= -> ->]. right. eauto.
Qed.

Lemma trim_right_facts (s : string) :
  (∃ post, s = trim_right s +:+ post ∧ all_blank post = true)
  ∧ (∀ t c, trim_right s = t +:+ String c "" → is_blank c = false)
  ∧ trim_right (trim_right s) = trim_right s
  ∧ find_last_not_of_blank (trim_right s) = find_last_not_of_blank s
  ∧ (find_last_not_of_blank s = None → trim_right s = "")
  ∧ (is_Some (find_last_not_of_blank s) → trim_right s ≠ "").
Proof. drop_vars.
  induction s as [|a s ((post & Hdec & Hpost) & Hend & Hidem & Hlast & Hnone & Hsome)].
  { split_and!.
    - by exists "".
    - intros [|??] c; by rewrite ?append_cons.
    - done.
    - done.
    - done.
    - by intros [? ?]. }
  rewrite trim_right_cons. cbn [find_last_not_of_blank].
  destruct (find_last_not_of_blank s) as [last|] eqn:L.
  - split_and!.
    + exists post. rewrite append_cons. by rewrite <-Hdec.
    + intros t c Ht. apply append_eq_singleton in Ht as [(_ & Hempty & _)|(t' & _ & Ht')].
      * by destruct Hsome.
      * by eapply Hend.
    + rewrite trim_right_cons, Hlast, Hidem. done.
    + cbn [find_last_not_of_blank]. by rewrite Hlast.
    + done.
    + done.
  - specialize (Hnone eq_refl). rewrite Hnone in Hdec.
    change ("" +:+ post) with post in Hdec. subst post.
    destruct (is_blank a) eqn:Ha.
    + split_and!.
      * exists (String a s). split; [done|]. simpl. by rewrite Ha, Hpost.
      * intros [|??] c; by rewrite ?append_cons.
      * done.
      * done.
      * done.
      * by intros [? ?].
    + split_and!.
      * by exists s.
      * intros t c Ht. apply append_eq_singleton in Ht as [(_ & _ & ->)|(t' & _ & Ht')];
          [done|]. destruct t'; by rewrite ?append_cons in Ht'.
      * rewrite trim_right_cons. simpl. by rewrite Ha.
      * simpl. by rewrite Ha.
      * done.
      * done.
Qed.

Lemma trim_facts (str : string) :
  (∃ pre post, str = pre +:+ trim str +:+ post
               ∧ all_blank pre = true ∧ all_blank post = true)
  ∧ (∀ c t, trim str = String c t → is_blank c = false)
  ∧ (∀ t c, trim str = t +:+ String c "" → is_blank c = false)
  ∧ trim (trim str) = trim str
  ∧ (trim str = "" ↔ all_blank str = true).
Proof. drop_vars.
  induction str as [|a s ((pre & post & Hdec & Hpre & Hpost) & Hfirst & Hend & Hidem & Hempty)].
  { split_and!.
    - by exists "", "".
    - done.
    - intros [|??] c; by rewrite ?append_cons.
    - done.
    - done. }
  destruct (is_blank a) eqn:Ha.
  - rewrite trim_blank by done. split_and!.
    + exists (String a pre), post. rewrite append_cons, <-Hdec. simpl. by rewrite Ha, Hpre.
    + done.
    + done.
    + done.
    + simpl. by rewrite Ha.
  - rewrite trim_not_blank by done.
    destruct (trim_right_facts s) as ((post' & Hdec' & Hpost') & Hend' & Hidem' & _).
    split_and!.
    + exists "", post'. change ("" +:+ String a (trim_right s) +:+ post')
        with (String a (trim_right s +:+ post')). by rewrite <-Hdec'.
    + by intros c t [= <- _].
    + intros t c Ht. apply append_eq_singleton in Ht as [(_ & _ & ->)|(t' & _ & Ht')];
        [done|]. by eapply Hend'.
    + rewrite trim_not_blank by done. by rewrite Hidem'.
    + simpl. rewrite Ha. done.
Qed.

(** X23.  [trim] removes blanks and tabs from both ends and nothing else:
    the text is the result between a run of blanks and tabs before it and
    one after it, and the result neither begins nor ends with a blank or a
    tab.  Characters inside the text, and line feeds at its ends, stay. *)
Theorem trim_strips_both_ends (str : string) :
  (∃ pre post, str = pre +:+ trim str +:+ post
               ∧ all_blank pre = true ∧ all_blank post = true)
  ∧ (∀ c t, trim str = String c t → is_blank c = false)
  ∧ (∀ t c, trim str = t +:+ String c "" → is_blank c = false).
Proof. drop_vars. destruct (trim_facts str) as (? & ? & ? & _). by split_and!. Qed.

(** X24.  [trim] gives the empty text exactly for a text of blanks and tabs
    only (the commit message the front end refuses), and applying it twice
    changes nothing more. *)
Theorem trim_idempotent (str : string) :
  (trim str = "" ↔ all_blank str = true) ∧ trim (trim str) = trim str.
Proof. drop_vars. destruct (trim_facts str) as (_ & _ & _ & ? & ?). by split. Qed.

(** *** Commands on a repository without commits *)

(** X25.  While HEAD resolves to no commit (as right after [init], when the
    reference of [master] is empty), [branch] and [merge] throw and change
    nothing, whatever branch is named. *)
Theorem branch_and_merge_need_a_commit (branchName : string) (st : Repo) :
  head_hash (disk st) = "" →
  branch branchName st = (st, Throw (runtime_error "No commits exist yet"))
  ∧ merge branchName st = (st, Throw (runtime_error "No commits to merge from")).
Proof.
  intros Hhead. unfold branch, merge. mg_unfold.
  by rewrite getHeadCommitHash_head_hash, Hhead.
Qed.

(** X26.  [merge] of a name that is no branch reference throws the error
    naming it and changes nothing: a commit digest is not accepted in place
    of a branch name. *)
Theorem merge_unknown_branch (branchName : string) (st : Repo) :
  head_hash (disk st) ≠ "" →
  disk st !! branch_path branchName = None →
  merge branchName st = (st, Throw (runtime_error ("Branch not found: " +:+ branchName))).
Proof.
  intros Hhead Hbranch. unfold merge. mg_unfold.
  rewrite getHeadCommitHash_head_hash. apply str_empty_false in Hhead.
  rewrite Hhead. unfold branch_path in Hbranch. by rewrite Hbranch.
Qed.

End MiniGit.

(** ** The statements on the sample repository *)

Lemma sample_iteration_entries (st : Repo) :
  sample_iteration st ≡ₚ map_to_list (stagingArea st).
Proof. unfold sample_iteration. by rewrite reverse_Permutation. Qed.

Lemma sample_hash_inj (x y : string) : sample_hash x = sample_hash y → x = y.
Proof. unfold sample_hash. intros H. by injection H. Qed.

(** The commits of the sample repository track [f.txt] only. *)
Lemma sample_tracks_f_only (d : gmap string string) (p h : string) (c : CommitNode) :
  p ≠ "f.txt" → lookup_commit sample_deserialize d h = Ok c → p ∉ dom (getFileBlobs c).
Proof.
  intros Hp. unfold lookup_commit, sample_deserialize.
  destruct (d !! _) as [content|]; [|done].
  repeat case_decide; intros [= <-]; simpl;
    rewrite ?dom_singleton_L, ?dom_empty_L; set_solver.
Qed.

(** [commit] with nothing staged, on the sample repository. *)
Lemma commit_nothing_staged_noop_witness :
  commit sample_digest sample_serialize "t1" sample_writable sample_iteration "empty"
         (sample_repo on_master) =
    (mkRepo (disk (sample_repo on_master)) (stagingArea (sample_repo on_master))
            (cout (sample_repo on_master) +:+ "Nothing to commit" +:+ nl), Ok tt).
Proof. apply commit_nothing_staged_noop. reflexivity. Defined.

(** [merge master] while on [master]: both tips are [c-ours]. *)
Lemma merge_equal_tips_no_writes_witness :
  let st := sample_repo on_master in
  let run := merge sample_digest sample_serialize sample_deserialize "t1" sample_writable
                   "master" st in
  disk run.1 = disk st
  ∧ stagingArea run.1 = stagingArea st
  ∧ ("c-ours" ≠ "" →
     run = (mkRepo (disk st) (stagingArea st) (cout st +:+ "Already up to date" +:+ nl),
            Ok AlreadyUpToDate)).
Proof.
  apply (merge_equal_tips_no_writes sample_digest sample_serialize sample_deserialize
           "t1" sample_writable "master" "c-ours" (sample_repo on_master)).
  - vm_compute. reflexivity.
  - vm_compute. reflexivity.
Defined.

(** [add g.txt], whose content [W] is not yet in the object store. *)
Lemma add_content_addressed_witness :
  let st := sample_repo on_master in
  let st' := (add sample_hash sample_writable sample_iteration "g.txt" st).1 in
  stagingArea st' !! "g.txt" = Some (sample_hash "W")
  ∧ getBlobContent (sample_hash "W") st' = (st', Ok "W")
  ∧ ∀ filename2, disk st' !! filename2 = Some "W" →
      ∃ st'', add sample_hash sample_writable sample_iteration filename2 st'
              = (st'', Ok tt)
        ∧ stagingArea st'' !! filename2 = Some (sample_hash "W")
        ∧ ∀ h, disk st'' !! object_path h = disk st' !! object_path h.
Proof.
  apply (add_content_addressed sample_hash sample_writable sample_iteration
           "g.txt" "W"
           (sample_repo on_master)).
  - apply sample_hash_inj.
  - intros c' Hc'. vm_compute in Hc'. discriminate Hc'.
  - vm_compute. reflexivity.
  - vm_compute. reflexivity.
Defined.

(** The loop body on [f.txt], unchanged since the ancestor and absent from
    the target. *)
Lemma merge_file_deleted_in_target_witness :
  let st := sample_repo on_dev in
  classify (blob_of {["f.txt" := "hX"]} "f.txt") (blob_of {["f.txt" := "hX"]} "f.txt")
           (blob_of ∅ "f.txt") = DeleteFile
  ∧ merge_file sample_writable "cleanup" {["f.txt" := "hX"]} ∅ "f.txt"
               (false, {["f.txt" := "hX"]}) st =
      let out := cout st +:+ "Taking changes from branch '" +:+ "cleanup"
                         +:+ "' for: " +:+ "f.txt" +:+ nl in
      match disk st !! object_path "" with
      | None => (mkRepo (disk st) (stagingArea st) out,
                 Throw (runtime_error "Blob not found: "))
      | Some content =>
          (mkRepo (if sample_writable "f.txt" then <["f.txt":=content]> (disk st)
                   else disk st) (stagingArea st) out,
           Ok (false, <["f.txt":=""]> ({["f.txt" := "hX"]} : gmap string string)))
      end.
Proof.
  apply (merge_file_deleted_in_target sample_writable "cleanup" {["f.txt" := "hX"]} ∅
           "f.txt" "hX" false {["f.txt" := "hX"]} (sample_repo on_dev)).
  - vm_compute. reflexivity.
  - vm_compute. reflexivity.
  - discriminate.
  - vm_compute. reflexivity.
Defined.

(** The whole [merge] on the deletion row: [dev] is at [base], which tracks
    [f.txt], and [cleanup] is at [gone], a child of [base] without the file.
    The merge ends with [Blob not found] and leaves [f.txt] in place. *)
Lemma merge_deleted_in_target_throws :
  let run := merge sample_digest sample_serialize sample_deserialize "t1" sample_writable
                   "cleanup" (sample_repo on_dev) in
  run.2 = Throw (runtime_error "Blob not found: ")
  ∧ disk run.1 !! "f.txt" = Some "Y".
Proof. vm_compute. split; reflexivity. Qed.

(** The whole [merge] on the delete/modify row: [master] is at [ours], which
    changed [f.txt], and [cleanup] is at [gone].  The merge takes the branch
    of the content conflict and ends with [Blob not found]. *)
Lemma merge_delete_modify_throws :
  let run := merge sample_digest sample_serialize sample_deserialize "t1" sample_writable
                   "cleanup" (sample_repo on_master) in
  classify "hX" "hY" "" = DeleteModifyConflict
  ∧ run.2 = Throw (runtime_error "Blob not found: ")
  ∧ disk run.1 !! "f.txt" = Some "Y".
Proof. vm_compute. split_and!; reflexivity. Qed.

(** The content conflict of [ours] and [theirs] on [f.txt]: the working file
    receives both contents between the markers, and [master] and HEAD stay. *)
Lemma merge_content_conflict_example :
  let run := merge sample_digest sample_serialize sample_deserialize "t1" sample_writable
                   "feature" (sample_repo on_master) in
  run.2 = Ok Conflicted
  ∧ disk run.1 !! "f.txt" = Some (conflict_text "Y" "Z" "feature")
  ∧ disk run.1 !! branch_path "master" = Some "c-ours"
  ∧ disk run.1 !! HEAD_FILE = Some on_master.
Proof. vm_compute. split_and!; reflexivity. Qed.

(** The conflict-free merge of [feature] into [dev]: the target blob is
    taken, the merge commit is stored with both tips as its parents. *)
Lemma merge_take_target_example :
  let run := merge sample_digest sample_serialize sample_deserialize "t1" sample_writable
                   "feature" (sample_repo on_dev) in
  run.2 = Ok (Merged "c-Merge branch 'feature'")
  ∧ disk run.1 !! "f.txt" = Some "Z"
  ∧ disk run.1 !! object_path "c-Merge branch 'feature'" = Some "Merge branch 'feature'".
Proof. vm_compute. split_and!; reflexivity. Qed.

(** [merge feature] while on [master]: [ours] and [theirs] both changed
    [f.txt]. *)
Lemma merge_conflict_no_commit_witness :
  let st := sample_repo on_master in
  let run := merge sample_digest sample_serialize sample_deserialize "t1" sample_writable
                   "feature" st in
  (run.2 = Ok Conflicted ∨ ∃ e, run.2 = Throw e)
  ∧ stagingArea run.1 = stagingArea st
  ∧ ∀ p, p ∉ allFiles (getFileBlobs sample_ours) (getFileBlobs sample_theirs)
                       (getFileBlobs sample_base) →
         disk run.1 !! p = disk st !! p.
Proof.
  apply (merge_conflict_no_commit sample_digest sample_serialize sample_deserialize
           "t1" sample_writable "feature" (sample_repo on_master) _ _
           "c-ours" "c-theirs" sample_ours sample_theirs sample_base "f.txt").
  - vm_compute. reflexivity.
  - discriminate.
  - vm_compute. reflexivity.
  - discriminate.
  - vm_compute. reflexivity.
  - vm_compute. reflexivity.
  - vm_compute. reflexivity.
  - vm_compute. reflexivity.
  - apply surjective_pairing.
Defined.

(** [merge feature] while on [dev]: [master] receives the merge commit and
    [dev] stays at [base]. *)
Lemma merge_advances_master_not_current_witness :
  let st := sample_repo on_dev in
  let st' := (merge sample_digest sample_serialize sample_deserialize "t1" sample_writable
                    "feature" st).1 in
  disk st' !! branch_path "master" = Some "c-Merge branch 'feature'"
  ∧ disk st' !! HEAD_FILE = Some "ref: refs/heads/master"
  ∧ disk st' !! branch_path "dev" = disk st !! branch_path "dev".
Proof.
  apply (merge_advances_master_not_current sample_digest sample_serialize
           sample_deserialize "t1" sample_writable "dev" "feature" (sample_repo on_dev)).
  - vm_compute. reflexivity.
  - discriminate.
  - intros h c. apply sample_tracks_f_only. discriminate.
  - vm_compute. reflexivity.
Defined.

(** The chain [base], [ours], [top] of the sample repository. *)
Lemma findLCA_first_common_node_witness :
  let st := sample_repo on_master in
  (∀ fuel d a b,
     findLCA_fuel sample_deserialize fuel d a b =
       default "" <$> findCommonAncestor_spec sample_deserialize (2 * fuel) d a b)
  ∧ (∀ a b st0, ∃ res,
       (∀ turns, (2 * lca_bound sample_deserialize (disk st0) ≤ turns)%nat →
                 findCommonAncestor_spec sample_deserialize turns (disk st0) a b
                 = Some res)
       ∧ findLCA sample_deserialize a b st0 = (st0, Ok (default "" res)))
  ∧ findLCA sample_deserialize "c-top" "c-base" st = (st, Ok "c-base")
  ∧ ∀ x, findLCA sample_deserialize x x st = (st, Ok x).
Proof.
  apply (findLCA_first_common_node sample_deserialize (sample_repo on_master)
           "c-base" "c-ours" "c-top" sample_base sample_ours sample_top).
  - discriminate.
  - discriminate.
  - discriminate.
  - vm_compute. reflexivity.
  - reflexivity.
  - vm_compute. reflexivity.
  - reflexivity.
  - vm_compute. reflexivity.
  - simpl. intros p Hp. by apply elem_of_nil in Hp.
Defined.

(** [checkout feature] with [f.txt] staged. *)
Lemma checkout_keeps_index_file_witness :
  let st' := (checkout sample_deserialize sample_writable "feature" sample_staged).1 in
  stagingArea st' = ∅
  ∧ disk st' !! INDEX_FILE = disk sample_staged !! INDEX_FILE
  ∧ stagingArea (MiniGit_new (disk st')) = stagingArea (MiniGit_new (disk sample_staged)).
Proof.
  apply (checkout_keeps_index_file sample_deserialize sample_writable "feature"
           sample_staged).
  - intros h c. apply sample_tracks_f_only. discriminate.
  - vm_compute. reflexivity.
Defined.

(** After the checkout the map in memory is empty while a new invocation
    still finds [f.txt] staged. *)
Lemma checkout_then_restart_still_staged :
  let st' := (checkout sample_deserialize sample_writable "feature" sample_staged).1 in
  stagingArea st' = ∅
  ∧ stagingArea (MiniGit_new (disk st')) = {["f.txt" := "hY"]}.
Proof. vm_compute. split; reflexivity. Qed.

(** A commit made while HEAD points at [dev] moves [master] and leaves [dev]
    where it was. *)
Lemma commit_on_dev_moves_master :
  let st := mkRepo (sample_disk on_dev "") {["f.txt" := "hY"]} "" in
  let st' := (commit sample_digest sample_serialize "t1" sample_writable
                     sample_iteration "work" st).1 in
  disk st' !! HEAD_FILE = Some "ref: refs/heads/master"
  ∧ disk st' !! branch_path "master" = Some "c-work"
  ∧ disk st' !! branch_path "dev" = Some "c-base".
Proof. vm_compute. split_and!; reflexivity. Qed.

(** The walk on the lines [a b c] against [x a b c]: the cursors never meet
    on equal lines, so every line is reported removed and added. *)
Lemma printDiff_greedy_example :
  printDiff_text ("a" +:+ nl +:+ "b" +:+ nl +:+ "c" +:+ nl)
                 ("x" +:+ nl +:+ "a" +:+ nl +:+ "b" +:+ nl +:+ "c" +:+ nl) "" =
    Some (render [RemovedLine "a"; AddedLine "x"; RemovedLine "b"; AddedLine "a";
                  RemovedLine "c"; AddedLine "b"; AddedLine "c"] +:+ nl).
Proof. vm_compute. reflexivity. Qed.

(** ** Further statements on the sample repository *)

(** The index with [f.txt] staged is written and read back. *)
Lemma saveIndex_loadIndex_round_trip_witness :
  stagingArea (MiniGit_new
                 (disk (saveIndex sample_writable sample_iteration sample_staged).1))
  = stagingArea sample_staged.
Proof.
  apply (saveIndex_loadIndex_round_trip sample_writable sample_iteration
           sample_iteration_entries sample_staged).
  - intros file hash Hfile.
    change (stagingArea sample_staged)
      with ({["f.txt" := "hY"]} : gmap string string) in Hfile.
    apply lookup_singleton_Some in Hfile as [<- <-]. split_and!; reflexivity.
  - vm_compute. reflexivity.
Defined.

(** Two staged files: the lines of the index file follow the order of the
    iteration, and either order reads back as the same entries. *)
Lemma saveIndex_order_example :
  let st := mkRepo (sample_disk on_master "") {["f.txt" := "hY"; "g.txt" := "hW"]} "" in
  let listed := λ st : Repo, map_to_list (stagingArea st) in
  let reloaded order := stagingArea (MiniGit_new (disk (saveIndex sample_writable order st).1)) in
  disk (saveIndex sample_writable sample_iteration st).1 !! INDEX_FILE
    = Some ("f.txt hY" +:+ nl +:+ "g.txt hW" +:+ nl)
  ∧ disk (saveIndex sample_writable listed st).1 !! INDEX_FILE
    = Some ("g.txt hW" +:+ nl +:+ "f.txt hY" +:+ nl)
  ∧ reloaded sample_iteration !! "f.txt" = Some "hY"
  ∧ reloaded sample_iteration !! "g.txt" = Some "hW"
  ∧ reloaded listed !! "f.txt" = Some "hY"
  ∧ reloaded listed !! "g.txt" = Some "hW".
Proof. vm_compute. split_and!; reflexivity. Qed.

(** The path [my file.txt] comes back as the path [my]. *)
Lemma saveIndex_loadIndex_blank_in_path_witness :
  let st := mkRepo (sample_disk on_master "") {["my file.txt" := "hQ"]} "" in
  stagingArea (MiniGit_new (disk (saveIndex sample_writable sample_iteration st).1))
  = {["my" := "file.txt hQ"]}.
Proof.
  apply (saveIndex_loadIndex_blank_in_path sample_writable sample_iteration
           sample_iteration_entries "my" "file.txt" "hQ"
           (mkRepo (sample_disk on_master "") {["my file.txt" := "hQ"]} "")).
  - reflexivity.
  - reflexivity.
  - reflexivity.
  - reflexivity.
  - reflexivity.
  - vm_compute. reflexivity.
Defined.

(** HEAD moved to the branch [dev], at [base]. *)
Lemma updateHead_then_getHeadCommitHash_witness :
  let st' := (updateHead sample_writable "c-base" true "dev" (sample_repo on_master)).1 in
  getHeadCommitHash st' = (st', Ok "c-base").
Proof.
  apply (updateHead_then_getHeadCommitHash sample_writable "c-base" "dev" true
           (sample_repo on_master)).
  - discriminate.
  - vm_compute. reflexivity.
Defined.

(** The commit [top] made on [master] with [f.txt] staged. *)
Lemma commit_records_staging_witness :
  let st' := (commit sample_digest sample_serialize "t0" sample_writable
                     sample_iteration "top"
                     sample_staged).1 in
  getHeadCommitHash st' = (st', Ok "c-top")
  ∧ loadCommit sample_deserialize "c-top" st' = (st', Ok sample_top)
  ∧ getMessage sample_top = "top"
  ∧ getFileBlobs sample_top = stagingArea sample_staged
  ∧ getParentHashes sample_top = ["c-ours"]
  ∧ ∀ h content, h ≠ "c-top" → disk sample_staged !! object_path h = Some content →
                 disk st' !! object_path h = Some content.
Proof.
  apply (commit_records_staging sample_digest sample_serialize sample_deserialize "t0"
           sample_writable sample_iteration "top" "c-ours" sample_top sample_staged).
  - reflexivity.
  - vm_compute. reflexivity.
  - apply map_non_empty_singleton.
  - vm_compute. reflexivity.
  - vm_compute. reflexivity.
Defined.

(** A new branch created on [master], at [ours]. *)
Lemma branch_creates_at_head_witness :
  let st := sample_repo on_master in
  let run := branch sample_writable "topic" st in
  run.2 = Ok tt
  ∧ disk run.1 =
      match disk st !! branch_path "topic" with
      | Some _ => disk st
      | None => <[branch_path "topic":="c-ours"]> (disk st)
      end
  ∧ stagingArea run.1 = stagingArea st
  ∧ (getHeadCommitHash run.1).2 = Ok "c-ours".
Proof.
  apply (branch_creates_at_head sample_writable "topic" "c-ours" (sample_repo on_master)).
  - vm_compute. reflexivity.
  - discriminate.
  - reflexivity.
Defined.

(** [checkout feature] from [master]: [f.txt] receives the content [Z]. *)
Lemma checkout_restores_files_witness :
  let st := sample_repo on_master in
  let st' := (checkout sample_deserialize sample_writable "feature" st).1 in
  ∃ content, disk st !! object_path "hZ" = Some content
             ∧ disk st' !! "f.txt" = Some content.
Proof.
  apply (checkout_restores_files sample_deserialize sample_writable "feature" "c-theirs"
           true sample_theirs (sample_repo on_master) _
           ltac:(vm_compute; reflexivity) ltac:(vm_compute; reflexivity)).
  - intros file Hfile. simpl in Hfile. rewrite dom_singleton_L in Hfile.
    apply elem_of_singleton in Hfile as ->.
    split_and!; [reflexivity|discriminate|discriminate|intros h; discriminate].
  - vm_compute. reflexivity.
  - reflexivity.
Defined.

(** [checkout] of a name that is neither a branch nor a stored commit. *)
Lemma checkout_unloadable_target_witness :
  let st := sample_repo on_master in
  checkout sample_deserialize sample_writable "nowhere" st =
    (st, Throw (match disk st !! branch_path "nowhere" with
                | Some _ => runtime_error "Commit not found: nowhere"
                | None => runtime_error ("Invalid branch or commit: " +:+ "nowhere")
                end)).
Proof.
  apply (checkout_unloadable_target sample_deserialize sample_writable "nowhere"
           (runtime_error "Commit not found: nowhere") (sample_repo on_master)).
  vm_compute. reflexivity.
Defined.

(** [checkout feature] from [master]. *)
Lemma checkout_then_head_witness :
  let st' := (checkout sample_deserialize sample_writable "feature"
                       (sample_repo on_master)).1 in
  getHeadCommitHash st' = (st', Ok "c-theirs")
  ∧ disk st' !! HEAD_FILE = Some (if true then "ref: refs/heads/" +:+ "feature" else "c-theirs")
  ∧ stagingArea st' = ∅.
Proof.
  apply (checkout_then_head sample_deserialize sample_writable "feature" "c-theirs" true
           (sample_repo on_master)).
  - vm_compute. reflexivity.
  - discriminate.
  - vm_compute. reflexivity.
Defined.

Lemma sample_chain_ours (d : gmap string string) :
  d !! object_path "c-ours" = Some "ours" →
  d !! object_path "c-base" = Some "base" →
  first_parent_chain sample_deserialize d "c-ours" [sample_ours; sample_base].
Proof.
  intros Hours Hbase.
  apply (chain_step _ _ _ _ "c-base" []); [discriminate| |reflexivity|].
  - unfold lookup_commit. fold (object_path "c-ours"). by rewrite Hours.
  - apply chain_root; [discriminate| |reflexivity].
    unfold lookup_commit. fold (object_path "c-base"). by rewrite Hbase.
Qed.

(** [log] on [master]: [ours], then [base]. *)
Lemma log_lists_first_parents_witness :
  let st := sample_repo on_master in
  log sample_deserialize 2 st =
    (mkRepo (disk st) (stagingArea st)
            (cout st +:+ (if str_empty "c-ours" then "No commits yet" +:+ nl
                          else concat_text (log_entry <$> [sample_ours; sample_base]))),
     Ok true).
Proof.
  apply (log_lists_first_parents sample_deserialize "c-ours" [sample_ours; sample_base] 2
           (sample_repo on_master)).
  - vm_compute. reflexivity.
  - apply sample_chain_ours; vm_compute; reflexivity.
  - simpl. lia.
Defined.

(** The commit [top] made on [master] where it is not stored yet: [log]
    then lists [top], [ours] and [base]. *)
Lemma log_after_commit_witness :
  let st := mkRepo (delete (object_path "c-top") (sample_disk on_master ""))
                   {["f.txt" := "hY"]} "" in
  let st' := (commit sample_digest sample_serialize "t0" sample_writable
                     sample_iteration "top" st).1 in
  log sample_deserialize 3 st' =
    (mkRepo (disk st') (stagingArea st')
            (cout st' +:+ log_entry sample_top
                      +:+ concat_text (log_entry <$> [sample_ours; sample_base])),
     Ok true).
Proof.
  apply (log_after_commit sample_digest sample_serialize sample_deserialize "t0"
           sample_writable sample_iteration "top" "c-ours" sample_top
           [sample_ours; sample_base] 3
           (mkRepo (delete (object_path "c-top") (sample_disk on_master ""))
                   {["f.txt" := "hY"]} "")).
  - reflexivity.
  - vm_compute. reflexivity.
  - discriminate.
  - vm_compute. reflexivity.
  - apply map_non_empty_singleton.
  - vm_compute. reflexivity.
  - apply sample_chain_ours; vm_compute; reflexivity.
  - vm_compute. reflexivity.
  - simpl. lia.
Defined.

(** [ours] and [top] record the same file. *)
Lemma diff_same_snapshot_witness :
  let st := sample_repo on_master in
  diff sample_hash sample_deserialize "c-ours" "c-top" st =
    (mkRepo (disk st) (stagingArea st)
            (cout st +:+ "Comparing commit " +:+ short_hash "c-ours" +:+ " with " +:+
               short_hash "c-top" +:+ ":" +:+ nl),
     Ok tt).
Proof.
  apply (diff_same_snapshot sample_hash sample_deserialize "c-ours" "c-top"
           sample_ours sample_top (sample_repo on_master)).
  - discriminate.
  - discriminate.
  - vm_compute. reflexivity.
  - vm_compute. reflexivity.
  - reflexivity.
Defined.


(** [merge cleanup] on [dev]: [f.txt], which [cleanup] deleted, stays. *)
Lemma merge_never_deletes_witness :
  is_Some (disk (merge sample_digest sample_serialize sample_deserialize "t1"
                       sample_writable "cleanup" (sample_repo on_dev)).1 !! "f.txt").
Proof.
  apply (merge_never_deletes sample_digest sample_serialize sample_deserialize "t1"
           sample_writable "cleanup" (sample_repo on_dev) "f.txt").
  vm_compute. eauto.
Defined.

(** [merge feature] on [dev]: the merge commit has the parents [base] and
    [theirs] and records [f.txt] as [theirs] does. *)
Lemma merge_commit_contents_witness :
  let st := sample_repo on_dev in
  let st' := (merge sample_digest sample_serialize sample_deserialize "t1" sample_writable
                    "feature" st).1 in
  ∃ mergedFiles,
    "c-Merge branch 'feature'" =
      getHash (CommitNode_new sample_digest "t1" ("Merge branch '" +:+ "feature" +:+ "'")
                              ["c-base"; "c-theirs"] mergedFiles)
    ∧ disk st' !! object_path "c-Merge branch 'feature'" =
        Some (sample_serialize
                (CommitNode_new sample_digest "t1" ("Merge branch '" +:+ "feature" +:+ "'")
                                ["c-base"; "c-theirs"] mergedFiles))
    ∧ ∀ f, mergedFiles !! f =
             if bool_decide (f ∈ dom (getFileBlobs sample_base)
                               ∪ dom (getFileBlobs sample_theirs)
                               ∪ dom (getFileBlobs sample_base))
                && takes_target (blob_of (getFileBlobs sample_base) f)
                                (blob_of (getFileBlobs sample_base) f)
                                (blob_of (getFileBlobs sample_theirs) f)
             then Some (blob_of (getFileBlobs sample_theirs) f)
             else getFileBlobs sample_base !! f.
Proof.
  apply (merge_commit_contents sample_digest sample_serialize sample_deserialize "t1"
           sample_writable "feature" "c-base" "c-theirs" "c-Merge branch 'feature'"
           sample_base sample_theirs sample_base (sample_repo on_dev)).
  - vm_compute. reflexivity.
  - discriminate.
  - vm_compute. reflexivity.
  - discriminate.
  - vm_compute. reflexivity.
  - vm_compute. reflexivity.
  - vm_compute. reflexivity.
  - vm_compute. reflexivity.
Defined.

(** [top] and [theirs] descend from [base]. *)
Lemma findLCA_finds_common_ancestor_witness :
  let st := sample_repo on_master in
  ∃ r, findLCA sample_deserialize "c-top" "c-theirs" st = (st, Ok r)
       ∧ reaches sample_deserialize (disk st) "c-top" r
       ∧ reaches sample_deserialize (disk st) "c-theirs" r.
Proof.
  apply (findLCA_finds_common_ancestor sample_deserialize "c-top" "c-theirs" "c-base"
           (sample_repo on_master)).
  - apply (rtc_l _ _ "c-ours").
    { exists sample_top. split; [vm_compute; reflexivity|]. apply elem_of_cons. by left. }
    apply rtc_once.
    exists sample_ours. split; [vm_compute; reflexivity|]. apply elem_of_cons. by left.
  - apply rtc_once.
    exists sample_theirs. split; [vm_compute; reflexivity|]. apply elem_of_cons. by left.
Defined.

(** The text of the lines [a], [b] and a last line [c]. *)
Lemma getlines_unlines_witness :
  getlines (unlines ["a"; "b"] +:+ "c") = (["a"; "b"] ++ (if str_empty "c" then [] else ["c"]))%list
  ∧ getlines (unlines ["a"; "b"] +:+ "c" +:+ nl) = (["a"; "b"] ++ ["c"])%list.
Proof.
  apply (getlines_unlines ["a"; "b"] "c").
  - repeat constructor.
  - reflexivity.
Defined.

(** The same text with and without its final line feed. *)
Lemma printDiff_blind_to_final_line_feed_witness :
  let st := sample_repo on_master in
  printDiff (unlines ["a"; "b"] +:+ "c") (unlines ["a"; "b"] +:+ "c" +:+ nl) "f.txt" st =
    (mkRepo (disk st) (stagingArea st)
            (cout st +:+ (if str_empty "f.txt" then "" else diff_header "f.txt")
                     +:+ render (ContextLine <$> (["a"; "b"] ++ ["c"])%list) +:+ nl),
     Ok tt)
  ∧ ∀ content,
      printDiff content content "f.txt" st =
        (mkRepo (disk st) (stagingArea st)
                (cout st +:+ (if str_empty "f.txt" then "" else diff_header "f.txt")
                         +:+ render (ContextLine <$> getlines content) +:+ nl),
         Ok tt).
Proof.
  apply (printDiff_blind_to_final_line_feed ["a"; "b"] "c" "f.txt" (sample_repo on_master)).
  - repeat constructor.
  - reflexivity.
  - discriminate.
Defined.

(** The repository as [init] leaves it: HEAD on [master], whose reference is
    empty. *)
Lemma branch_and_merge_need_a_commit_witness :
  let st := mkRepo (<[HEAD_FILE := on_master]> {[branch_path "master" := ""]}) ∅ "" in
  branch sample_writable "topic" st = (st, Throw (runtime_error "No commits exist yet"))
  ∧ merge sample_digest sample_serialize sample_deserialize "t1" sample_writable "topic" st
    = (st, Throw (runtime_error "No commits to merge from")).
Proof.
  apply (branch_and_merge_need_a_commit sample_digest sample_serialize sample_deserialize
           "t1" sample_writable "topic"
           (mkRepo (<[HEAD_FILE := on_master]> {[branch_path "master" := ""]}) ∅ "")).
  vm_compute. reflexivity.
Defined.

(** [merge] of the digest of [theirs] in place of the branch [feature]. *)
Lemma merge_unknown_branch_witness :
  let st := sample_repo on_master in
  merge sample_digest sample_serialize sample_deserialize "t1" sample_writable
        "c-theirs" st
  = (st, Throw (runtime_error ("Branch not found: " +:+ "c-theirs"))).
Proof.
  apply (merge_unknown_branch sample_digest sample_serialize sample_deserialize "t1"
           sample_writable "c-theirs" (sample_repo on_master)).
  - vm_compute. discriminate.
  - vm_compute. reflexivity.
Defined.

(** [merge feature] on [dev]: [f.txt] receives the content [Z] of [theirs]. *)
Lemma merge_writes_taken_files_witness :
  let st := sample_repo on_dev in
  let st' := (merge sample_digest sample_serialize sample_deserialize "t1" sample_writable
                    "feature" st).1 in
  ∃ content,
    disk st !! object_path (blob_of (getFileBlobs sample_theirs) "f.txt") = Some content
    ∧ disk st' !! "f.txt" = Some content.
Proof.
  apply (merge_writes_taken_files sample_digest sample_serialize sample_deserialize "t1"
           sample_writable "feature" "c-base" "c-theirs" sample_base sample_theirs
           sample_base (Merged "c-Merge branch 'feature'") (sample_repo on_dev) _
           ltac:(vm_compute; reflexivity) ltac:(discriminate)
           ltac:(vm_compute; reflexivity) ltac:(discriminate)
           ltac:(vm_compute; reflexivity) ltac:(vm_compute; reflexivity)
           ltac:(vm_compute; reflexivity)).
  - intros f Hf.
    assert (f = "f.txt") as ->.
    { simpl in Hf. rewrite !dom_singleton_L in Hf. set_solver. }
    split_and!; [reflexivity|discriminate|discriminate|intros h; discriminate].
  - vm_compute. reflexivity.
  - simpl. rewrite !dom_singleton_L. set_solver.
  - reflexivity.
Defined.

(** [add g.txt] twice. *)
Lemma add_twice_witness :
  let st1 := (add sample_hash sample_writable sample_iteration "g.txt"
                  (sample_repo on_master)).1 in
  ∃ st2, add sample_hash sample_writable sample_iteration "g.txt" st1 = (st2, Ok tt)
         ∧ stagingArea st2 = stagingArea st1
         ∧ (∀ p, p ≠ INDEX_FILE → disk st2 !! p = disk st1 !! p)
         ∧ stagingArea (MiniGit_new (disk st2)) = stagingArea st1
         ∧ stagingArea (MiniGit_new (disk st1)) = stagingArea st1.
Proof.
  apply (add_twice sample_hash sample_writable sample_iteration sample_iteration_entries
           "g.txt" (sample_repo on_master)).
  - discriminate.
  - intros h. discriminate.
  - intros file hash Hfile.
    assert (stagingArea (add sample_hash sample_writable sample_iteration "g.txt"
                             (sample_repo on_master)).1
            = {["g.txt" := "hW"]}) as Hstaged by (vm_compute; reflexivity).
    rewrite Hstaged in Hfile.
    apply lookup_singleton_Some in Hfile as [<- <-]. split_and!; reflexivity.
  - vm_compute. reflexivity.
Defined.
